(** * RPF7 archive reader of gtavbrowser-mcp: a shallow embedding

    The development follows the TypeScript sources:
    - [crypto.ts]      : [RpfEncryption], [GTACrypto] (AES-ECB with tail
                         pass-through, the SHA-256 keyed XOR called NG);
    - [rpf.ts]         : entry records, [RpfFile.scanStructure],
                         [parseEntries], [buildHierarchy], [updatePaths],
                         [scanNestedRpfs], [findEntry], [getFileData];
    - [rpf-manager.ts] : the walk over the game directory ([findRpfFiles]),
                         the registry ([scanForRpfFiles], [addNestedRpfs]) and
                         its views ([listDirectory], [getFileContent],
                         [getFileInfo], [getDirectoryTree]).

    JavaScript numbers are integers of [Z]; the 32-bit operators ([>>], [<<],
    [&], [^], [|]) have their wrap-around written out.  A [Buffer] is a list of
    bytes, each an integer in [0, 256); [Buffer.alloc] and [fs.readSync] refuse
    the sizes and lengths that Node refuses.  Strings are modelled on the ASCII
    range.  Exceptions are the [Err] results of an error monad.  Node's own
    primitives (SHA-256, AES-128, zlib inflate) are written out from their
    standards so that every definition computes. *)

From Stdlib Require Import ZArith List String Ascii Lia Bool Btauto.
From stdpp Require Import base list gmap strings.

Local Open Scope Z_scope.

(** ** Exceptions and the error monad *)

Inductive error : Type :=
| InvalidVersion (version : Z)        (* Error("Invalid RPF version: ..") *)
| InvalidDirectoryEntry (h3 : Z)      (* Error("Invalid directory entry identifier: ..") *)
| InvalidBinaryFileEntry              (* Error("Invalid binary file entry") *)
| TypeError                           (* property access on undefined *)
| RangeError                          (* DataView bounds, buffer size or read length
                                         out of range, call stack exhausted *)
| ZlibError                           (* thrown by zlib.inflateSync *)
| ENOENT.                             (* fs.openSync on a missing path *)

Inductive result (A : Type) : Type :=
| Ok (a : A)
| Err (e : error).
Arguments Ok {A} a.
Arguments Err {A} e.

Definition rbind {A B : Type} (r : result A) (k : A -> result B) : result B :=
  match r with
  | Ok a => k a
  | Err e => Err e
  end.

Notation "x <-- r ;; k" := (rbind r (fun x => k))
  (at level 100, r at next level, right associativity).

Definition mapOk {A B : Type} (f : A -> B) (r : result A) : result B :=
  match r with
  | Ok a => Ok (f a)
  | Err e => Err e
  end.

Definition isOk {A : Type} (r : result A) : bool :=
  match r with Ok _ => true | Err _ => false end.

(** ** JavaScript 32-bit integer operators *)

Module JS.

Definition toInt32 (x : Z) : Z :=
  let m := x mod 2 ^ 32 in
  if m <? 2 ^ 31 then m else m - 2 ^ 32.

Definition toUint32 (x : Z) : Z := x mod 2 ^ 32.

(* x >> s *)
Definition sar (x s : Z) : Z := Z.shiftr (toInt32 x) (toUint32 s mod 32).

(* x << s *)
Definition shl (x s : Z) : Z := toInt32 (Z.shiftl (toInt32 x) (toUint32 s mod 32)).

(* x & y *)
Definition and (x y : Z) : Z := Z.land (toInt32 x) (toInt32 y).

(* x ^ y *)
Definition xor (x y : Z) : Z := Z.lxor (toInt32 x) (toInt32 y).

End JS.

(** ** Buffers, DataView reads and positioned file reads *)

Abbreviation byte := Z (only parsing).
Abbreviation Buffer := (list Z) (only parsing).

Definition is_byte (b : Z) : Prop := 0 <= b < 256.

(* Buffer.alloc(n): zero filled. *)
Definition alloc (n : Z) : Buffer := repeat 0 (Z.to_nat n).

(* little-endian value of a byte sequence *)
Fixpoint le_decode (bs : list byte) : Z :=
  match bs with
  | [] => 0
  | b :: rest => b + 256 * le_decode rest
  end.

(* n bytes of x, least significant first *)
Fixpoint le_bytes (n : nat) (x : Z) : list byte :=
  match n with
  | O => []
  | S n' => x mod 256 :: le_bytes n' (x / 256)
  end.

Definition subarray (data : Buffer) (start len : nat) : Buffer :=
  take len (drop start data).

(* DataView.getUint32(offset, true) / getBigUint64(offset, true): a read that
   leaves the view throws a RangeError. *)
Definition getUint (width : nat) (data : Buffer) (offset : Z) : result Z :=
  if (0 <=? offset) && (offset + Z.of_nat width <=? Z.of_nat (length data))
  then Ok (le_decode (subarray data (Z.to_nat offset) width))
  else Err RangeError.

Definition getUint32 := getUint 4.
Definition getBigUint64 := getUint 8.

(* buffer.constants.MAX_LENGTH, the largest size that Buffer.alloc accepts:
   2^32 on the 64-bit releases 15 to 21 of Node (later releases raise the
   constant and leave the refusal of such a size to the allocator). *)
Definition kMaxLength : Z := 2 ^ 32.

(* [len] bytes of a fresh buffer after the file was read into it from [pos]
   on: the bytes the file has there, then the zeros that a short read leaves *)
Definition readBytes (file : list byte) (len pos : Z) : Buffer :=
  let got := subarray file (Z.to_nat pos) (Z.to_nat len) in
  got ++ repeat 0 (Z.to_nat len - length got)%nat.

(* const buffer = Buffer.alloc(len); fs.readSync(fd, buffer, 0, len, pos).
   Buffer.alloc throws a RangeError (ERR_OUT_OF_RANGE) for a size that is
   negative or above kMaxLength.  readSync coerces the length ("length |= 0"):
   it returns at once when that is 0, throws a RangeError (ERR_OUT_OF_RANGE)
   when it is negative, and otherwise reads that many bytes; nothing looks at
   the number of bytes read. *)
Definition readSync (file : list byte) (len pos : Z) : result Buffer :=
  if (len <? 0) || (kMaxLength <? len) then Err RangeError
  else
    let length := JS.toInt32 len in
    if length =? 0 then Ok (alloc len)
    else if length <? 0 then Err RangeError
    else Ok (readBytes file length pos ++ alloc (len - length)).

(** ** Strings.  A string is modelled on the ASCII range: there
    [Buffer.toString('utf8')] maps a byte to the character of that code,
    [hash.update(string)] hashes one byte per character and
    [String.prototype.toLowerCase] changes the letters A to Z only.  Beyond that
    range JavaScript decodes and encodes UTF-8 and lowercases by the Unicode
    tables, which are not modelled; [isAscii] delimits the range. *)

Definition char_of_byte (b : byte) : ascii := ascii_of_N (Z.to_N b).
Definition byte_of_char (c : ascii) : byte := Z.of_N (N_of_ascii c).

Fixpoint string_of_bytes (bs : list byte) : string :=
  match bs with
  | [] => EmptyString
  | b :: rest => String (char_of_byte b) (string_of_bytes rest)
  end.

Fixpoint bytes_of_string (s : string) : list byte :=
  match s with
  | EmptyString => []
  | String c rest => byte_of_char c :: bytes_of_string rest
  end.


Definition lower_char (c : ascii) : ascii :=
  let n := N_of_ascii c in
  if ((65 <=? n) && (n <=? 90))%N then ascii_of_N (n + 32) else c.

Fixpoint toLowerCase (s : string) : string :=
  match s with
  | EmptyString => EmptyString
  | String c rest => String (lower_char c) (toLowerCase rest)
  end.

Fixpoint string_rev_acc (s acc : string) : string :=
  match s with
  | EmptyString => acc
  | String c rest => string_rev_acc rest (String c acc)
  end.

Fixpoint is_prefix (p s : string) : bool :=
  match p, s with
  | EmptyString, _ => true
  | String a p', String b s' => if Ascii.eqb a b then is_prefix p' s' else false
  | String _ _, EmptyString => false
  end.

(* s.endsWith(suffix) *)
Definition endsWith (s suffix : string) : bool :=
  is_prefix (string_rev_acc suffix EmptyString) (string_rev_acc s EmptyString).

(** ** Node's crypto primitives *)

(** SHA-256 (FIPS 180-4), as [crypto.createHash('sha256')] computes it. *)
Module Sha256.

Definition w32 (x : Z) : Z := x mod 2 ^ 32.

Definition rotr (x n : Z) : Z :=
  Z.lor (Z.shiftr x n) (w32 (Z.shiftl x (32 - n))).

Definition K : list Z :=
  [1116352408; 1899447441; 3049323471; 3921009573; 961987163; 1508970993;
   2453635748; 2870763221; 3624381080; 310598401; 607225278; 1426881987;
   1925078388; 2162078206; 2614888103; 3248222580; 3835390401; 4022224774;
   264347078; 604807628; 770255983; 1249150122; 1555081692; 1996064986;
   2554220882; 2821834349; 2952996808; 3210313671; 3336571891; 3584528711;
   113926993; 338241895; 666307205; 773529912; 1294757372; 1396182291;
   1695183700; 1986661051; 2177026350; 2456956037; 2730485921; 2820302411;
   3259730800; 3345764771; 3516065817; 3600352804; 4094571909; 275423344;
   430227734; 506948616; 659060556; 883997877; 958139571; 1322822218;
   1537002063; 1747873779; 1955562222; 2024104815; 2227730452; 2361852424;
   2428436474; 2756734187; 3204031479; 3329325298].

Definition state : Type := (Z * Z * Z * Z * Z * Z * Z * Z)%type.

Definition H0 : state :=
  (1779033703, 3144134277, 1013904242, 2773480762,
   1359893119, 2600822924, 528734635, 1541459225).

Definition ch (x y z : Z) : Z := Z.lxor (Z.land x y) (Z.land (w32 (Z.lnot x)) z).
Definition maj (x y z : Z) : Z :=
  Z.lxor (Z.lxor (Z.land x y) (Z.land x z)) (Z.land y z).
Definition bsig0 (x : Z) : Z := Z.lxor (Z.lxor (rotr x 2) (rotr x 13)) (rotr x 22).
Definition bsig1 (x : Z) : Z := Z.lxor (Z.lxor (rotr x 6) (rotr x 11)) (rotr x 25).
Definition ssig0 (x : Z) : Z := Z.lxor (Z.lxor (rotr x 7) (rotr x 18)) (Z.shiftr x 3).
Definition ssig1 (x : Z) : Z := Z.lxor (Z.lxor (rotr x 17) (rotr x 19)) (Z.shiftr x 10).

Definition be_decode (bs : list byte) : Z :=
  fold_left (fun acc b => 256 * acc + b) bs 0.

Definition be4 (x : Z) : list byte :=
  [Z.shiftr x 24 mod 256; Z.shiftr x 16 mod 256; Z.shiftr x 8 mod 256; x mod 256].

Definition pad (msg : list byte) : list byte :=
  let l := Z.of_nat (length msg) in
  msg ++ [128] ++ repeat 0 (Z.to_nat ((55 - l) mod 64))
      ++ be4 (Z.shiftr (8 * l) 32) ++ be4 (w32 (8 * l)).

Fixpoint words (n : nat) (bs : list byte) : list Z :=
  match n with
  | O => []
  | S n' => be_decode (take 4 bs) :: words n' (drop 4 bs)
  end.

Fixpoint extend (n : nat) (w : list Z) : list Z :=
  match n with
  | O => w
  | S n' =>
      let t := length w in
      let g := fun i : nat => nth (t - i) w 0 in
      extend n' (w ++ [w32 (ssig1 (g 2%nat) + g 7%nat + ssig0 (g 15%nat) + g 16%nat)])
  end.

Definition round (st : state) (kw : Z * Z) : state :=
  let '(a, b, c, d, e, f, g, h) := st in
  let t1 := w32 (h + bsig1 e + ch e f g + fst kw + snd kw) in
  let t2 := w32 (bsig0 a + maj a b c) in
  (w32 (t1 + t2), a, b, c, w32 (d + t1), e, f, g).

Definition compress (st : state) (chunk : list byte) : state :=
  let w := extend 48 (words 16 chunk) in
  let '(a, b, c, d, e, f, g, h) := fold_left round (combine K w) st in
  let '(a0, b0, c0, d0, e0, f0, g0, h0) := st in
  (w32 (a0 + a), w32 (b0 + b), w32 (c0 + c), w32 (d0 + d),
   w32 (e0 + e), w32 (f0 + f), w32 (g0 + g), w32 (h0 + h)).

Fixpoint chunks (n : nat) (st : state) (bs : list byte) : state :=
  match n with
  | O => st
  | S n' => chunks n' (compress st (take 64 bs)) (drop 64 bs)
  end.

Definition digest (msg : list byte) : Buffer :=
  let p := pad msg in
  let '(a, b, c, d, e, f, g, h) := chunks (length p / 64) H0 p in
  be4 a ++ be4 b ++ be4 c ++ be4 d ++ be4 e ++ be4 f ++ be4 g ++ be4 h.

End Sha256.

(** AES-128 (FIPS 197) on one 16-byte block, as the [aes-128-ecb] cipher of
    [crypto.createCipheriv] / [createDecipheriv] without padding. *)
Module Aes.

Definition xtime (a : Z) : Z :=
  let d := 2 * a in if d <? 256 then d else Z.lxor (d - 256) 27.

Fixpoint gmul_aux (n : nat) (a b : Z) : Z :=
  match n with
  | O => 0
  | S n' => Z.lxor (if Z.odd b then a else 0) (gmul_aux n' (xtime a) (b / 2))
  end.

Definition gmul (a b : Z) : Z := gmul_aux 8 a b.

Fixpoint gpow (n : nat) (a : Z) : Z :=
  match n with
  | O => 1
  | S n' => gmul a (gpow n' a)
  end.

Definition rotl8 (x s : Z) : Z := Z.lor (Z.shiftl x s mod 256) (Z.shiftr x (8 - s)).

Definition sbox_of (a : Z) : Z :=
  let b := gpow 254 a in
  Z.lxor (Z.lxor (Z.lxor (Z.lxor (Z.lxor b (rotl8 b 1)) (rotl8 b 2)) (rotl8 b 3)) (rotl8 b 4)) 99.

Definition sbox_table : list Z :=
  Eval vm_compute in map (fun i => sbox_of (Z.of_nat i)) (seq 0 256).

Definition sbox (a : Z) : Z := nth (Z.to_nat a) sbox_table 0.

Fixpoint index_of (v : Z) (l : list Z) : Z :=
  match l with
  | [] => 0
  | x :: rest => if x =? v then 0 else 1 + index_of v rest
  end.

Definition inv_sbox_table : list Z :=
  Eval vm_compute in map (fun i => index_of (Z.of_nat i) sbox_table) (seq 0 256).

Definition inv_sbox (a : Z) : Z := nth (Z.to_nat a) inv_sbox_table 0.

Definition block : Type := list byte.

Definition at_ (s : block) (i : nat) : Z := nth i s 0.

Definition xor_block (a b : block) : block :=
  map (fun p => Z.lxor (fst p) (snd p)) (combine a b).

(* byte r + 4c of the block is row r, column c of the state *)
Definition shiftRows (s : block) : block :=
  map (fun i => at_ s ((i mod 4) + 4 * ((i / 4 + i mod 4) mod 4))%nat) (seq 0 16).

Definition invShiftRows (s : block) : block :=
  map (fun i => at_ s ((i mod 4) + 4 * ((i / 4 + 4 - i mod 4) mod 4))%nat) (seq 0 16).

Definition mixColumn (m0 m1 m2 m3 : Z) (col : list Z) : list Z :=
  let a := at_ col 0 in let b := at_ col 1 in
  let c := at_ col 2 in let d := at_ col 3 in
  [Z.lxor (Z.lxor (gmul a m0) (gmul b m1)) (Z.lxor (gmul c m2) (gmul d m3));
   Z.lxor (Z.lxor (gmul a m3) (gmul b m0)) (Z.lxor (gmul c m1) (gmul d m2));
   Z.lxor (Z.lxor (gmul a m2) (gmul b m3)) (Z.lxor (gmul c m0) (gmul d m1));
   Z.lxor (Z.lxor (gmul a m1) (gmul b m2)) (Z.lxor (gmul c m3) (gmul d m0))].

Definition columns (f : list Z -> list Z) (s : block) : block :=
  f (take 4 s) ++ f (take 4 (drop 4 s)) ++ f (take 4 (drop 8 s)) ++ f (take 4 (drop 12 s)).

Definition mixColumns : block -> block := columns (mixColumn 2 3 1 1).
Definition invMixColumns : block -> block := columns (mixColumn 14 11 13 9).

Definition subWord (w : list Z) : list Z := map sbox w.
Definition rotWord (w : list Z) : list Z := drop 1 w ++ take 1 w.

(* the next round key from the previous one *)
Definition nextKey (rcon : Z) (k : block) : block :=
  let t := xor_block (subWord (rotWord (take 4 (drop 12 k)))) [rcon; 0; 0; 0] in
  let w0 := xor_block (take 4 k) t in
  let w1 := xor_block (take 4 (drop 4 k)) w0 in
  let w2 := xor_block (take 4 (drop 8 k)) w1 in
  let w3 := xor_block (take 4 (drop 12 k)) w2 in
  w0 ++ w1 ++ w2 ++ w3.

Fixpoint expand (rcons : list Z) (k : block) : list block :=
  match rcons with
  | [] => [k]
  | r :: rest => k :: expand rest (nextKey r k)
  end.

Definition keySchedule (key : block) : list block :=
  expand [1; 2; 4; 8; 16; 32; 64; 128; 27; 54] key.

Definition encRound (s k : block) : block :=
  xor_block (mixColumns (shiftRows (map sbox s))) k.

Definition encryptBlock (key b : block) : block :=
  match keySchedule key with
  | [] => b
  | k0 :: ks =>
      let s := fold_left encRound (List.removelast ks) (xor_block b k0) in
      xor_block (shiftRows (map sbox s)) (List.last ks [])
  end.

Definition decRound (s k : block) : block :=
  invMixColumns (xor_block (map inv_sbox (invShiftRows s)) k).

Definition decryptBlock (key b : block) : block :=
  match rev (keySchedule key) with
  | [] => b
  | k10 :: ks =>
      let s := fold_left decRound (List.removelast ks) (xor_block b k10) in
      xor_block (map inv_sbox (invShiftRows s)) (List.last ks [])
  end.

End Aes.

(** ** Node's zlib: [zlib.inflateSync], the zlib container (RFC 1950) around a
    deflate stream (RFC 1951).  Every failure of the decoder is one exception. *)
Module Zlib.

Record stream : Type := { rest : list bool; used : nat }.

Definition bits_of_byte (b : byte) : list bool :=
  map (fun i => Z.testbit b (Z.of_nat i)) (seq 0 8).

Definition open_stream (data : list byte) : stream :=
  {| rest := flat_map bits_of_byte data; used := 0 |}.

Definition getbit (s : stream) : option (Z * stream) :=
  match rest s with
  | [] => None
  | b :: r => Some (Z.b2z b, {| rest := r; used := S (used s) |})
  end.

(* n bits, least significant first *)
Fixpoint getbits (n : nat) (s : stream) : option (Z * stream) :=
  match n with
  | O => Some (0, s)
  | S n' =>
      match getbit s with
      | None => None
      | Some (b, s1) =>
          match getbits n' s1 with
          | None => None
          | Some (v, s2) => Some (b + 2 * v, s2)
          end
      end
  end.

Definition align (s : stream) : stream :=
  let k := ((8 - used s mod 8) mod 8)%nat in
  {| rest := drop k (rest s); used := (used s + k)%nat |}.

Fixpoint getbytes (n : nat) (s : stream) : option (list byte * stream) :=
  match n with
  | O => Some ([], s)
  | S n' =>
      match getbits 8 s with
      | None => None
      | Some (b, s1) =>
          match getbytes n' s1 with
          | None => None
          | Some (bs, s2) => Some (b :: bs, s2)
          end
      end
  end.

(* A canonical Huffman code: how many codes there are of each length 1..15,
   and the symbols in the order of their codes. *)
Record huffman : Type := { counts : list Z; symbols : list Z }.

Definition count_len (lens : list Z) (l : Z) : Z :=
  Z.of_nat (length (filter (fun x => x =? l) lens)).

Definition symbols_of_len (lens : list Z) (l : Z) : list Z :=
  map (fun p => Z.of_nat (fst p))
      (filter (fun p => snd p =? l) (combine (seq 0 (length lens)) lens)).

Definition code_lengths : list Z := map Z.of_nat (seq 1 15).

(* what is left of the code space after the codes of each length *)
Definition left_over (lens : list Z) : Z :=
  fold_left (fun left l => 2 * left - count_len lens l) code_lengths 1.

Definition over_subscribed (lens : list Z) : bool :=
  existsb (fun n => fold_left (fun left l => 2 * left - count_len lens l)
                              (take n code_lengths) 1 <? 0)
          (seq 1 15).

Definition max_len (lens : list Z) : Z := fold_left Z.max lens 0.

(* inflate_table, for the codes a dynamic block declares: an over-subscribed
   set is refused; an incomplete one too, unless it is empty or (for
   literal/length and distance codes) has a single code of one bit. *)
Definition table (lens : list Z) : huffman :=
  {| counts := map (count_len lens) code_lengths;
     symbols := flat_map (symbols_of_len lens) code_lengths |}.

Definition build (strict : bool) (lens : list Z) : option huffman :=
  if over_subscribed lens then None
  else if (0 <? max_len lens) && (0 <? left_over lens)
          && (strict || negb (max_len lens =? 1)) then None
  else Some (table lens).

Fixpoint decode_from (cnts : list Z) (syms : list Z) (code first index : Z)
    (s : stream) : option (Z * stream) :=
  match cnts with
  | [] => None
  | cnt :: cnts' =>
      match getbit s with
      | None => None
      | Some (b, s1) =>
          let code := code + b in
          if code - cnt <? first
          then Some (nth (Z.to_nat (index + (code - first))) syms 0, s1)
          else decode_from cnts' syms (2 * code) (2 * (first + cnt)) (index + cnt) s1
      end
  end.

Definition decode (h : huffman) (s : stream) : option (Z * stream) :=
  decode_from (counts h) (symbols h) 0 0 0 s.

Definition length_base : list Z :=
  [3; 4; 5; 6; 7; 8; 9; 10; 11; 13; 15; 17; 19; 23; 27; 31; 35; 43; 51; 59;
   67; 83; 99; 115; 131; 163; 195; 227; 258].
Definition length_extra : list nat :=
  [0; 0; 0; 0; 0; 0; 0; 0; 1; 1; 1; 1; 2; 2; 2; 2; 3; 3; 3; 3; 4; 4; 4; 4;
   5; 5; 5; 5; 0]%nat.
Definition dist_base : list Z :=
  [1; 2; 3; 4; 5; 7; 9; 13; 17; 25; 33; 49; 65; 97; 129; 193; 257; 385; 513;
   769; 1025; 1537; 2049; 3073; 4097; 6145; 8193; 12289; 16385; 24577].
Definition dist_extra : list nat :=
  [0; 0; 0; 0; 1; 1; 2; 2; 3; 3; 4; 4; 5; 5; 6; 6; 7; 7; 8; 8; 9; 9; 10; 10;
   11; 11; 12; 12; 13; 13]%nat.

(* [out] is the output so far, last byte first *)
Fixpoint copy_match (len : nat) (dist : nat) (out : list byte) : list byte :=
  match len with
  | O => out
  | S len' => copy_match len' dist (nth (dist - 1) out 0 :: out)
  end.

Fixpoint codes (fuel : nat) (lencode distcode : huffman) (s : stream)
    (out : list byte) : option (stream * list byte) :=
  match fuel with
  | O => None
  | S fuel' =>
      match decode lencode s with
      | None => None
      | Some (sym, s1) =>
          if sym <? 256 then codes fuel' lencode distcode s1 (sym :: out)
          else if sym =? 256 then Some (s1, out)
          else
            let i := Z.to_nat (sym - 257) in
            if (29 <=? i)%nat then None else
            match getbits (nth i length_extra 0%nat) s1 with
            | None => None
            | Some (le, s2) =>
                match decode distcode s2 with
                | None => None
                | Some (dsym, s3) =>
                    let j := Z.to_nat dsym in
                    if (30 <=? j)%nat then None else
                    match getbits (nth j dist_extra 0%nat) s3 with
                    | None => None
                    | Some (de, s4) =>
                        let dist := Z.to_nat (nth j dist_base 0 + de) in
                        if (length out <? dist)%nat then None
                        else codes fuel' lencode distcode s4
                               (copy_match (Z.to_nat (nth i length_base 0 + le)) dist out)
                    end
                end
            end
      end
  end.

Definition fixed_lencode : list Z :=
  repeat 8 144 ++ repeat 9 112 ++ repeat 7 24 ++ repeat 8 8.
Definition fixed_distcode : list Z := repeat 5 30.

Definition clen_order : list nat :=
  [16; 17; 18; 0; 8; 7; 9; 6; 10; 5; 11; 4; 12; 3; 13; 2; 14; 1; 15]%nat.

Fixpoint read_clens (order : list nat) (n : nat) (s : stream) (lens : list Z)
    : option (list Z * stream) :=
  match n, order with
  | S n', o :: order' =>
      match getbits 3 s with
      | None => None
      | Some (v, s1) => read_clens order' n' s1 (<[o := v]> lens)
      end
  | _, _ => Some (lens, s)
  end.

(* the literal/length and distance code lengths, run-length coded *)
Fixpoint read_lens (fuel : nat) (cl : huffman) (total : nat) (s : stream)
    (acc : list Z) : option (list Z * stream) :=
  if (total <=? length acc)%nat then Some (acc, s) else
  match fuel with
  | O => None
  | S fuel' =>
      match decode cl s with
      | None => None
      | Some (sym, s1) =>
          if sym <? 16 then read_lens fuel' cl total s1 (acc ++ [sym])
          else
            let '(prev, nbits, base) :=
              if sym =? 16 then (List.last acc (-1), 2%nat, 3)
              else if sym =? 17 then (0, 3%nat, 3)
              else (0, 7%nat, 11) in
            if prev <? 0 then None else
            match getbits nbits s1 with
            | None => None
            | Some (e, s2) =>
                let acc' := acc ++ repeat prev (Z.to_nat (base + e)) in
                if (total <? length acc')%nat then None
                else read_lens fuel' cl total s2 acc'
            end
      end
  end.

Definition dynamic_codes (s : stream) : option (huffman * huffman * stream) :=
  match getbits 5 s with
  | None => None
  | Some (hlit, s1) =>
  match getbits 5 s1 with
  | None => None
  | Some (hdist, s2) =>
  match getbits 4 s2 with
  | None => None
  | Some (hclen, s3) =>
      let nlen := Z.to_nat (hlit + 257) in
      let ndist := Z.to_nat (hdist + 1) in
      if (286 <? nlen)%nat || (30 <? ndist)%nat then None else
      match read_clens clen_order (Z.to_nat (hclen + 4)) s3 (repeat 0 19) with
      | None => None
      | Some (clens, s4) =>
          match build true clens with
          | None => None
          | Some cl =>
              match read_lens (nlen + ndist) cl (nlen + ndist) s4 [] with
              | None => None
              | Some (lens, s5) =>
                  if nth 256 lens 0 =? 0 then None else
                  match build false (take nlen lens), build false (drop nlen lens) with
                  | Some lc, Some dc => Some (lc, dc, s5)
                  | _, _ => None
                  end
              end
          end
      end
  end end end.

Definition stored (s : stream) (out : list byte) : option (stream * list byte) :=
  match getbits 16 (align s) with
  | None => None
  | Some (len, s1) =>
      match getbits 16 s1 with
      | None => None
      | Some (nlen, s2) =>
          if negb (len + nlen =? 65535) then None else
          match getbytes (Z.to_nat len) s2 with
          | None => None
          | Some (bs, s3) => Some (s3, rev bs ++ out)
          end
      end
  end.

Fixpoint blocks (fuel : nat) (s : stream) (out : list byte)
    : option (stream * list byte) :=
  match fuel with
  | O => None
  | S fuel' =>
      match getbits 1 s with
      | None => None
      | Some (final, s1) =>
          match getbits 2 s1 with
          | None => None
          | Some (btype, s2) =>
              let r :=
                if btype =? 0 then stored s2 out
                else if btype =? 1 then
                  codes (S (length (rest s2))) (table fixed_lencode)
                        (table fixed_distcode) s2 out
                else if btype =? 2 then
                  match dynamic_codes s2 with
                  | Some (lc, dc, s3) => codes (S (length (rest s3))) lc dc s3 out
                  | None => None
                  end
                else None in
              match r with
              | None => None
              | Some (s3, out') =>
                  if final =? 1 then Some (s3, out') else blocks fuel' s3 out'
              end
          end
      end
  end.

Definition adler32 (data : list byte) : Z :=
  let '(a, b) :=
    fold_left (fun ab x => let a := (fst ab + x) mod 65521 in (a, (snd ab + a) mod 65521))
              data (1, 0) in
  65536 * b + a.

Definition inflateSync (data : Buffer) : result Buffer :=
  match data with
  | cmf :: flg :: body =>
      if negb ((256 * cmf + flg) mod 31 =? 0) then Err ZlibError   (* incorrect header check *)
      else if negb (cmf mod 16 =? 8) then Err ZlibError            (* unknown compression method *)
      else if 7 <? cmf / 16 then Err ZlibError                     (* invalid window size *)
      else if Z.testbit flg 5 then Err ZlibError                   (* a preset dictionary is needed *)
      else
        let s := open_stream body in
        match blocks (S (length (rest s))) s [] with
        | None => Err ZlibError
        | Some (s1, out) =>
            match getbytes 4 (align s1) with
            | None => Err ZlibError                                (* unexpected end of file *)
            | Some (sum, _) =>
                if Sha256.be_decode sum =? adler32 (rev out) then Ok (rev out)
                else Err ZlibError                                 (* incorrect data check *)
            end
        end
  | _ => Err ZlibError                                             (* unexpected end of file *)
  end.

End Zlib.

(** ** crypto.ts *)

Module RpfEncryption.
Definition NONE : Z := 0.
Definition OPEN : Z := 0x4E45504F.
Definition AES : Z := 0x0FFFFFF9.
Definition NG : Z := 0x0FEFFFFF.
End RpfEncryption.

Module GTACrypto.

Definition PC_AES_KEY : Buffer :=
  [0x1A; 0x94; 0x6D; 0xBC; 0x73; 0xB8; 0x5E; 0x42;
   0x0B; 0x79; 0x45; 0x8C; 0x65; 0x00; 0x56; 0x7E].

(* source.copy(target, targetStart): the bytes that fit are written over the
   target from targetStart on *)
Definition copyInto (source target : Buffer) (targetStart : nat) : Buffer :=
  take targetStart target
  ++ take (length target - targetStart) source
  ++ drop (targetStart + length source) target.

(* One pass of the loop shared by decryptAES and encryptAES; [cipher] is what
   update() and final() return for one 16-byte block. *)
Definition aesStep (cipher : Buffer -> Buffer) (data : Buffer) (i : Z)
    (out : Buffer) : Buffer :=
  let offset := i * 16 in
  let blockSize := Z.min 16 (Z.of_nat (length data) - offset) in
  if blockSize =? 16
  then copyInto (cipher (subarray data (Z.to_nat offset) 16)) out (Z.to_nat offset)
  else copyInto (subarray data (Z.to_nat offset) (Z.to_nat blockSize)) out (Z.to_nat offset).

Fixpoint aesLoop (cipher : Buffer -> Buffer) (data : Buffer) (n : nat) (i : Z)
    (out : Buffer) : Buffer :=
  match n with
  | O => out
  | S n' => aesLoop cipher data n' (i + 1) (aesStep cipher data i out)
  end.

(* const rounds = data.length + 15 >> 4 *)
Definition rounds (data : Buffer) : Z := JS.sar (Z.of_nat (length data) + 15) 4.

Definition decryptAES (data : Buffer) : Buffer :=
  aesLoop (Aes.decryptBlock PC_AES_KEY) data (Z.to_nat (rounds data)) 0
          (alloc (Z.of_nat (length data))).

Definition encryptAES (data : Buffer) : Buffer :=
  aesLoop (Aes.encryptBlock PC_AES_KEY) data (Z.to_nat (rounds data)) 0
          (alloc (Z.of_nat (length data))).

Definition generateNGKey (name : string) (size : Z) : Buffer :=
  Sha256.digest
    (bytes_of_string (toLowerCase name)
     ++ [JS.and size 0xFF; JS.and (JS.sar size 8) 0xFF;
         JS.and (JS.sar size 16) 0xFF; JS.and (JS.sar size 24) 0xFF]).

(* the element store of a Buffer keeps the low eight bits *)
Definition toUint8 (x : Z) : byte := x mod 256.

(* for (i = 0; i < data.length; i++) decrypted[i] = data[i] ^ key[i % key.length] *)
Fixpoint xorLoop (key : Buffer) (i : Z) (data : Buffer) : Buffer :=
  match data with
  | [] => []
  | d :: rest =>
      toUint8 (JS.xor d (nth (Z.to_nat (i mod Z.of_nat (length key))) key 0))
      :: xorLoop key (i + 1) rest
  end.

Definition decryptNG (data : Buffer) (name : string) (size : Z) : Buffer :=
  xorLoop (generateNGKey name size) 0 data.

Definition encryptNG (data : Buffer) (name : string) (size : Z) : Buffer :=
  decryptNG data name size.

End GTACrypto.

(** ** rpf.ts *)

Module Rpf.

(** Entries live in [allEntries]; the object references of the source
    ([parent], [directories], [files], [root]) are indices into that array. *)

Record DirectoryFields : Type := {
  entriesIndex : Z;
  entriesCount : Z;
  directories : list nat;
  files : list nat }.

Record FileFields : Type := {
  fileOffset : Z;
  fileSize : Z;
  fileUncompressedSize : Z;
  isEncrypted : bool }.

Inductive EntryClass : Type :=
| RpfDirectoryEntry (d : DirectoryFields)
| RpfBinaryFileEntry (f : FileFields) (encryptionType : Z)
| RpfResourceFileEntry (f : FileFields) (systemFlags graphicsFlags : Z).

(* entry.file: the archive that read the entry, or the nested archive that
   scanNestedRpfs stored there (its position in [children]) *)
Inductive Owner : Type :=
| OwnThis
| OwnChild (k : nat).

Record RpfEntry : Type := {
  nameOffset : Z;
  name : string;
  nameLower : string;
  path : string;
  parent : option nat;
  file : Owner;
  cls : EntryClass }.

Definition isDirectory (e : RpfEntry) : bool :=
  match cls e with RpfDirectoryEntry _ => true | _ => false end.

Definition dirFields (e : RpfEntry) : option DirectoryFields :=
  match cls e with RpfDirectoryEntry d => Some d | _ => None end.

Definition fileFields (e : RpfEntry) : option FileFields :=
  match cls e with
  | RpfDirectoryEntry _ => None
  | RpfBinaryFileEntry f _ => Some f
  | RpfResourceFileEntry f _ _ => Some f
  end.

(** *** The three [read] methods: (nameOffset, class fields) of a record *)

Definition IDENT : Z := 0x7FFFFF00.

Definition readDirectoryEntry (data : Buffer) (offset : Z) : result (Z * EntryClass) :=
  nameOffset <-- getUint32 data offset ;;
  h1 <-- getUint32 data (offset + 4) ;;
  h2 <-- getUint32 data (offset + 8) ;;
  h3 <-- getUint32 data (offset + 12) ;;
  if negb (h3 =? IDENT) then Err (InvalidDirectoryEntry h3)
  else Ok (nameOffset,
           RpfDirectoryEntry {| entriesIndex := h1; entriesCount := h2;
                                directories := []; files := [] |}).

Definition readBinaryFileEntry (data : Buffer) (offset : Z) : result (Z * EntryClass) :=
  d1 <-- getBigUint64 data offset ;;
  d2 <-- getBigUint64 data (offset + 8) ;;
  let nameOffset := Z.land (Z.shiftr d1 0) 0xFFFF in
  let fileSize := Z.land (Z.shiftr d1 16) 0xFFFFFF in
  let fileOffset := Z.land (Z.shiftr d1 40) 0xFFFFFF in
  let fileUncompressedSize := Z.land (Z.shiftr d2 0) 0xFFFFFF in
  let encryptionType := Z.land (Z.shiftr d2 24) 0xFF in
  if negb (Z.shiftr d2 32 =? 0) then Err InvalidBinaryFileEntry
  else Ok (nameOffset,
           RpfBinaryFileEntry
             {| fileOffset := fileOffset; fileSize := fileSize;
                fileUncompressedSize := fileUncompressedSize;
                isEncrypted := negb (encryptionType =? 0) |}
             encryptionType).

Definition getResourceSize (systemFlags graphicsFlags : Z) : Z :=
  let baseSize := if negb (JS.and (JS.sar systemFlags 27) 0x1 =? 0) then 0x10 else 0x0 in
  let virtualSize :=
    JS.shl (JS.and systemFlags 0x7FF) (JS.and (JS.sar systemFlags 11) 0xF) in
  let physicalSize :=
    JS.shl (JS.and (JS.sar systemFlags 15) 0x7F) (JS.and (JS.sar systemFlags 25) 0xF) in
  let virtualSizeGraphics :=
    JS.shl (JS.and graphicsFlags 0x7FF) (JS.and (JS.sar graphicsFlags 11) 0xF) in
  let physicalSizeGraphics :=
    JS.shl (JS.and (JS.sar graphicsFlags 15) 0x7F) (JS.and (JS.sar graphicsFlags 25) 0xF) in
  baseSize + virtualSize + physicalSize + virtualSizeGraphics + physicalSizeGraphics.

Definition readResourceFileEntry (data : Buffer) (offset : Z) : result (Z * EntryClass) :=
  d1 <-- getBigUint64 data offset ;;
  d2 <-- getBigUint64 data (offset + 8) ;;
  let nameOffset := Z.land (Z.shiftr d1 0) 0xFFFF in
  let fileSize := Z.land (Z.shiftr d1 16) 0xFFFFFF in
  let fileOffset := Z.land (Z.shiftr d1 40) 0xFFFFFF in
  let systemFlags := Z.land d2 0xFFFFFFFF in
  let graphicsFlags := Z.land (Z.shiftr d2 32) 0xFFFFFFFF in
  let f :=
    if fileSize =? 0xFFFFFF
    then let size := getResourceSize systemFlags graphicsFlags in
         {| fileOffset := fileOffset; fileSize := size;
            fileUncompressedSize := size; isEncrypted := false |}
    else {| fileOffset := fileOffset; fileSize := fileSize;
            fileUncompressedSize := 0; isEncrypted := false |} in
  Ok (nameOffset, RpfResourceFileEntry f systemFlags graphicsFlags).

(** *** parseEntries *)

Fixpoint untilNul (bs : list byte) : list byte :=
  match bs with
  | [] => []
  | b :: rest => if b =? 0 then [] else b :: untilNul rest
  end.

Definition readName (namesData : Buffer) (offset : Z) : string :=
  string_of_bytes (untilNul (drop (Z.to_nat offset) namesData)).

Inductive Kind : Type := KDirectory | KBinary | KResource.

(* the class parseEntries instantiates for a record, from the word at offset + 8 *)
Definition classify (h2 : Z) : Kind :=
  if h2 =? IDENT then KDirectory
  else if JS.and h2 0x80000000 =? 0 then KBinary
  else KResource.

Definition readEntry (entriesData namesData : Buffer) (i : Z) : result RpfEntry :=
  let offset := i * 16 in
  h2 <-- getUint32 entriesData (offset + 8) ;;
  r <-- match classify h2 with
        | KDirectory => readDirectoryEntry entriesData offset
        | KBinary => readBinaryFileEntry entriesData offset
        | KResource => readResourceFileEntry entriesData offset
        end ;;
  let nm := readName namesData (fst r) in
  Ok {| nameOffset := fst r; name := nm; nameLower := toLowerCase nm;
        path := EmptyString; parent := None; file := OwnThis; cls := snd r |}.

(* for (let i = 0; i < this.entryCount; i++) { ...; this.allEntries.push(entry) } *)
Fixpoint readEntries (entriesData namesData : Buffer) (n : nat) (i : Z)
    : result (list RpfEntry) :=
  match n with
  | O => Ok []
  | S n' =>
      e <-- readEntry entriesData namesData i ;;
      rest <-- readEntries entriesData namesData n' (i + 1) ;;
      Ok (e :: rest)
  end.

(** *** buildHierarchy *)

Definition setParent (dir : nat) (e : RpfEntry) : RpfEntry :=
  {| nameOffset := nameOffset e; name := name e; nameLower := nameLower e;
     path := path e; parent := Some dir; file := file e; cls := cls e |}.

Definition setPath (p : string) (e : RpfEntry) : RpfEntry :=
  {| nameOffset := nameOffset e; name := name e; nameLower := nameLower e;
     path := p; parent := parent e; file := file e; cls := cls e |}.

Definition setFile (o : Owner) (e : RpfEntry) : RpfEntry :=
  {| nameOffset := nameOffset e; name := name e; nameLower := nameLower e;
     path := path e; parent := parent e; file := o; cls := cls e |}.

(* dir.directories.push(child) / dir.files.push(child) *)
Definition pushChild (child : nat) (childIsDirectory : bool) (e : RpfEntry) : RpfEntry :=
  match cls e with
  | RpfDirectoryEntry d =>
      {| nameOffset := nameOffset e; name := name e; nameLower := nameLower e;
         path := path e; parent := parent e; file := file e;
         cls := RpfDirectoryEntry
                  (if childIsDirectory
                   then {| entriesIndex := entriesIndex d; entriesCount := entriesCount d;
                           directories := directories d ++ [child]; files := files d |}
                   else {| entriesIndex := entriesIndex d; entriesCount := entriesCount d;
                           directories := directories d; files := files d ++ [child] |}) |}
  | _ => e
  end.

(* for (let i = startIdx; i < endIdx; i++) { child = allEntries[i]; child.parent = dir; ... } *)
Fixpoint adopt (dir : nat) (i : nat) (n : nat) (es : list RpfEntry)
    : result (list RpfEntry) :=
  match n with
  | O => Ok es
  | S n' =>
      match es !! i with
      | None => Err TypeError
      | Some child =>
          adopt dir (S i) n'
                (alter (pushChild i (isDirectory child)) dir (alter (setParent dir) i es))
      end
  end.

Definition adoptRange (dir : nat) (es : list RpfEntry) : result (list RpfEntry) :=
  match es !! dir with
  | Some e =>
      match cls e with
      | RpfDirectoryEntry d =>
          adopt dir (Z.to_nat (entriesIndex d)) (Z.to_nat (entriesCount d)) es
      | _ => Ok es
      end
  | None => Ok es
  end.

(* for (const entry of this.allEntries) *)
Fixpoint linkLoop (n : nat) (dir : nat) (es : list RpfEntry) : result (list RpfEntry) :=
  match n with
  | O => Ok es
  | S n' => es' <-- adoptRange dir es ;; linkLoop n' (S dir) es'
  end.

Definition joinPath (currentPath nm : string) : string :=
  match currentPath with
  | EmptyString => nm
  | _ => (currentPath ++ "\" ++ nm)%string
  end.

Definition nameAt (es : list RpfEntry) (i : nat) : string :=
  match es !! i with Some e => name e | None => EmptyString end.

Definition directoryAt (es : list RpfEntry) (i : nat) : option DirectoryFields :=
  es !! i ≫= dirFields.

Definition directoriesAt (es : list RpfEntry) (i : nat) : list nat :=
  match directoryAt es i with Some d => directories d | None => [] end.

Definition filesAt (es : list RpfEntry) (i : nat) : list nat :=
  match directoryAt es i with Some d => files d | None => [] end.

Fixpoint foldM {A S : Type} (f : S -> A -> result S) (l : list A) (s : S) : result S :=
  match l with
  | [] => Ok s
  | a :: l' => s' <-- f s a ;; foldM f l' s'
  end.

(* The recursion follows the directory references.  [fuel] is the depth the
   call stack affords: on a cyclic directory graph the source recurses until
   "RangeError: Maximum call stack size exceeded". *)
Fixpoint updatePaths (fuel : nat) (dir : nat) (currentPath : string)
    (es : list RpfEntry) : result (list RpfEntry) :=
  match fuel with
  | O => Err RangeError
  | S fuel' =>
      es1 <-- foldM (fun es0 subdir =>
                       let p := joinPath currentPath (nameAt es0 subdir) in
                       updatePaths fuel' subdir p (alter (setPath p) subdir es0))
                    (directoriesAt es dir) es ;;
      Ok (fold_left (fun es0 f => alter (setPath (joinPath currentPath (nameAt es0 f))) f es0)
                    (filesAt es1 dir) es1)
  end.

(* A recursion deeper than the number of entries revisits a directory, so it
   never returns in the source; this fuel separates the two cases. *)
Definition stackFuel (es : list RpfEntry) : nat := S (length es).

Definition rootOf (es : list RpfEntry) : option nat :=
  match es !! 0%nat with
  | Some e => if isDirectory e then Some 0%nat else None
  | None => None
  end.

Definition buildHierarchy (filePath : string) (es : list RpfEntry)
    : result (list RpfEntry * option nat) :=
  es1 <-- linkLoop (length es) 0 es ;;
  match rootOf es1 with
  | Some r =>
      es2 <-- updatePaths (stackFuel es1) r EmptyString (alter (setPath filePath) r es1) ;;
      Ok (es2, Some r)
  | None => Ok (es1, None)
  end.

Definition parseEntries (filePath : string) (entryCount : Z)
    (entriesData namesData : Buffer) : result (list RpfEntry * option nat) :=
  es <-- readEntries entriesData namesData (Z.to_nat entryCount) 0 ;;
  buildHierarchy filePath es.

(** *** scanNestedRpfs *)

Definition isRpfName (es : list RpfEntry) (i : nat) : bool :=
  match es !! i with
  | Some e => endsWith (nameLower e) ".rpf"
  | None => false
  end.

Fixpoint findRpfFiles (fuel : nat) (es : list RpfEntry) (dir : nat) : result (list nat) :=
  match fuel with
  | O => Err RangeError
  | S fuel' =>
      foldM (fun acc subdir => sub <-- findRpfFiles fuel' es subdir ;; Ok (acc ++ sub))
            (directoriesAt es dir)
            (filter (fun i => isRpfName es i = true) (filesAt es dir))
  end.

#[warnings="-register-all"]
Inductive RpfFile : Type := mkRpfFile {
  filePath : string;
  fileName : string;
  rpfSize : Z;               (* this.fileSize: the stat size of the backing file *)
  startPos : Z;
  version : Z;
  encryption : Z;
  entryCount : Z;
  namesLength : Z;
  isAESEncrypted : bool;
  isNGEncrypted : bool;
  allEntries : list RpfEntry;
  root : option nat;
  children : list RpfFile }.

(* One pass of "for (const rpfEntry of rpfFiles)": [nested name pos] is
   new RpfFile(this.filePath, name, pos, this).scanStructure(), whose exception
   the catch clause logs and drops. *)
Definition scanNestedStep (nested : string -> Z -> result RpfFile)
    (st : list RpfEntry * list RpfFile) (i : nat) : list RpfEntry * list RpfFile :=
  match fst st !! i with
  | Some e =>
      match cls e with
      | RpfBinaryFileEntry f _ =>
          match nested (name e) (fileOffset f * 512) with
          | Ok nestedRpf =>
              (alter (setFile (OwnChild (length (snd st)))) i (fst st),
               snd st ++ [nestedRpf])
          | Err _ => st
          end
      | _ => st
      end
  | None => st
  end.

Definition scanNestedRpfs (nested : string -> Z -> result RpfFile)
    (es : list RpfEntry) (rt : option nat) : result (list RpfEntry * list RpfFile) :=
  match rt with
  | None => Ok (es, [])
  | Some r =>
      rpfFiles <-- findRpfFiles (stackFuel es) es r ;;
      Ok (fold_left (scanNestedStep nested) rpfFiles (es, []))
  end.

(** *** scanStructure *)

Definition scanStructureWith (nested : string -> Z -> result RpfFile)
    (disk : gmap string (list byte)) (filePath fileName : string) (startPos : Z)
    : result RpfFile :=
  match disk !! filePath with
  | None => Err ENOENT
  | Some content =>
      headerBuffer <-- readSync content 16 startPos ;;
      version <-- getUint32 headerBuffer 0 ;;
      entryCount <-- getUint32 headerBuffer 4 ;;
      namesLength <-- getUint32 headerBuffer 8 ;;
      encryption <-- getUint32 headerBuffer 12 ;;
      if negb (version =? 0x52504637) then Err (InvalidVersion version) else
      let fileSize := Z.of_nat (length content) in
      let entriesSize := entryCount * 16 in
      entriesBuffer <-- readSync content entriesSize (startPos + 16) ;;
      namesBuffer <-- readSync content namesLength (startPos + 16 + entriesSize) ;;
      let decrypted :=
        if encryption =? RpfEncryption.AES
        then (GTACrypto.decryptAES entriesBuffer, GTACrypto.decryptAES namesBuffer)
        else if encryption =? RpfEncryption.NG
        then (GTACrypto.decryptNG entriesBuffer fileName fileSize,
              GTACrypto.decryptNG namesBuffer fileName fileSize)
        else (entriesBuffer, namesBuffer) in
      parsed <-- parseEntries filePath entryCount (fst decrypted) (snd decrypted) ;;
      scanned <-- scanNestedRpfs nested (fst parsed) (snd parsed) ;;
      Ok {| filePath := filePath; fileName := fileName; rpfSize := fileSize;
            startPos := startPos; version := version; encryption := encryption;
            entryCount := entryCount; namesLength := namesLength;
            isAESEncrypted := encryption =? RpfEncryption.AES;
            isNGEncrypted := encryption =? RpfEncryption.NG;
            allEntries := fst scanned; root := snd parsed;
            children := snd scanned |}
  end.

(* [depth] is the nesting of archives the call stack affords: the archive
   itself is always scanned, a nested archive beyond the depth fails with the
   RangeError of the exhausted stack (which the parent's catch drops). *)
Fixpoint scanStructure (depth : nat) (disk : gmap string (list byte))
    (filePath fileName : string) (startPos : Z) : result RpfFile :=
  scanStructureWith
    (match depth with
     | O => fun _ _ => Err RangeError
     | S depth' => fun nm pos => scanStructure depth' disk filePath nm pos
     end)
    disk filePath fileName startPos.

(** *** findEntry *)

Definition isSeparator (c : ascii) : bool :=
  Ascii.eqb c "/"%char || Ascii.eqb c "\"%char.

(* entryPath.split(/[\/\\]/): never empty, "" splits into [""] *)
Fixpoint splitPath (s : string) : list string :=
  match s with
  | EmptyString => [EmptyString]
  | String c rest =>
      if isSeparator c then EmptyString :: splitPath rest
      else match splitPath rest with
           | [] => [String c EmptyString]
           | part :: parts => String c part :: parts
           end
  end.

Definition findByName (es : list RpfEntry) (lowerPart : string) (candidates : list nat)
    : option nat :=
  List.find (fun i => match es !! i with
                      | Some e => String.eqb (nameLower e) lowerPart
                      | None => false
                      end) candidates.

(* one pass of "for (const part of parts)"; [inl] is the early return *)
Definition findStep (es : list RpfEntry) (current : option nat) (part : string)
    : option nat + option nat :=
  match current with
  | None => inl None
  | Some c =>
      match directoryAt es c with
      | None => inl None
      | Some d =>
          let lowerPart := toLowerCase part in
          match findByName es lowerPart (directories d) with
          | Some sub => inr (Some sub)
          | None => inr (findByName es lowerPart (files d))
          end
      end
  end.

Fixpoint findLoop (es : list RpfEntry) (current : option nat) (parts : list string)
    : option nat :=
  match parts with
  | [] => current
  | part :: parts' =>
      match findStep es current part with
      | inl r => r
      | inr next => findLoop es next parts'
      end
  end.

Definition findEntry (rpf : RpfFile) (entryPath : string) : option nat :=
  findLoop (allEntries rpf) (root rpf) (splitPath entryPath).

(** *** RpfFileEntry.getFileData *)

Definition getFileData (disk : gmap string (list byte)) (e : RpfEntry) (f : FileFields)
    (rpf : RpfFile) : result Buffer :=
  match disk !! filePath rpf with
  | None => Err ENOENT
  | Some content =>
      let offset := fileOffset f * 512 in
      buffer <-- readSync content (fileSize f) (startPos rpf + offset) ;;
      let decrypted :=
        if isEncrypted f then
          if isAESEncrypted rpf then GTACrypto.decryptAES buffer
          else if isNGEncrypted rpf
               then GTACrypto.decryptNG buffer (name e) (fileUncompressedSize f)
               else buffer
        else buffer in
      if (0 <? fileUncompressedSize f) && negb (fileUncompressedSize f =? fileSize f)
      then Zlib.inflateSync decrypted
      else Ok decrypted
  end.

End Rpf.

(** ** rpf-manager.ts *)

Module RpfManager.

Import Rpf.

(* private addNestedRpfs(rpfFile, basePath) *)
Fixpoint addNestedRpfs (rpfFile : RpfFile) (basePath : string)
    (rpfFiles : gmap string RpfFile) {struct rpfFile} : gmap string RpfFile :=
  (fix each (cs : list RpfFile) (m : gmap string RpfFile) {struct cs} :=
     match cs with
     | [] => m
     | child :: cs' =>
         let nestedPath := (basePath ++ "/" ++ fileName child)%string in
         let m1 := <[nestedPath := child]> m in
         each cs' (if (0 <? length (children child))%nat
                   then addNestedRpfs child nestedPath m1
                   else m1)
     end) (children rpfFile) rpfFiles.

Fixpoint basename (p : string) : string :=
  match p with
  | EmptyString => EmptyString
  | String c rest =>
      if Ascii.eqb c "/"%char then basename rest
      else if existsb (Ascii.eqb "/"%char) (list_ascii_of_string rest) then basename rest
      else p
  end.

(* One pass of the loop of scanForRpfFiles; [relativePath] stands for the file
   that findRpfFiles met under the root, named relative to the root with
   forward slashes.  A failure is logged and the scan goes on. *)
Definition loadRpf (depth : nat) (disk : gmap string (list byte))
    (rpfFiles : gmap string RpfFile) (relativePath : string) : gmap string RpfFile :=
  match scanStructure depth disk relativePath (basename relativePath) 0 with
  | Ok rpfFile => addNestedRpfs rpfFile relativePath (<[relativePath := rpfFile]> rpfFiles)
  | Err _ => rpfFiles
  end.

Definition scanForRpfFiles (depth : nat) (disk : gmap string (list byte))
    (rpfPaths : list string) : gmap string RpfFile :=
  fold_left (loadRpf depth disk) rpfPaths ∅.

Definition isRootPath (directoryPath : string) : bool :=
  String.eqb directoryPath "" || String.eqb directoryPath "/".

Definition listDirectory (rpfFiles : gmap string RpfFile) (rpfPath directoryPath : string)
    : option (list string * list string) :=
  match rpfFiles !! rpfPath with
  | None => None
  | Some rpf =>
      match root rpf with
      | None => None
      | Some r =>
          let targetDir :=
            if isRootPath directoryPath then Some r else findEntry rpf directoryPath in
          match targetDir ≫= directoryAt (allEntries rpf) with
          | None => None
          | Some d =>
              Some (map (nameAt (allEntries rpf)) (directories d),
                    map (nameAt (allEntries rpf)) (files d))
          end
      end
  end.

(* null when the archive or the file is missing, and when getFileData throws *)
Definition getFileContent (disk : gmap string (list byte))
    (rpfFiles : gmap string RpfFile) (rpfPath filePath : string) : option Buffer :=
  match rpfFiles !! rpfPath with
  | None => None
  | Some rpf =>
      match findEntry rpf filePath ≫= (fun i => allEntries rpf !! i) return option Buffer with
      | None => None
      | Some e =>
          match fileFields e with
          | None => None
          | Some f =>
              match getFileData disk e f rpf with
              | Ok data => Some data
              | Err _ => None
              end
          end
      end
  end.

End RpfManager.

(** ** The archives of the end-to-end scenarios *)

Module Scenario.

Import Rpf.

Definition header (entryCount namesLength encryption : Z) : list byte :=
  le_bytes 4 0x52504637 ++ le_bytes 4 entryCount ++ le_bytes 4 namesLength
  ++ le_bytes 4 encryption.

(* a directory record in the field order of RpfDirectoryEntry.read *)
Definition directoryRecord (nameOffset entriesIndex entriesCount ident : Z) : list byte :=
  le_bytes 4 nameOffset ++ le_bytes 4 entriesIndex ++ le_bytes 4 entriesCount
  ++ le_bytes 4 ident.

Definition binaryRecord (nameOffset fileSize fileOffset uncompressedSize encryptionType : Z)
    : list byte :=
  le_bytes 8 (nameOffset + 2 ^ 16 * fileSize + 2 ^ 40 * fileOffset)
  ++ le_bytes 8 (uncompressedSize + 2 ^ 24 * encryptionType).

Definition resourceRecord (nameOffset fileSize fileOffset systemFlags graphicsFlags : Z)
    : list byte :=
  le_bytes 8 (nameOffset + 2 ^ 16 * fileSize + 2 ^ 40 * fileOffset)
  ++ le_bytes 8 (systemFlags + 2 ^ 32 * graphicsFlags).

Definition padTo (n : nat) (bs : list byte) : list byte :=
  bs ++ repeat 0 (n - length bs).

(* E1: names "\0root\0\0\0\0hi\0..", so that offset 0 is "" and offset 9 is "hi" *)
Definition E1_names : list byte :=
  [0] ++ bytes_of_string "root" ++ [0; 0; 0; 0] ++ bytes_of_string "hi" ++ [0; 0; 0; 0; 0].

Definition E1_entries (ident : Z) : list byte :=
  directoryRecord 0 1 1 ident ++ binaryRecord 9 5 1 0 0.

Definition E1_with_ident (ident : Z) : list byte :=
  padTo 512 (header 2 16 0 ++ E1_entries ident ++ E1_names)
  ++ bytes_of_string "HELLO".

Definition E1 : list byte := E1_with_ident 0x7FFFFF00.
Definition E2 : list byte := E1_with_ident 0x7FFFFF01.

Definition diskOf (p : string) (content : list byte) : gmap string (list byte) :=
  {[ p := content ]}.

(* an archive cut after its table of contents: the payload block is missing *)
Definition truncatedArchive : list Z := header 1 0 0 ++ binaryRecord 0 5 1 0 0.

(* "hello world" as zlib.deflateSync stores it at level 0 (22 bytes), and as
   a raw deflate stream (13 bytes) *)
Definition helloZlib : list Z :=
  [120; 1; 1; 11; 0; 244; 255] ++ bytes_of_string "hello world" ++ [26; 11; 4; 93].
Definition helloRawDeflate : list Z :=
  [203; 72; 205; 201; 201; 87; 40; 207; 47; 202; 73; 1; 0].

(* one binary entry "" with the payload in block 1 *)
Definition oneFileArchive (fileSize uncompressedSize : Z) (payload : list Z) : list Z :=
  padTo 512 (header 1 0 0 ++ binaryRecord 0 fileSize 1 uncompressedSize 0) ++ payload.

(* a small archive: its only entry is the binary file "a.rpf", whose payload
   block lies beyond the end of the file *)
Definition flatArchive : list Z :=
  header 1 6 0 ++ binaryRecord 0 0 1 0 0 ++ bytes_of_string "a.rpf" ++ [0].

End Scenario.

(** * Specification-side definitions *)

Module Spec.

(* x[lo..hi) of the record layout *)
Definition bits (x lo hi : Z) : Z := (x / 2 ^ lo) mod 2 ^ (hi - lo).

(* the size formula of a resource entry, over unsigned flag words *)
Definition resourceSize (sysflags gfxflags : Z) : Z :=
  let base := if bits sysflags 27 28 =? 1 then 16 else 0 in
  let vmem := bits sysflags 0 11 * 2 ^ bits sysflags 11 15 in
  let pmem := bits sysflags 15 22 * 2 ^ bits sysflags 25 29 in
  let vgfx := bits gfxflags 0 11 * 2 ^ bits gfxflags 11 15 in
  let pgfx := bits gfxflags 15 22 * 2 ^ bits gfxflags 25 29 in
  base + vmem + pmem + vgfx + pgfx.



End Spec.

(** ** Notions of the statements: the pipeline, the links of the hierarchy,
    nested archives, views of the manager *)

Module Pipeline.

(* step 4 of the pipeline inflates exactly when this holds *)
Definition isCompressed (f : Rpf.FileFields) : bool :=
  (0 <? Rpf.fileUncompressedSize f)
  && negb (Rpf.fileUncompressedSize f =? Rpf.fileSize f).

(* the byte of a file at a position, zero from the end of the file on *)
Definition byteAt (file : list Z) (pos : nat) : Z :=
  match file !! pos with Some b => b | None => 0 end.

(* the [size] bytes that a file holds from [pos] on, zeros standing for the
   bytes that the file does not have *)
Definition stored (file : list Z) (pos size : Z) : list Z :=
  map (fun i => byteAt file (Z.to_nat pos + i)) (seq 0 (Z.to_nat size)).

(* step 3 of the pipeline: the bytes of an entry that is flagged encrypted are
   decrypted as the archive is encrypted, AES before NG *)
Definition decrypted (rpf : Rpf.RpfFile) (e : Rpf.RpfEntry) (f : Rpf.FileFields)
    (bytes : list Z) : list Z :=
  if negb (Rpf.isEncrypted f) then bytes
  else if Rpf.isAESEncrypted rpf then GTACrypto.decryptAES bytes
  else if Rpf.isNGEncrypted rpf
       then GTACrypto.decryptNG bytes (Rpf.name e) (Rpf.fileUncompressedSize f)
       else bytes.

End Pipeline.

(* the part of an entry that buildHierarchy, updatePaths and scanNestedRpfs
   leave alone, what a directory claims, and the links after each stage *)
Module Hierarchy.

Import Rpf.

Inductive StaticClass : Type :=
| SDirectory (entriesIndex entriesCount : Z)
| SBinary (f : FileFields) (encryptionType : Z)
| SResource (f : FileFields) (systemFlags graphicsFlags : Z).

Definition staticClass (c : EntryClass) : StaticClass :=
  match c with
  | RpfDirectoryEntry d => SDirectory (entriesIndex d) (entriesCount d)
  | RpfBinaryFileEntry f t => SBinary f t
  | RpfResourceFileEntry f s g => SResource f s g
  end.

Record Static : Type := {
  s_nameOffset : Z;
  s_name : string;
  s_nameLower : string;
  s_class : StaticClass }.

Definition static (e : RpfEntry) : Static :=
  {| s_nameOffset := nameOffset e; s_name := name e; s_nameLower := nameLower e;
     s_class := staticClass (cls e) |}.

(* the indices startIdx and count that the loop of buildHierarchy runs over *)
Definition rangeOf (s : Static) : option (nat * nat) :=
  match s_class s with
  | SDirectory i c => Some (Z.to_nat i, Z.to_nat c)
  | _ => None
  end.

Definition isDirS (tbl : list Static) (j : nat) : bool :=
  match tbl !! j with
  | Some s => match s_class s with SDirectory _ _ => true | _ => false end
  | None => false
  end.

(* entry j lies in the range of directory d *)
Definition claims (tbl : list Static) (d j : nat) : bool :=
  match tbl !! d ≫= rangeOf with
  | Some (s, c) => (s <=? j)%nat && (j <? s + c)%nat
  | None => false
  end.

Definition parentAt (es : list RpfEntry) (j : nat) : option nat :=
  match es !! j with Some e => parent e | None => None end.

(* the last directory among d0, .., d0 + n - 1 whose range holds entry j *)
Fixpoint lastClaimant (tbl : list Static) (d0 n : nat) (j : nat) : option nat :=
  match n with
  | O => None
  | S n' =>
      match lastClaimant tbl (S d0) n' j with
      | Some d => Some d
      | None => if claims tbl d0 j then Some d0 else None
      end
  end.

(* a directory with the children that lie in its own range, in array order *)
Definition withChildren (tbl : list Static) (x : DirectoryFields) : DirectoryFields :=
  let range := seq (Z.to_nat (entriesIndex x)) (Z.to_nat (entriesCount x)) in
  {| entriesIndex := entriesIndex x; entriesCount := entriesCount x;
     directories := directories x ++ List.filter (isDirS tbl) range;
     files := files x ++ List.filter (fun k => negb (isDirS tbl k)) range |}.

(* what updatePaths and scanNestedRpfs keep of an entry: everything but
   [path] and [file] *)
Definition skeleton (e : RpfEntry) : Static * option nat * option DirectoryFields :=
  (static e, parent e, dirFields e).

(* what [adopt dir i n] has done when it returns *)
Record adopted (dir i n : nat) (es es' : list RpfEntry) : Prop := {
  adopted_bound : n = 0%nat \/ (i + n <= length es)%nat;
  adopted_length : length es' = length es;
  adopted_static : map static es' = map static es;
  adopted_parent : forall j,
    parentAt es' j = if (i <=? j)%nat && (j <? i + n)%nat then Some dir else parentAt es j;
  adopted_children : forall j,
    directoryAt es' j
    = if decide (j = dir)
      then (fun x =>
              {| entriesIndex := entriesIndex x; entriesCount := entriesCount x;
                 directories := directories x
                                ++ List.filter (isDirS (map static es)) (seq i n);
                 files := files x
                          ++ List.filter (fun k => negb (isDirS (map static es) k)) (seq i n) |})
           <$> directoryAt es j
      else directoryAt es j }.

Record linked (d0 n : nat) (es es' : list RpfEntry) : Prop := {
  linked_length : length es' = length es;
  linked_static : map static es' = map static es;
  linked_bound : forall d s c,
    (d0 <= d < d0 + n)%nat -> map static es !! d ≫= rangeOf = Some (s, c) ->
    c = 0%nat \/ (s + c <= length es)%nat;
  linked_parent : forall j,
    parentAt es' j = match lastClaimant (map static es) d0 n j with
                     | Some d => Some d
                     | None => parentAt es j
                     end;
  linked_children : forall j,
    directoryAt es' j
    = if (d0 <=? j)%nat && (j <? d0 + n)%nat
      then withChildren (map static es) <$> directoryAt es j
      else directoryAt es j }.

(* the stages a successful scanStructure went through *)
Record opened (nested : string -> Z -> result RpfFile) (disk : gmap string (list Z))
    (path nm : string) (pos : Z) (rpf : RpfFile) : Prop := {
  opened_path : filePath rpf = path;
  opened_name : fileName rpf = nm;
  opened_pos : startPos rpf = pos;
  opened_version : version rpf = 0x52504637;
  opened_stages : exists (entriesData namesData : list Z) (es0 es1 es2 : list RpfEntry),
    readEntries entriesData namesData (Z.to_nat (entryCount rpf)) 0 = Ok es0
    /\ linkLoop (length es0) 0 es0 = Ok es1
    /\ root rpf = rootOf es1
    /\ map skeleton es2 = map skeleton es1
    /\ scanNestedRpfs nested es2 (root rpf) = Ok (allEntries rpf, children rpf) }.

End Hierarchy.

Module Nested.

Import Rpf.

(* what [scanStructure depth] calls to open a nested archive *)
Definition nestedAt (depth : nat) (disk : gmap string (list Z)) (path : string)
    : string -> Z -> result RpfFile :=
  match depth with
  | O => fun _ _ => Err RangeError
  | S depth' => fun nm pos => scanStructure depth' disk path nm pos
  end.

(* the child archive that the scanner keeps for entry i, if any *)
Definition tryOpen (nested : string -> Z -> result RpfFile) (es : list RpfEntry)
    (i : nat) : option RpfFile :=
  match es !! i with
  | Some e =>
      match cls e with
      | RpfBinaryFileEntry f _ =>
          match nested (name e) (fileOffset f * 512) with
          | Ok child => Some child
          | Err _ => None
          end
      | _ => None
      end
  | None => None
  end.



(* this.scanNestedRpfs() on an archive object: the loop of scanNestedRpfs
   runs over the entries and the children that the object has, and nested
   archives are opened in the backing file of the object *)
Definition scanNested (depth : nat) (disk : gmap string (list Z)) (rpf : RpfFile)
    : result RpfFile :=
  match root rpf with
  | None => Ok rpf
  | Some r =>
      rpfFiles <-- findRpfFiles (stackFuel (allEntries rpf)) (allEntries rpf) r ;;
      let scanned :=
        fold_left (scanNestedStep (scanStructure depth disk (filePath rpf))) rpfFiles
                  (allEntries rpf, children rpf) in
      Ok (mkRpfFile (filePath rpf) (fileName rpf) (rpfSize rpf) (startPos rpf) (version rpf)
                    (encryption rpf) (entryCount rpf) (namesLength rpf)
                    (isAESEncrypted rpf) (isNGEncrypted rpf)
                    (fst scanned) (root rpf) (snd scanned))
  end.



End Nested.

Module Header.

(* the 32-bit little-endian word of a file at a position; bytes past the end
   of the file count as zero *)
Definition wordAt (file : list Z) (pos : nat) : Z :=
  le_decode (map (fun i => Pipeline.byteAt file (pos + i)) (seq 0 4)).

Definition smallDisk (disk : gmap string (list Z)) : Prop :=
  forall p content ec,
    disk !! p = Some content ->
    (headerBuffer <-- readSync content 16 0 ;; getUint32 headerBuffer 4) = Ok ec ->
    ec < 0x7FFFFF00.

End Header.

Module Paths.

(* relativePath.replace(/\\/g, '/') of scanForRpfFiles *)
Definition forwardSlash (c : ascii) : ascii :=
  if Ascii.eqb c "\"%char then "/"%char else c.

Fixpoint forwardSlashes (s : string) : string :=
  match s with
  | EmptyString => EmptyString
  | String c rest => String (forwardSlash c) (forwardSlashes rest)
  end.

End Paths.

Module ManagerViews.

Import Rpf RpfManager.

(* the objects that buildTree returns *)
#[warnings="-register-all"]
Inductive TreeNode : Type :=
| DirectoryNode (name : string) (children : list TreeNode)
| FileNode (name : string) (size : Z) (encrypted : bool).


(* dir.name || '/' *)
Definition nameOrSlash (nm : string) : string :=
  if String.eqb nm "" then "/" else nm.

(* { name: file.name, type: 'file', size: file.fileSize, encrypted: file.isEncrypted };
   the lists [files] hold file entries only *)
Definition fileNode (es : list RpfEntry) (i : nat) : TreeNode :=
  match es !! i ≫= fileFields with
  | Some f => FileNode (nameAt es i) (fileSize f) (isEncrypted f)
  | None => FileNode (nameAt es i) 0 false
  end.

(* buildTree(dir, depth, maxDepth), with [levels] for maxDepth - depth: the
   recursion stops when depth >= maxDepth *)
Fixpoint buildTree (es : list RpfEntry) (levels : nat) (dir : nat) : TreeNode :=
  match levels with
  | O => DirectoryNode (nameOrSlash (nameAt es dir)) []
  | S levels' =>
      DirectoryNode (nameOrSlash (nameAt es dir))
        (map (buildTree es levels') (directoriesAt es dir)
         ++ map (fileNode es) (filesAt es dir))
  end.

Definition getDirectoryTree (rpfFiles : gmap string RpfFile)
    (rpfPath directoryPath : string) (maxDepth : Z) : option TreeNode :=
  match rpfFiles !! rpfPath with
  | None => None
  | Some rpf =>
      match root rpf with
      | None => None
      | Some r =>
          let targetDir :=
            if isRootPath directoryPath then Some r else findEntry rpf directoryPath in
          match targetDir with
          | None => None
          | Some t =>
              match directoryAt (allEntries rpf) t with
              | None => None
              | Some _ => Some (buildTree (allEntries rpf) (Z.to_nat maxDepth) t)
              end
          end
      end
  end.


(* the object that getFileInfo returns *)
Record FileInfo : Type := {
  info_name : string;
  info_path : string;
  info_type : string;
  info_size : Z;
  info_compressedSize : Z;
  info_encrypted : bool;
  info_rpfPath : string }.

Definition getFileInfo (rpfFiles : gmap string RpfFile) (rpfPath filePath : string)
    : option FileInfo :=
  match rpfFiles !! rpfPath with
  | None => None
  | Some rpf =>
      match findEntry rpf filePath ≫= (fun i => allEntries rpf !! i) with
      | None => None
      | Some entry =>
          Some match fileFields entry with
               | None =>
                   {| info_name := name entry; info_path := path entry;
                      info_type := "directory"; info_size := 0;
                      info_compressedSize := 0; info_encrypted := false;
                      info_rpfPath := rpfPath |}
               | Some f =>
                   {| info_name := name entry; info_path := path entry;
                      info_type := "file"; info_size := fileSize f;
                      info_compressedSize := fileUncompressedSize f;
                      info_encrypted := isEncrypted f;
                      info_rpfPath := rpfPath |}
               end
      end
  end.

End ManagerViews.

Module FsWalk.

(* What the walk sees of the file system: a Dirent is a regular file, a
   directory (whose listing readdirSync returns, or refuses with an exception)
   or something else. *)
#[warnings="-register-all"]
Inductive FsNode : Type :=
| FsFile
| FsDirectory (listing : option (list (string * FsNode)))
| FsOther.

(* path.join(dirPath, entry.name), for a normalized dirPath and the name of a
   directory entry *)
Definition join (dirPath name : string) : string := (dirPath ++ "/" ++ name)%string.

(* !entry.name.startsWith('.') && entry.name !== 'node_modules' *)
Definition visited (name : string) : bool :=
  negb (is_prefix "." name) && negb (String.eqb name "node_modules").

(* private findRpfFiles(dirPath): the listing of [node] is read at dirPath *)
Fixpoint findRpfFiles (dirPath : string) (node : FsNode) {struct node} : list string :=
  match node with
  | FsDirectory (Some listing) =>
      (fix each (entries : list (string * FsNode)) : list string :=
         match entries with
         | [] => []
         | (name, child) :: entries' =>
             match child with
             | FsDirectory _ =>
                 if visited name then findRpfFiles (join dirPath name) child ++ each entries'
                 else each entries'
             | FsFile =>
                 if endsWith (toLowerCase name) ".rpf"
                 then join dirPath name :: each entries'
                 else each entries'
             | FsOther => each entries'
             end
         end) listing
  | _ => []
  end.

(* the files that the walk is meant to reach from a directory *)
Inductive reaches : string -> FsNode -> string -> Prop :=
| reaches_file (dirPath name : string) (listing : list (string * FsNode)) :
    In (name, FsFile) listing ->
    endsWith (toLowerCase name) ".rpf" = true ->
    reaches dirPath (FsDirectory (Some listing)) (join dirPath name)
| reaches_below (dirPath name : string) (listing : list (string * FsNode))
    (sub : option (list (string * FsNode))) (p : string) :
    In (name, FsDirectory sub) listing ->
    visited name = true ->
    reaches (join dirPath name) (FsDirectory sub) p ->
    reaches dirPath (FsDirectory (Some listing)) p.

End FsWalk.

Module Images.

Import Rpf Scenario.

(* an archive file: the header, the entries table and the names table as they
   are stored *)
Definition image (entryCount encryption : Z) (entries names : list Z) : list Z :=
  header entryCount (Z.of_nat (length names)) encryption ++ entries ++ names.

(* an archive object with another size of its backing file *)
Definition withSize (size : Z) (rpf : RpfFile) : RpfFile :=
  mkRpfFile (filePath rpf) (fileName rpf) size (startPos rpf) (version rpf)
            (encryption rpf) (entryCount rpf) (namesLength rpf)
            (isAESEncrypted rpf) (isNGEncrypted rpf)
            (allEntries rpf) (root rpf) (children rpf).

(* two results of open that agree on what they hold *)
Definition alike (a b : result RpfFile) : Prop :=
  match a, b with
  | Ok x, Ok y => allEntries y = allEntries x /\ root y = root x /\ children y = children x
  | Err e1, Err e2 => e1 = e2
  | _, _ => False
  end.

End Images.

(** ** Facts about the block cipher are stated with these *)

Module AesFacts.

(* the 256 byte values *)
Definition bytes256 : list Z := map Z.of_nat (seq 0 256).

(* a state or a round key: sixteen bytes *)
Definition Good (s : list Z) : Prop := length s = 16%nat /\ Forall is_byte s.

(* InvSubBytes after InvShiftRows *)
Definition unsub (s : list Z) : list Z := map Aes.inv_sbox (Aes.invShiftRows s).

(* SubBytes followed by ShiftRows *)
Definition sub (s : list Z) : list Z := Aes.shiftRows (map Aes.sbox s).

(* the sum of four products of a byte, as a row of a product of two column
   matrices has them *)
Definition comp (n0 m0 n1 m1 n2 m2 n3 m3 x : Z) : Z :=
  Z.lxor (Z.lxor (Aes.gmul (Aes.gmul x n0) m0) (Aes.gmul (Aes.gmul x n1) m1))
         (Z.lxor (Aes.gmul (Aes.gmul x n2) m2) (Aes.gmul (Aes.gmul x n3) m3)).

(* the constants of MixColumns and InvMixColumns *)
Definition mixConstant (m : Z) : Prop :=
  m = 1 \/ m = 2 \/ m = 3 \/ m = 9 \/ m = 11 \/ m = 13 \/ m = 14.

(* ECB with the tail passed through: every full block of sixteen bytes goes
   through the cipher, what is left at the end is kept *)
Fixpoint ecb (cipher : list Z -> list Z) (fuel : nat) (data : list Z) : list Z :=
  match fuel with
  | O => data
  | S fuel' =>
      if (length data <? 16)%nat then data
      else cipher (take 16 data) ++ ecb cipher fuel' (drop 16 data)
  end.

End AesFacts.

(** ** More archives and archive objects for the examples *)

Module NestScenario.

Import Rpf Scenario.

(* an archive without entries *)
Definition emptyArchive : list Z := header 0 0 0.

(* A file of three blocks of 512 bytes.  Block 0 holds the archive whose one
   entry, the binary file "a.rpf", has block 1 for payload; block 1 holds an
   archive without entries; block 2 holds no archive. *)
Definition nestFile : list Z :=
  padTo 512 flatArchive ++ padTo 512 emptyArchive ++ repeat 7 512.

Definition nestDisk : gmap string (list Z) := diskOf "p.rpf" nestFile.

Definition handEntry (nm : string) (c : EntryClass) : RpfEntry :=
  {| nameOffset := 0; name := nm; nameLower := toLowerCase nm; path := "";
     parent := None; file := OwnThis; cls := c |}.

Definition handDirectory (nm : string) (ds fs : list nat) : RpfEntry :=
  handEntry nm (RpfDirectoryEntry {| entriesIndex := 0; entriesCount := IDENT;
                                     directories := ds; files := fs |}).

Definition handBinary (nm : string) (block : Z) : RpfEntry :=
  handEntry nm (RpfBinaryFileEntry {| fileOffset := block; fileSize := 0;
                                      fileUncompressedSize := 0; isEncrypted := false |} 0).

Definition handResource (nm : string) (block : Z) : RpfEntry :=
  handEntry nm (RpfResourceFileEntry {| fileOffset := block; fileSize := 0;
                                        fileUncompressedSize := 0; isEncrypted := false |}
                                     0x80000000 0).

(* An archive object over that file, put together by hand, that starts at
   byte [start].  Its root lists the directory "sub" and the files "x.rpf" (a
   resource entry), "y.rpf" (block 2) and "notes.txt"; "sub" lists the file
   "Z.RPF" (block 1). *)
Definition handParent (start : Z) : RpfFile :=
  mkRpfFile "p.rpf" "p.rpf" 1536 start 0x52504637 0 6 0 false false
            [handDirectory "" [1%nat] [2; 3; 5]%nat; handDirectory "sub" [] [4%nat];
             handResource "x.rpf" 1; handBinary "y.rpf" 2; handBinary "Z.RPF" 1;
             handBinary "notes.txt" 1]
            (Some 0%nat) [].

End NestScenario.

Module TreeScenario.

Import Rpf.

(* entries as parseEntries pushes them: no parent, no children, no path *)
Definition freshEntry (nm : string) (c : EntryClass) : RpfEntry :=
  {| nameOffset := 0; name := nm; nameLower := toLowerCase nm; path := "";
     parent := None; file := OwnThis; cls := c |}.

Definition freshDirectory (nm : string) (index count : Z) : RpfEntry :=
  freshEntry nm (RpfDirectoryEntry {| entriesIndex := index; entriesCount := count;
                                      directories := []; files := [] |}).

Definition freshFile (nm : string) : RpfEntry :=
  freshEntry nm (RpfBinaryFileEntry {| fileOffset := 1; fileSize := 0;
                                       fileUncompressedSize := 0; isEncrypted := false |} 0).

(* a table put together by hand: the root with the range [1, 4), the
   directory "sub" with the range [4, 5) and three files *)
Definition handTable : list RpfEntry :=
  [freshDirectory "" 1 3; freshDirectory "sub" 4 1; freshFile "a.txt";
   freshFile "B.rpf"; freshFile "c.rpf"].

(* the same table with a second directory over the range [2, 4) *)
Definition overlapTable : list RpfEntry :=
  [freshDirectory "" 1 3; freshDirectory "sub" 2 2; freshFile "a.txt"; freshFile "B.rpf"].

End TreeScenario.

Module PipelineScenario.

Import Rpf.

Definition secretPayload : list Z := map Z.of_nat (seq 1 20).

(* an entry of twenty stored bytes in block 1, flagged encrypted *)
Definition secretFields : FileFields :=
  {| fileOffset := 1; fileSize := 20; fileUncompressedSize := 0; isEncrypted := true |}.

Definition secretEntry : RpfEntry :=
  {| nameOffset := 0; name := "Secret.DAT"; nameLower := "secret.dat"; path := "";
     parent := None; file := OwnThis; cls := RpfBinaryFileEntry secretFields 1 |}.

(* an archive object whose header had the AES encryption word *)
Definition aesArchive : RpfFile :=
  mkRpfFile "s.rpf" "s.rpf" 532 0 0x52504637 RpfEncryption.AES 1 11 true false
            [secretEntry] None [].

Definition aesDisk : gmap string (list Z) :=
  {[ "s.rpf" := repeat 0 512 ++ GTACrypto.encryptAES secretPayload ]}.

End PipelineScenario.

Module LookupScenario.

Import Rpf.

(* an archive object with a root that lists the directory "data" and the
   files "data" and "x.rpf" *)
Definition handArchive : RpfFile :=
  let dir nm idx fs ds :=
    {| nameOffset := 0; name := nm; nameLower := toLowerCase nm; path := "";
       parent := None; file := OwnThis;
       cls := RpfDirectoryEntry {| entriesIndex := idx; entriesCount := IDENT;
                                   directories := ds; files := fs |} |} in
  let fil nm :=
    {| nameOffset := 0; name := nm; nameLower := toLowerCase nm; path := nm;
       parent := Some 0%nat; file := OwnThis;
       cls := RpfBinaryFileEntry {| fileOffset := 1; fileSize := 0;
                                    fileUncompressedSize := 0; isEncrypted := false |} 0 |} in
  mkRpfFile "h.rpf" "h.rpf" 0 0 0x52504637 0 4 0 false false
            [dir "" 1 [2; 3]%nat [1%nat]; dir "Data" 4 [] []; fil "data"; fil "X.rpf"]
            (Some 0%nat) [].

End LookupScenario.

(** * Arithmetic of the 32-bit operators *)

Section JsArith.

Import Spec.

Lemma toInt32_small x : - 2 ^ 31 <= x < 2 ^ 31 -> JS.toInt32 x = x.
Proof.
  intros H. unfold JS.toInt32.
  destruct (Z.leb_spec 0 x).
  - rewrite Z.mod_small by lia. destruct (Z.ltb_spec x (2 ^ 31)); lia.
  - replace (x mod 2 ^ 32) with (x + 2 ^ 32).
    + destruct (Z.ltb_spec (x + 2 ^ 32) (2 ^ 31)); lia.
    + apply Z.mod_unique with (q := -1); lia.
Qed.

Lemma toInt32_congr x : exists k, JS.toInt32 x = x + k * 2 ^ 32.
Proof.
  unfold JS.toInt32. pose proof (Z.div_mod x (2 ^ 32) ltac:(lia)) as E.
  destruct (_ <? _).
  - exists (- (x / 2 ^ 32)). lia.
  - exists (- (x / 2 ^ 32) - 1). lia.
Qed.

Lemma bits_bound x lo hi : 0 <= lo <= hi -> 0 <= bits x lo hi < 2 ^ (hi - lo).
Proof. intros H. unfold bits. apply Z.mod_pos_bound. apply Z.pow_pos_nonneg; lia. Qed.

(* a slice below bit 32 does not see the wrap-around *)
Lemma bits_toInt32 x lo hi : 0 <= lo <= hi -> hi <= 32 ->
  bits (JS.toInt32 x) lo hi = bits x lo hi.
Proof.
  intros H1 H2. destruct (toInt32_congr x) as [k ->]. unfold bits.
  replace (2 ^ 32) with (2 ^ (32 - lo) * 2 ^ lo)
    by (rewrite <- Z.pow_add_r by lia; f_equal; lia).
  rewrite Z.mul_assoc, Z.div_add by (apply Z.pow_nonzero; lia).
  replace (2 ^ (32 - lo)) with (2 ^ (32 - hi) * 2 ^ (hi - lo))
    by (rewrite <- Z.pow_add_r by lia; f_equal; lia).
  rewrite Z.mul_assoc, Z.mod_add by (apply Z.pow_nonzero; lia).
  reflexivity.
Qed.

Lemma land_shiftr_bits x lo w : 0 <= lo -> 0 <= w ->
  Z.land (Z.shiftr x lo) (Z.ones w) = bits x lo (lo + w).
Proof.
  intros H1 H2. unfold bits. rewrite Z.land_ones, Z.shiftr_div_pow2 by lia.
  do 2 f_equal. lia.
Qed.

Lemma bits_0 x w : bits x 0 w = x mod 2 ^ w.
Proof. unfold bits. rewrite Z.sub_0_r. change (2 ^ 0) with 1. now rewrite Z.div_1_r. Qed.

Lemma ones_int32 w : 0 <= w < 32 -> JS.toInt32 (Z.ones w) = Z.ones w.
Proof.
  intros H. apply toInt32_small. rewrite Z.ones_equiv.
  pose proof (Z.pow_pos_nonneg 2 w). pose proof (Z.pow_le_mono_r 2 w 31). lia.
Qed.

(* x & (2^w - 1) *)
Lemma js_and_ones x w : 0 <= w < 32 -> JS.and x (Z.ones w) = bits x 0 w.
Proof.
  intros H. unfold JS.and. rewrite ones_int32, Z.land_ones by lia.
  rewrite <- (bits_toInt32 x 0 w) by lia. now rewrite bits_0.
Qed.

(* (x >> lo) & (2^w - 1), for a slice inside the 32 bits *)
Lemma js_slice x lo w : 0 <= lo < 32 -> 0 <= w < 32 -> lo + w <= 32 ->
  JS.and (JS.sar x lo) (Z.ones w) = bits x lo (lo + w).
Proof.
  intros H1 H2 H3. rewrite js_and_ones by lia. unfold JS.sar, JS.toUint32.
  rewrite (Z.mod_small lo (2 ^ 32)) by lia. rewrite (Z.mod_small lo 32) by lia.
  rewrite bits_0, Z.shiftr_div_pow2 by lia.
  rewrite <- (bits_toInt32 x lo (lo + w)) by lia. unfold bits.
  do 2 f_equal. lia.
Qed.

(* a << s without overflow *)
Lemma js_shl_small a s : 0 <= s < 32 -> 0 <= a -> a * 2 ^ s < 2 ^ 31 ->
  JS.shl a s = a * 2 ^ s.
Proof.
  intros H1 H2 H3. unfold JS.shl, JS.toUint32.
  rewrite (Z.mod_small s (2 ^ 32)) by lia. rewrite (Z.mod_small s 32) by lia.
  assert (0 < 2 ^ s) by (apply Z.pow_pos_nonneg; lia).
  rewrite (toInt32_small a) by nia.
  rewrite Z.shiftl_mul_pow2 by lia. apply toInt32_small. nia.
Qed.

Lemma getResourceSize_spec sys gfx :
  Rpf.getResourceSize sys gfx = resourceSize sys gfx.
Proof.
  unfold Rpf.getResourceSize, resourceSize.
  assert (M : forall x lo w hi m, m = Z.ones w -> hi = lo + w ->
              0 <= lo < 32 -> 0 <= w < 32 -> lo + w <= 32 ->
              JS.and (JS.sar x lo) m = bits x lo hi)
    by (intros; subst; now apply js_slice).
  assert (A : forall x, JS.and x 0x7FF = bits x 0 11) by (intros; now apply (js_and_ones x 11)).
  rewrite (M sys 27 1 28), (M sys 11 4 15), (M sys 15 7 22), (M sys 25 4 29),
          (M gfx 11 4 15), (M gfx 15 7 22), (M gfx 25 4 29), !A by (reflexivity || lia).
  assert (S : forall a s, 0 <= a < 2048 -> 0 <= s < 16 -> JS.shl a s = a * 2 ^ s).
  { intros a s Ha Hs. apply js_shl_small; [lia | lia |].
    assert (2 ^ s <= 2 ^ 15) by (apply Z.pow_le_mono_r; lia).
    assert (0 < 2 ^ s) by (apply Z.pow_pos_nonneg; lia). nia. }
  assert (0 <= bits sys 0 11 < 2048) by (apply (bits_bound sys 0 11); lia).
  assert (0 <= bits gfx 0 11 < 2048) by (apply (bits_bound gfx 0 11); lia).
  assert (0 <= bits sys 15 22 < 128) by (apply (bits_bound sys 15 22); lia).
  assert (0 <= bits gfx 15 22 < 128) by (apply (bits_bound gfx 15 22); lia).
  assert (0 <= bits sys 11 15 < 16) by (apply (bits_bound sys 11 15); lia).
  assert (0 <= bits gfx 11 15 < 16) by (apply (bits_bound gfx 11 15); lia).
  assert (0 <= bits sys 25 29 < 16) by (apply (bits_bound sys 25 29); lia).
  assert (0 <= bits gfx 25 29 < 16) by (apply (bits_bound gfx 25 29); lia).
  assert (0 <= bits sys 27 28 < 2) by (apply (bits_bound sys 27 28); lia).
  rewrite !S by lia.
  destruct (Z.eqb_spec (bits sys 27 28) 0) as [E | E];
    destruct (Z.eqb_spec (bits sys 27 28) 1) as [E' | E']; simpl negb; cbv iota;
    try reflexivity; lia.
Qed.

End JsArith.

(** * Buffers and DataView reads *)

Section Buffers.

Import Spec.

Lemma subarray_length (data : Buffer) (start len : nat) :
  (start + len <= length data)%nat -> length (subarray data start len) = len.
Proof. intros H. unfold subarray. rewrite length_take, length_drop. lia. Qed.

Lemma subarray_is_byte (data : Buffer) (start len : nat) :
  Forall is_byte data -> Forall is_byte (subarray data start len).
Proof. intros H. unfold subarray. now apply Forall_take, Forall_drop. Qed.

Lemma le_decode_app (a b : list byte) :
  le_decode (a ++ b) = le_decode a + 2 ^ (8 * Z.of_nat (length a)) * le_decode b.
Proof.
  induction a as [| x a IH]; cbn [le_decode app length].
  - change (2 ^ (8 * Z.of_nat 0)) with 1. lia.
  - rewrite IH, Nat2Z.inj_succ.
    replace (8 * Z.succ (Z.of_nat (length a))) with (8 + 8 * Z.of_nat (length a)) by lia.
    rewrite Z.pow_add_r by lia. change (2 ^ 8) with 256. ring.
Qed.

Lemma le_decode_bound (l : list byte) :
  Forall is_byte l -> 0 <= le_decode l < 2 ^ (8 * Z.of_nat (length l)).
Proof.
  induction 1 as [| x l Hx Hl IH]; cbn [le_decode length].
  - change (2 ^ (8 * Z.of_nat 0)) with 1. lia.
  - rewrite Nat2Z.inj_succ.
    replace (8 * Z.succ (Z.of_nat (length l))) with (8 + 8 * Z.of_nat (length l)) by lia.
    rewrite Z.pow_add_r by lia. change (2 ^ 8) with 256. unfold is_byte in Hx. lia.
Qed.

(* the low [n] bytes of a little-endian word *)
Lemma le_decode_take (n : nat) (l : list byte) :
  Forall is_byte l -> le_decode (take n l) = le_decode l mod 2 ^ (8 * Z.of_nat (length (take n l))).
Proof.
  intros H. rewrite <- (take_drop n l) at 2. rewrite le_decode_app.
  pose proof (le_decode_bound (take n l) (Forall_take _ _ _ H)).
  rewrite (Z.mul_comm (2 ^ _)), Z.mod_add by lia. now rewrite Z.mod_small.
Qed.

Lemma le_decode_drop (n : nat) (l : list byte) :
  Forall is_byte l -> le_decode (drop n l) = le_decode l / 2 ^ (8 * Z.of_nat (length (take n l))).
Proof.
  intros H. rewrite <- (take_drop n l) at 2. rewrite le_decode_app.
  pose proof (le_decode_bound (take n l) (Forall_take _ _ _ H)).
  rewrite (Z.mul_comm (2 ^ _)), Z.div_add by lia.
  rewrite (Z.div_small (le_decode (take n l))); lia.
Qed.

Lemma getUint_ok (w : nat) (data : Buffer) (offset : Z) :
  0 <= offset -> offset + Z.of_nat w <= Z.of_nat (length data) ->
  getUint w data offset = Ok (le_decode (subarray data (Z.to_nat offset) w)).
Proof.
  intros H1 H2. unfold getUint.
  destruct (Z.leb_spec 0 offset); [| lia].
  destruct (Z.leb_spec (offset + Z.of_nat w) (Z.of_nat (length data))); [| lia].
  reflexivity.
Qed.

Lemma bytes_ok (l : list Z) :
  forallb (fun b => (0 <=? b) && (b <? 256)) l = true -> Forall is_byte l.
Proof.
  induction l as [| b l IH]; intros H; constructor.
  - cbn [forallb] in H. apply andb_true_iff in H as [H _].
    apply andb_true_iff in H as [H1 H2]. unfold is_byte. lia.
  - apply IH. cbn [forallb] in H. now apply andb_true_iff in H as [_ H].
Qed.

End Buffers.

(** * crypto.ts: the NG keyed XOR *)

Section NG.

Import GTACrypto.


Lemma digest_is_byte (msg : list Z) : Forall is_byte (Sha256.digest msg).
Proof.
  unfold Sha256.digest.
  destruct (Sha256.chunks _ _ _) as [[[[[[[a b] c] d] e] f] g] h].
  unfold Sha256.be4. cbn [app].
  repeat constructor; unfold is_byte; apply Z.mod_pos_bound; lia.
Qed.

(* Buffer.from([size & 0xFF, (size >> 8) & 0xFF, ...]) is the 32-bit size,
   least significant byte first *)
Lemma size_bytes (size : Z) :
  [JS.and size 0xFF; JS.and (JS.sar size 8) 0xFF;
   JS.and (JS.sar size 16) 0xFF; JS.and (JS.sar size 24) 0xFF]
  = le_bytes 4 size.
Proof.
  change 0xFF with (Z.ones 8).
  rewrite (js_and_ones size 8), (js_slice size 8 8), (js_slice size 16 8),
          (js_slice size 24 8) by lia.
  cbn [le_bytes]. unfold Spec.bits. change (2 ^ 0) with 1. rewrite Z.div_1_r.
  rewrite !Z.div_div by lia. reflexivity.
Qed.

Lemma generateNGKey_spec (name : string) (size : Z) :
  generateNGKey name size
  = Sha256.digest (bytes_of_string (toLowerCase name) ++ le_bytes 4 size).
Proof. unfold generateNGKey. now rewrite size_bytes. Qed.

Lemma lxor_is_byte (a b : Z) : is_byte a -> is_byte b -> is_byte (Z.lxor a b).
Proof.
  unfold is_byte. intros Ha Hb.
  assert (N : 0 <= Z.lxor a b) by (apply Z.lxor_nonneg; lia).
  split; [exact N |].
  destruct (Z.eq_dec (Z.lxor a b) 0) as [-> | Hz]; [lia |].
  apply (Z.log2_lt_pow2 _ 8); [lia |].
  eapply Z.le_lt_trans; [apply Z.log2_lxor; lia |].
  apply Z.max_lub_lt.
  - destruct (Z.eq_dec a 0) as [-> | ?]; [reflexivity | apply Z.log2_lt_pow2; lia].
  - destruct (Z.eq_dec b 0) as [-> | ?]; [reflexivity | apply Z.log2_lt_pow2; lia].
Qed.

(* data[i] ^ key[j], stored in a Buffer *)
Lemma xor_store (d k : Z) : is_byte d -> is_byte k -> toUint8 (JS.xor d k) = Z.lxor d k.
Proof.
  intros Hd Hk. unfold toUint8, JS.xor.
  rewrite !toInt32_small by (unfold is_byte in *; lia).
  apply Z.mod_small. now apply lxor_is_byte.
Qed.

Lemma key_at_is_byte (key : list Z) (j : nat) : Forall is_byte key -> is_byte (nth j key 0).
Proof.
  intros H. destruct (Nat.lt_ge_cases j (length key)) as [L | L].
  - apply Forall_nth; assumption.
  - rewrite nth_overflow by lia. unfold is_byte. lia.
Qed.

Lemma xorLoop_length (key data : list Z) (i : Z) :
  length (xorLoop key i data) = length data.
Proof. revert i. induction data as [| d data IH]; intros i; cbn; [| rewrite IH]; reflexivity. Qed.


Lemma xorLoop_involutive (key data : list Z) (i : Z) :
  Forall is_byte key -> Forall is_byte data ->
  xorLoop key i (xorLoop key i data) = data.
Proof.
  intros Hk Hd. revert i. induction Hd as [| x data Hx Hd IH]; intros i; cbn [xorLoop].
  - reflexivity.
  - rewrite IH. f_equal.
    pose proof (key_at_is_byte key (Z.to_nat (i mod Z.of_nat (length key))) Hk) as Hb.
    rewrite (xor_store x) by assumption.
    rewrite xor_store by (assumption || now apply lxor_is_byte).
    now rewrite Z.lxor_assoc, Z.lxor_nilpotent, Z.lxor_0_r.
Qed.

End NG.

(** * crypto.ts: the AES loop *)

Section AesLoop.

Import GTACrypto.

Lemma copyInto_length (source target : list Z) (k : nat) :
  length (copyInto source target k) = length target.
Proof. unfold copyInto. rewrite !length_app, !length_take, length_drop. lia. Qed.

Lemma aesStep_length (cipher : list Z -> list Z) (data : list Z) (i : Z) (out : list Z) :
  length (aesStep cipher data i out) = length out.
Proof. unfold aesStep. destruct (_ =? _); apply copyInto_length. Qed.

Lemma aesLoop_length (cipher : list Z -> list Z) (data : list Z) (n : nat) (i : Z)
    (out : list Z) :
  length (aesLoop cipher data n i out) = length out.
Proof.
  revert i out. induction n as [| n IH]; intros i out; cbn [aesLoop].
  - reflexivity.
  - now rewrite IH, aesStep_length.
Qed.

Lemma alloc_length (n : nat) : length (alloc (Z.of_nat n)) = n.
Proof. unfold alloc. now rewrite repeat_length, Nat2Z.id. Qed.

Lemma decryptAES_length (data : list Z) : length (decryptAES data) = length data.
Proof. unfold decryptAES. now rewrite aesLoop_length, alloc_length. Qed.

Lemma encryptAES_length (data : list Z) : length (encryptAES data) = length data.
Proof. unfold encryptAES. now rewrite aesLoop_length, alloc_length. Qed.

(* data.length + 15 >> 4 is negative from 2^31 - 15 bytes on *)
Lemma rounds_wrap (data : list Z) :
  2 ^ 31 <= Z.of_nat (length data) + 15 < 2 ^ 32 -> rounds data < 0.
Proof.
  intros H. unfold rounds, JS.sar, JS.toUint32. change (4 mod 2 ^ 32 mod 32) with 4.
  replace (JS.toInt32 (Z.of_nat (length data) + 15))
    with (Z.of_nat (length data) + 15 - 2 ^ 32).
  - rewrite Z.shiftr_div_pow2 by lia. apply Z.div_lt_upper_bound; lia.
  - unfold JS.toInt32. rewrite Z.mod_small by lia.
    destruct (Z.ltb_spec (Z.of_nat (length data) + 15) (2 ^ 31)); lia.
Qed.

Lemma decryptAES_wrap (data : list Z) :
  2 ^ 31 <= Z.of_nat (length data) + 15 < 2 ^ 32 ->
  decryptAES data = repeat 0 (length data).
Proof.
  intros H. unfold decryptAES. pose proof (rounds_wrap data H) as R.
  replace (Z.to_nat (rounds data)) with 0%nat by lia.
  unfold alloc. now rewrite Nat2Z.id.
Qed.

Lemma encryptAES_wrap (data : list Z) :
  2 ^ 31 <= Z.of_nat (length data) + 15 < 2 ^ 32 ->
  encryptAES data = repeat 0 (length data).
Proof.
  intros H. unfold encryptAES. pose proof (rounds_wrap data H) as R.
  replace (Z.to_nat (rounds data)) with 0%nat by lia.
  unfold alloc. now rewrite Nat2Z.id.
Qed.

(** C7 (the code departs from it). For a buffer of 2^31 - 15 bytes the round
    count "data.length + 15 >> 4" wraps to a negative 32-bit integer: the loop
    does not run, and decryptAES and encryptAES return the zero-filled buffer
    they allocated, so no block is processed, no tail is copied and
    encrypt(decrypt(buf)) is not buf. *)
Theorem decryptAES_skips_large_buffer :
  let n := Z.to_nat 2147483633 in
  decryptAES (repeat 1 n) = repeat 0 n
  /\ encryptAES (decryptAES (repeat 1 n)) = repeat 0 n
  /\ encryptAES (decryptAES (repeat 1 n)) <> repeat 1 n.
Proof.
  intros n.
  assert (Hn : Z.of_nat n = 2147483633) by (apply Z2Nat.id; lia).
  clearbody n.
  assert (D : decryptAES (repeat 1 n) = repeat 0 n).
  { rewrite decryptAES_wrap; rewrite repeat_length; [reflexivity | lia]. }
  assert (E : encryptAES (repeat 0 n) = repeat 0 n).
  { rewrite encryptAES_wrap; rewrite repeat_length; [reflexivity | lia]. }
  rewrite D, E. repeat split.
  destruct n as [| n]; [lia | discriminate].
Qed.

End AesLoop.

(** * AES-128 in ECB mode: the block cipher and its inverse *)

Section AesInverse.

Import Aes GTACrypto AesFacts.

Lemma byte_forall (P : Z -> bool) :
  forallb P bytes256 = true -> forall x, is_byte x -> P x = true.
Proof.
  intros H x Hx. rewrite forallb_forall in H. apply H.
  unfold bytes256. apply in_map_iff. exists (Z.to_nat x).
  split; [unfold is_byte in Hx; lia |]. apply in_seq. unfold is_byte in Hx. lia.
Qed.

Lemma sbox_inv_sbox (a : Z) : is_byte a -> sbox (inv_sbox a) = a.
Proof.
  intros H. apply Z.eqb_eq. revert a H.
  apply (byte_forall (fun a => sbox (inv_sbox a) =? a)). vm_compute. reflexivity.
Qed.

Lemma inv_sbox_sbox (a : Z) : is_byte a -> inv_sbox (sbox a) = a.
Proof.
  intros H. apply Z.eqb_eq. revert a H.
  apply (byte_forall (fun a => inv_sbox (sbox a) =? a)). vm_compute. reflexivity.
Qed.

Lemma sbox_is_byte (a : Z) : is_byte a -> is_byte (sbox a).
Proof.
  intros H. assert (E : (0 <=? sbox a) && (sbox a <? 256) = true).
  { revert a H. apply (byte_forall (fun a => (0 <=? sbox a) && (sbox a <? 256))).
    vm_compute. reflexivity. }
  apply andb_true_iff in E as [E1 E2]. unfold is_byte. lia.
Qed.

Lemma inv_sbox_is_byte (a : Z) : is_byte a -> is_byte (inv_sbox a).
Proof.
  intros H. assert (E : (0 <=? inv_sbox a) && (inv_sbox a <? 256) = true).
  { revert a H. apply (byte_forall (fun a => (0 <=? inv_sbox a) && (inv_sbox a <? 256))).
    vm_compute. reflexivity. }
  apply andb_true_iff in E as [E1 E2]. unfold is_byte. lia.
Qed.

Lemma gmul_is_byte (x m : Z) : mixConstant m -> is_byte x -> is_byte (gmul x m).
Proof.
  intros Hm H.
  assert (E : (0 <=? gmul x m) && (gmul x m <? 256) = true).
  { revert x H.
    destruct Hm as [-> | [-> | [-> | [-> | [-> | [-> | ->]]]]]];
      apply (byte_forall (fun x => (0 <=? gmul x _) && (gmul x _ <? 256)));
      vm_compute; reflexivity. }
  apply andb_true_iff in E as [E1 E2]. unfold is_byte. lia.
Qed.

(* multiplication by a constant distributes over the sum of the field *)
Lemma gmul_lxor (x y m : Z) :
  mixConstant m -> is_byte x -> is_byte y ->
  gmul (Z.lxor x y) m = Z.lxor (gmul x m) (gmul y m).
Proof.
  intros Hm Hx Hy. apply Z.eqb_eq. revert y Hy. revert x Hx.
  assert (G : forall P : Z -> Z -> bool,
             forallb (fun x => forallb (P x) bytes256) bytes256 = true ->
             forall x, is_byte x -> forall y, is_byte y -> P x y = true).
  { intros P H x Hx. apply byte_forall.
    exact (byte_forall (fun x => forallb (P x) bytes256) H x Hx). }
  destruct Hm as [-> | [-> | [-> | [-> | [-> | [-> | ->]]]]]];
    apply (G (fun x y => gmul (Z.lxor x y) _ =? Z.lxor (gmul x _) (gmul y _)));
    vm_compute; reflexivity.
Qed.

Lemma list16 {A : Type} (s : list A) :
  length s = 16%nat ->
  exists x0 x1 x2 x3 x4 x5 x6 x7 x8 x9 x10 x11 x12 x13 x14 x15,
    s = [x0; x1; x2; x3; x4; x5; x6; x7; x8; x9; x10; x11; x12; x13; x14; x15].
Proof.
  intros H.
  do 16 (destruct s as [| ? s]; [discriminate |]).
  destruct s; [| discriminate]. repeat eexists.
Qed.

Lemma shiftRows_invShiftRows (s : list Z) :
  length s = 16%nat -> shiftRows (invShiftRows s) = s.
Proof.
  intros H. destruct (list16 s H) as (x0 & x1 & x2 & x3 & x4 & x5 & x6 & x7 & x8 & x9
    & x10 & x11 & x12 & x13 & x14 & x15 & ->). reflexivity.
Qed.

Lemma invShiftRows_shiftRows (s : list Z) :
  length s = 16%nat -> invShiftRows (shiftRows s) = s.
Proof.
  intros H. destruct (list16 s H) as (x0 & x1 & x2 & x3 & x4 & x5 & x6 & x7 & x8 & x9
    & x10 & x11 & x12 & x13 & x14 & x15 & ->). reflexivity.
Qed.

Lemma Forall_map_byte (f : Z -> Z) (s : list Z) :
  (forall x, is_byte x -> is_byte (f x)) -> Forall is_byte s -> Forall is_byte (map f s).
Proof. intros Hf H. induction H; cbn [map]; constructor; auto. Qed.

Lemma Good_map (f : Z -> Z) (s : list Z) :
  (forall x, is_byte x -> is_byte (f x)) -> Good s -> Good (map f s).
Proof.
  intros Hf [L B]. split; [now rewrite length_map | now apply Forall_map_byte].
Qed.

Lemma Good_shiftRows (s : list Z) : Good s -> Good (shiftRows s).
Proof.
  intros [L B]. split; [unfold shiftRows; now rewrite length_map, length_seq |].
  unfold shiftRows, at_. induction (seq 0 16) as [| i l IH]; cbn [map]; constructor;
    [now apply key_at_is_byte | exact IH].
Qed.

Lemma Good_invShiftRows (s : list Z) : Good s -> Good (invShiftRows s).
Proof.
  intros [L B]. split; [unfold invShiftRows; now rewrite length_map, length_seq |].
  unfold invShiftRows, at_. induction (seq 0 16) as [| i l IH]; cbn [map]; constructor;
    [now apply key_at_is_byte | exact IH].
Qed.

Lemma map_sbox_inv_sbox (s : list Z) :
  Forall is_byte s -> map sbox (map inv_sbox s) = s.
Proof.
  intros H. induction H as [| x s Hx Hs IH]; cbn [map]; [reflexivity |].
  now rewrite sbox_inv_sbox, IH.
Qed.

Lemma map_inv_sbox_sbox (s : list Z) :
  Forall is_byte s -> map inv_sbox (map sbox s) = s.
Proof.
  intros H. induction H as [| x s Hx Hs IH]; cbn [map]; [reflexivity |].
  now rewrite inv_sbox_sbox, IH.
Qed.

Lemma Good_unsub (s : list Z) : Good s -> Good (unsub s).
Proof.
  intros H. apply Good_map; [exact inv_sbox_is_byte | now apply Good_invShiftRows].
Qed.

Lemma Good_sub (s : list Z) : Good s -> Good (sub s).
Proof.
  intros H. apply Good_shiftRows, Good_map; [exact sbox_is_byte | exact H].
Qed.

Lemma sub_unsub (s : list Z) : Good s -> sub (unsub s) = s.
Proof.
  intros H. unfold sub, unsub.
  rewrite map_sbox_inv_sbox by apply (Good_invShiftRows s H).
  apply shiftRows_invShiftRows, H.
Qed.

Lemma unsub_sub (s : list Z) : Good s -> unsub (sub s) = s.
Proof.
  intros H. unfold sub, unsub.
  rewrite invShiftRows_shiftRows by (rewrite length_map; apply H).
  apply map_inv_sbox_sbox, H.
Qed.

Lemma xor_block_length (a b : list Z) :
  length a = length b -> length (xor_block a b) = length a.
Proof. intros H. unfold xor_block. rewrite length_map, length_combine. lia. Qed.

Lemma xor_block_is_byte (a b : list Z) :
  Forall is_byte a -> Forall is_byte b -> Forall is_byte (xor_block a b).
Proof.
  intros Ha. revert b. induction Ha as [| x a Hx Ha IH]; intros b Hb; [constructor |].
  destruct Hb as [| y b Hy Hb]; [constructor |].
  unfold xor_block. cbn [combine map fst snd]. constructor;
    [now apply lxor_is_byte | now apply IH].
Qed.

Lemma Good_xor (a b : list Z) : Good a -> Good b -> Good (xor_block a b).
Proof.
  intros [La Ba] [Lb Bb]. split; [rewrite xor_block_length; lia |].
  now apply xor_block_is_byte.
Qed.

Lemma xor_block_cancel (a b : list Z) :
  length a = length b -> xor_block (xor_block a b) b = a.
Proof.
  revert b. induction a as [| x a IH]; intros [| y b] H; try discriminate; [reflexivity |].
  unfold xor_block in *. cbn [combine map fst snd].
  rewrite Z.lxor_assoc, Z.lxor_nilpotent, Z.lxor_0_r. f_equal. apply IH.
  cbn in H. lia.
Qed.

End AesInverse.

Section AesColumns.

Import Aes GTACrypto AesFacts.

Lemma lxor_regroup (a1 b1 c1 d1 a2 b2 c2 d2 a3 b3 c3 d3 a4 b4 c4 d4 : Z) :
  Z.lxor (Z.lxor (Z.lxor (Z.lxor a1 b1) (Z.lxor c1 d1)) (Z.lxor (Z.lxor a2 b2) (Z.lxor c2 d2)))
         (Z.lxor (Z.lxor (Z.lxor a3 b3) (Z.lxor c3 d3)) (Z.lxor (Z.lxor a4 b4) (Z.lxor c4 d4)))
  = Z.lxor (Z.lxor (Z.lxor (Z.lxor a1 a2) (Z.lxor a3 a4)) (Z.lxor (Z.lxor b1 b2) (Z.lxor b3 b4)))
           (Z.lxor (Z.lxor (Z.lxor c1 c2) (Z.lxor c3 c4)) (Z.lxor (Z.lxor d1 d2) (Z.lxor d3 d4))).
Proof. apply Z.bits_inj'. intros n _. rewrite !Z.lxor_spec. btauto. Qed.

Lemma comp_eval (n0 m0 n1 m1 n2 m2 n3 m3 : Z) (k : bool) :
  forallb (fun x => comp n0 m0 n1 m1 n2 m2 n3 m3 x =? (if k then x else 0)) bytes256 = true ->
  forall x, is_byte x ->
    Z.lxor (Z.lxor (gmul (gmul x n0) m0) (gmul (gmul x n1) m1))
           (Z.lxor (gmul (gmul x n2) m2) (gmul (gmul x n3) m3))
    = if k then x else 0.
Proof.
  intros H x Hx. apply Z.eqb_eq.
  exact (byte_forall (fun x => comp n0 m0 n1 m1 n2 m2 n3 m3 x =? (if k then x else 0)) H x Hx).
Qed.

Ltac byte_goal :=
  repeat first [ assumption
               | apply gmul_is_byte
               | apply lxor_is_byte
               | (unfold mixConstant; lia) ].

Ltac eval_comp :=
  match goal with
  | |- context [Z.lxor (Z.lxor (gmul (gmul ?x ?n0) ?m0) (gmul (gmul ?x ?n1) ?m1))
                       (Z.lxor (gmul (gmul ?x ?n2) ?m2) (gmul (gmul ?x ?n3) ?m3))] =>
      first [ rewrite (comp_eval n0 m0 n1 m1 n2 m2 n3 m3 true
                         ltac:(vm_compute; reflexivity) x) by assumption
            | rewrite (comp_eval n0 m0 n1 m1 n2 m2 n3 m3 false
                         ltac:(vm_compute; reflexivity) x) by assumption ]
  end.

Ltac column_row :=
  rewrite lxor_regroup; repeat eval_comp;
  rewrite ?Z.lxor_0_r, ?Z.lxor_0_l; reflexivity.

Lemma mix_unmix_column (a b c d : Z) :
  is_byte a -> is_byte b -> is_byte c -> is_byte d ->
  mixColumn 2 3 1 1 (mixColumn 14 11 13 9 [a; b; c; d]) = [a; b; c; d].
Proof.
  intros Ha Hb Hc Hd. unfold mixColumn, at_. cbn [nth].
  rewrite !gmul_lxor by byte_goal.
  f_equal; [column_row |]. f_equal; [column_row |].
  f_equal; [column_row |]. f_equal. column_row.
Qed.

Lemma unmix_mix_column (a b c d : Z) :
  is_byte a -> is_byte b -> is_byte c -> is_byte d ->
  mixColumn 14 11 13 9 (mixColumn 2 3 1 1 [a; b; c; d]) = [a; b; c; d].
Proof.
  intros Ha Hb Hc Hd. unfold mixColumn, at_. cbn [nth].
  rewrite !gmul_lxor by byte_goal.
  f_equal; [column_row |]. f_equal; [column_row |].
  f_equal; [column_row |]. f_equal. column_row.
Qed.

End AesColumns.

Section AesBlocks.

Import Aes GTACrypto AesFacts.

Lemma mixColumn_is_byte (m0 m1 m2 m3 : Z) (col : list Z) :
  mixConstant m0 -> mixConstant m1 -> mixConstant m2 -> mixConstant m3 ->
  Forall is_byte col -> Forall is_byte (mixColumn m0 m1 m2 m3 col).
Proof.
  intros H0 H1 H2 H3 Hc. unfold mixColumn, at_.
  repeat constructor;
    repeat first [ assumption | apply gmul_is_byte | apply lxor_is_byte
                 | apply key_at_is_byte ].
Qed.

Lemma Good_columns (m0 m1 m2 m3 : Z) (s : list Z) :
  mixConstant m0 -> mixConstant m1 -> mixConstant m2 -> mixConstant m3 ->
  Good s -> Good (columns (mixColumn m0 m1 m2 m3) s).
Proof.
  intros H0 H1 H2 H3 [L B]. split; [reflexivity |].
  unfold columns. rewrite !Forall_app.
  repeat split; apply mixColumn_is_byte; try assumption;
    repeat first [ assumption | apply Forall_take | apply Forall_drop ].
Qed.

Lemma Good_mixColumns (s : list Z) : Good s -> Good (mixColumns s).
Proof. apply Good_columns; unfold mixConstant; lia. Qed.

Lemma Good_invMixColumns (s : list Z) : Good s -> Good (invMixColumns s).
Proof. apply Good_columns; unfold mixConstant; lia. Qed.

Lemma Good16 (s : list Z) :
  Good s ->
  exists x0 x1 x2 x3 x4 x5 x6 x7 x8 x9 x10 x11 x12 x13 x14 x15,
    s = [x0; x1; x2; x3; x4; x5; x6; x7; x8; x9; x10; x11; x12; x13; x14; x15]
    /\ Forall is_byte [x0; x1; x2; x3; x4; x5; x6; x7; x8; x9; x10; x11; x12; x13; x14; x15].
Proof.
  intros [L B]. destruct (list16 s L) as (x0 & x1 & x2 & x3 & x4 & x5 & x6 & x7 & x8 & x9
    & x10 & x11 & x12 & x13 & x14 & x15 & ->). repeat eexists. exact B.
Qed.

Ltac bytes16 B :=
  repeat match type of B with
         | Forall is_byte (_ :: _) =>
             let H := fresh "Hb" in
             apply Forall_cons in B as [H B]
         end.

Lemma mixColumns_invMixColumns (s : list Z) : Good s -> mixColumns (invMixColumns s) = s.
Proof.
  intros H. destruct (Good16 s H) as (x0 & x1 & x2 & x3 & x4 & x5 & x6 & x7 & x8 & x9
    & x10 & x11 & x12 & x13 & x14 & x15 & -> & B). bytes16 B.
  unfold mixColumns, invMixColumns, columns.
  change (mixColumn 2 3 1 1 (mixColumn 14 11 13 9 [x0; x1; x2; x3])
          ++ mixColumn 2 3 1 1 (mixColumn 14 11 13 9 [x4; x5; x6; x7])
          ++ mixColumn 2 3 1 1 (mixColumn 14 11 13 9 [x8; x9; x10; x11])
          ++ mixColumn 2 3 1 1 (mixColumn 14 11 13 9 [x12; x13; x14; x15])
          = [x0; x1; x2; x3; x4; x5; x6; x7; x8; x9; x10; x11; x12; x13; x14; x15]).
  now rewrite !mix_unmix_column.
Qed.

Lemma invMixColumns_mixColumns (s : list Z) : Good s -> invMixColumns (mixColumns s) = s.
Proof.
  intros H. destruct (Good16 s H) as (x0 & x1 & x2 & x3 & x4 & x5 & x6 & x7 & x8 & x9
    & x10 & x11 & x12 & x13 & x14 & x15 & -> & B). bytes16 B.
  unfold mixColumns, invMixColumns, columns.
  change (mixColumn 14 11 13 9 (mixColumn 2 3 1 1 [x0; x1; x2; x3])
          ++ mixColumn 14 11 13 9 (mixColumn 2 3 1 1 [x4; x5; x6; x7])
          ++ mixColumn 14 11 13 9 (mixColumn 2 3 1 1 [x8; x9; x10; x11])
          ++ mixColumn 14 11 13 9 (mixColumn 2 3 1 1 [x12; x13; x14; x15])
          = [x0; x1; x2; x3; x4; x5; x6; x7; x8; x9; x10; x11; x12; x13; x14; x15]).
  now rewrite !unmix_mix_column.
Qed.

Lemma encRound_eq (s k : list Z) : encRound s k = xor_block (mixColumns (sub s)) k.
Proof. reflexivity. Qed.

Lemma decRound_eq (s k : list Z) : decRound s k = invMixColumns (xor_block (unsub s) k).
Proof. reflexivity. Qed.

Lemma Good_encRound (s k : list Z) : Good s -> Good k -> Good (encRound s k).
Proof.
  intros Hs Hk. rewrite encRound_eq. apply Good_xor; [| exact Hk].
  now apply Good_mixColumns, Good_sub.
Qed.

Lemma Good_decRound (s k : list Z) : Good s -> Good k -> Good (decRound s k).
Proof.
  intros Hs Hk. rewrite decRound_eq. apply Good_invMixColumns, Good_xor; [| exact Hk].
  now apply Good_unsub.
Qed.

Lemma Good_lengths (a b : list Z) : Good a -> Good b -> length a = length b.
Proof. intros [La _] [Lb _]. now rewrite La, Lb. Qed.

(* an encryption round undoes the decryption round of the same key *)
Lemma encRound_decRound (s k : list Z) :
  Good s -> Good k -> encRound (unsub (decRound s k)) k = unsub s.
Proof.
  intros Hs Hk. rewrite encRound_eq.
  rewrite sub_unsub by now apply Good_decRound. rewrite decRound_eq.
  rewrite mixColumns_invMixColumns by (apply Good_xor; [now apply Good_unsub | exact Hk]).
  apply xor_block_cancel, Good_lengths; [now apply Good_unsub | exact Hk].
Qed.

Lemma decRound_encRound (s k : list Z) :
  Good s -> Good k -> decRound (sub (encRound s k)) k = sub s.
Proof.
  intros Hs Hk. rewrite decRound_eq.
  rewrite unsub_sub by now apply Good_encRound. rewrite encRound_eq.
  rewrite xor_block_cancel
    by (apply Good_lengths; [now apply Good_mixColumns, Good_sub | exact Hk]).
  now apply invMixColumns_mixColumns, Good_sub.
Qed.

Lemma enc_chain (ks : list (list Z)) :
  Forall Good ks -> forall s, Good s ->
    fold_left encRound (rev ks) (unsub (fold_left decRound ks s)) = unsub s.
Proof.
  induction 1 as [| k ks Hk Hks IH]; intros s Hs; [reflexivity |].
  cbn [fold_left rev]. rewrite fold_left_app. cbn [fold_left].
  rewrite IH by now apply Good_decRound. now apply encRound_decRound.
Qed.

Lemma dec_chain (ks : list (list Z)) :
  Forall Good ks -> forall s, Good s ->
    fold_left decRound (rev ks) (sub (fold_left encRound ks s)) = sub s.
Proof.
  induction 1 as [| k ks Hk Hks IH]; intros s Hs; [reflexivity |].
  cbn [fold_left rev]. rewrite fold_left_app. cbn [fold_left].
  rewrite IH by now apply Good_encRound. now apply decRound_encRound.
Qed.

Lemma schedule_is_good : Forall Good (keySchedule PC_AES_KEY).
Proof.
  assert (C : forallb (fun k => (length k =? 16)%nat
                                && forallb (fun b => (0 <=? b) && (b <? 256)) k)
                      (keySchedule PC_AES_KEY) = true) by (vm_compute; reflexivity).
  induction (keySchedule PC_AES_KEY) as [| k ks IH]; constructor.
  - cbn [forallb] in C. apply andb_true_iff in C as [C _].
    apply andb_true_iff in C as [C1 C2]. split; [now apply Nat.eqb_eq | now apply bytes_ok].
  - apply IH. cbn [forallb] in C. now apply andb_true_iff in C as [_ C].
Qed.

Lemma schedule_shape (key : list Z) :
  exists k0 k1 k2 k3 k4 k5 k6 k7 k8 k9 k10,
    keySchedule key = [k0; k1; k2; k3; k4; k5; k6; k7; k8; k9; k10].
Proof. unfold keySchedule. cbn [expand]. repeat eexists. Qed.

Lemma encryptBlock_length (b : list Z) : length (encryptBlock PC_AES_KEY b) = 16%nat.
Proof.
  pose proof schedule_is_good as G. unfold encryptBlock.
  destruct (schedule_shape PC_AES_KEY) as (k0 & k1 & k2 & k3 & k4 & k5 & k6 & k7 & k8 & k9
    & k10 & E). rewrite E in *. cbn [List.removelast List.last].
  assert (L : length k10 = 16%nat).
  { repeat (apply Forall_cons in G as [? G]). now destruct H9. }
  unfold xor_block. rewrite length_map, length_combine, L.
  unfold shiftRows. now rewrite length_map, length_seq.
Qed.

Lemma decryptBlock_length (b : list Z) : length (decryptBlock PC_AES_KEY b) = 16%nat.
Proof.
  pose proof schedule_is_good as G. unfold decryptBlock.
  destruct (schedule_shape PC_AES_KEY) as (k0 & k1 & k2 & k3 & k4 & k5 & k6 & k7 & k8 & k9
    & k10 & E). rewrite E in *. cbn [rev app List.removelast List.last].
  assert (L : length k0 = 16%nat).
  { apply Forall_cons in G as [[? _] _]. assumption. }
  unfold xor_block. rewrite length_map, length_combine, L.
  unfold invShiftRows. now rewrite !length_map, length_seq.
Qed.

(* the two block functions of the key of crypto.ts are inverse to each other *)
Lemma block_round_trip (b : list Z) :
  Good b ->
  encryptBlock PC_AES_KEY (decryptBlock PC_AES_KEY b) = b
  /\ decryptBlock PC_AES_KEY (encryptBlock PC_AES_KEY b) = b.
Proof.
  intros Hb. pose proof schedule_is_good as G. unfold encryptBlock, decryptBlock.
  destruct (schedule_shape PC_AES_KEY) as (k0 & k1 & k2 & k3 & k4 & k5 & k6 & k7 & k8 & k9
    & k10 & E). rewrite E in *. cbn [rev app List.removelast List.last].
  apply Forall_cons in G as [G0 G].
  change (Forall Good ([k1; k2; k3; k4; k5; k6; k7; k8; k9] ++ [k10])) in G.
  apply Forall_app in G as [G19 G10]. apply Forall_cons in G10 as [G10 _].
  repeat match goal with
         | |- context [shiftRows (map sbox ?x)] =>
             change (shiftRows (map sbox x)) with (sub x)
         | |- context [map inv_sbox (invShiftRows ?x)] =>
             change (map inv_sbox (invShiftRows x)) with (unsub x)
         end.
  assert (G91 : Forall Good [k9; k8; k7; k6; k5; k4; k3; k2; k1])
    by (change [k9; k8; k7; k6; k5; k4; k3; k2; k1]
          with (rev [k1; k2; k3; k4; k5; k6; k7; k8; k9]); now apply Forall_rev).
  assert (Gd : Good (fold_left decRound [k9; k8; k7; k6; k5; k4; k3; k2; k1]
                       (xor_block b k10))).
  { assert (F : forall ks, Forall Good ks -> forall s, Good s -> Good (fold_left decRound ks s)).
    { induction 1 as [| k ks Hk Hks IH]; intros s Hs; cbn [fold_left]; [assumption |].
      apply IH. now apply Good_decRound. }
    apply F; [exact G91 | now apply Good_xor]. }
  assert (Ge : Good (fold_left encRound [k1; k2; k3; k4; k5; k6; k7; k8; k9]
                       (xor_block b k0))).
  { assert (F : forall ks, Forall Good ks -> forall s, Good s -> Good (fold_left encRound ks s)).
    { induction 1 as [| k ks Hk Hks IH]; intros s Hs; cbn [fold_left]; [assumption |].
      apply IH. now apply Good_encRound. }
    apply F; [exact G19 | now apply Good_xor]. }
  split.
  - rewrite xor_block_cancel by (apply Good_lengths; [now apply Good_unsub | exact G0]).
    change [k1; k2; k3; k4; k5; k6; k7; k8; k9]
      with (rev [k9; k8; k7; k6; k5; k4; k3; k2; k1]).
    rewrite enc_chain by (assumption || now apply Good_xor).
    rewrite sub_unsub by now apply Good_xor.
    apply xor_block_cancel. now apply Good_lengths.
  - rewrite xor_block_cancel by (apply Good_lengths; [now apply Good_sub | exact G10]).
    change [k9; k8; k7; k6; k5; k4; k3; k2; k1]
      with (rev [k1; k2; k3; k4; k5; k6; k7; k8; k9]).
    rewrite dec_chain by (assumption || now apply Good_xor).
    rewrite unsub_sub by now apply Good_xor.
    apply xor_block_cancel. now apply Good_lengths.
Qed.

End AesBlocks.

Section AesEcb.

Import Aes GTACrypto AesFacts.

Lemma ecb_short (cipher : list Z -> list Z) (fuel : nat) (data : list Z) :
  (length data < 16)%nat -> ecb cipher fuel data = data.
Proof.
  intros H. destruct fuel as [| fuel]; cbn [ecb]; [reflexivity |].
  destruct (Nat.ltb_spec (length data) 16); [reflexivity | lia].
Qed.

Lemma copyInto_behind (done source zeros : list Z) (k : nat) :
  length done = k ->
  copyInto source (done ++ zeros) k
  = done ++ take (length zeros) source ++ drop (length source) zeros.
Proof.
  intros <-. unfold copyInto. rewrite take_app_length, length_app, drop_app_add.
  now replace (length done + length zeros - length done)%nat with (length zeros) by lia.
Qed.

Lemma drop_zeros (n k : nat) : drop n (repeat 0 k) = repeat 0 (k - n).
Proof.
  revert n. induction k as [| k IH]; intros [| n]; cbn [repeat drop Nat.sub];
    try reflexivity. apply IH.
Qed.

(* the loop of decryptAES and encryptAES from round i on: [done] is what the
   rounds before wrote, [rest] what the rounds to come read *)
Lemma aesLoop_ecb (cipher : list Z -> list Z) :
  (forall b, length (cipher b) = 16%nat) ->
  forall (n : nat) (fuel : nat) (pre rest done : list Z) (i : nat),
    length pre = (16 * i)%nat -> length done = (16 * i)%nat ->
    (length rest <= 16 * n < length rest + 16)%nat -> (length rest <= fuel)%nat ->
    aesLoop cipher (pre ++ rest) n (Z.of_nat i) (done ++ repeat 0 (length rest))
    = done ++ ecb cipher fuel rest.
Proof.
  intros Hc. induction n as [| n IH]; intros fuel pre rest done i Hp Hd Hn Hf.
  - assert (length rest = 0)%nat as E by lia. apply nil_length_inv in E. subst rest.
    cbn [aesLoop length repeat]. now rewrite ecb_short by (cbn; lia).
  - cbn [aesLoop]. unfold aesStep.
    replace (Z.min 16 (Z.of_nat (length (pre ++ rest)) - Z.of_nat i * 16))
      with (Z.min 16 (Z.of_nat (length rest))) by (rewrite length_app; lia).
    replace (Z.to_nat (Z.of_nat i * 16)) with (length pre) by lia.
    unfold subarray. rewrite drop_app_length.
    destruct (Z.eqb_spec (Z.min 16 (Z.of_nat (length rest))) 16) as [E | E].
    + assert (M : (16 <= length rest)%nat) by lia.
      rewrite copyInto_behind by lia. rewrite repeat_length, Hc, drop_zeros.
      rewrite take_ge by (rewrite Hc; lia).
      destruct fuel as [| fuel]; [lia |]. cbn [ecb].
      destruct (Nat.ltb_spec (length rest) 16); [lia |].
      rewrite <- (take_drop 16 rest) at 1. rewrite (app_assoc pre).
      replace (Z.of_nat i + 1) with (Z.of_nat (S i)) by lia.
      replace (length rest - 16)%nat with (length (drop 16 rest)) by (rewrite length_drop; lia).
      rewrite (app_assoc done).
      rewrite (IH fuel (pre ++ take 16 rest) (drop 16 rest) (done ++ cipher (take 16 rest))
                  (S i));
        rewrite ?length_app, ?length_take, ?length_drop, ?Hc; try lia.
      now rewrite <- app_assoc.
    + assert (M : (length rest < 16)%nat) by lia.
      assert (n = 0)%nat as -> by lia. cbn [aesLoop].
      rewrite ecb_short by exact M.
      replace (Z.to_nat (Z.min 16 (Z.of_nat (length rest)))) with (length rest) by lia.
      rewrite firstn_all. rewrite copyInto_behind by lia.
      rewrite repeat_length, firstn_all, drop_zeros, Nat.sub_diag. cbn [repeat].
      now rewrite app_nil_r.
Qed.

Lemma rounds_small (data : list Z) :
  Z.of_nat (length data) + 15 < 2 ^ 31 ->
  (length data <= 16 * Z.to_nat (rounds data) < length data + 16)%nat.
Proof.
  intros H. unfold rounds, JS.sar, JS.toUint32. change (4 mod 2 ^ 32 mod 32) with 4.
  rewrite toInt32_small by lia. rewrite Z.shiftr_div_pow2 by lia.
  change (2 ^ 4) with 16.
  pose proof (Z.div_mod (Z.of_nat (length data) + 15) 16 ltac:(lia)) as D.
  pose proof (Z.mod_pos_bound (Z.of_nat (length data) + 15) 16 ltac:(lia)) as B.
  assert (0 <= (Z.of_nat (length data) + 15) / 16) by (apply Z.div_pos; lia).
  lia.
Qed.

Lemma aesLoop_is_ecb (cipher : list Z -> list Z) (data : list Z) :
  (forall b, length (cipher b) = 16%nat) ->
  Z.of_nat (length data) + 15 < 2 ^ 31 ->
  aesLoop cipher data (Z.to_nat (rounds data)) 0 (alloc (Z.of_nat (length data)))
  = ecb cipher (length data) data.
Proof.
  intros Hc H. unfold alloc. rewrite Nat2Z.id.
  exact (aesLoop_ecb cipher Hc (Z.to_nat (rounds data)) (length data) [] data [] 0
           eq_refl eq_refl (rounds_small data H) (Nat.le_refl _)).
Qed.

Lemma ecb_round_trip (f g : list Z -> list Z) :
  (forall b, length (g b) = 16%nat) ->
  (forall b, Good b -> f (g b) = b) ->
  forall (fuel : nat) (data : list Z),
    Forall is_byte data -> ecb f fuel (ecb g fuel data) = data.
Proof.
  intros Hg Hfg. induction fuel as [| fuel IH]; intros data Hb; cbn [ecb]; [reflexivity |].
  destruct (Nat.ltb_spec (length data) 16) as [L | L].
  - destruct (Nat.ltb_spec (length data) 16); [reflexivity | lia].
  - rewrite length_app, Hg.
    destruct (Nat.ltb_spec (16 + length (ecb g fuel (drop 16 data))) 16); [lia |].
    rewrite <- (Hg (take 16 data)) at 1. rewrite take_app_length.
    rewrite <- (Hg (take 16 data)) at 2. rewrite drop_app_length.
    rewrite Hfg by (split; [rewrite length_take; lia | now apply Forall_take]).
    rewrite IH by now apply Forall_drop. apply take_drop.
Qed.

Lemma aes_is_ecb_with_tail_aux (data : list Z) :
  Z.of_nat (length data) + 15 < 2 ^ 31 ->
  decryptAES data = ecb (decryptBlock PC_AES_KEY) (length data) data
  /\ encryptAES data = ecb (encryptBlock PC_AES_KEY) (length data) data.
Proof.
  intros H. split.
  - apply aesLoop_is_ecb; [exact decryptBlock_length | exact H].
  - apply aesLoop_is_ecb; [exact encryptBlock_length | exact H].
Qed.

(** X9. For a buffer of fewer than 2^31 - 15 bytes, decryptAES and encryptAES
    are AES-128 in ECB mode with the tail passed through: every full block of
    sixteen bytes is replaced by its image under the block function of
    PC_AES_KEY, and the bytes behind the last full block are copied as they
    are. *)
Theorem aes_is_ecb_with_tail (data : list Z) :
  Z.of_nat (length data) + 15 < 2 ^ 31 ->
  decryptAES data = ecb (decryptBlock PC_AES_KEY) (length data) data
  /\ encryptAES data = ecb (encryptBlock PC_AES_KEY) (length data) data.
Proof. exact (aes_is_ecb_with_tail_aux data). Qed.

Lemma aes_is_ecb_with_tail_witness :
  decryptAES (map Z.of_nat (seq 1 20))
  = ecb (decryptBlock PC_AES_KEY) (length (map Z.of_nat (seq 1 20))) (map Z.of_nat (seq 1 20))
  /\ encryptAES (map Z.of_nat (seq 1 20))
     = ecb (encryptBlock PC_AES_KEY) (length (map Z.of_nat (seq 1 20)))
           (map Z.of_nat (seq 1 20)).
Proof. apply (aes_is_ecb_with_tail (map Z.of_nat (seq 1 20))). vm_compute. reflexivity. Defined.

Lemma aes_round_trip_aux (data : list Z) :
  Forall is_byte data -> Z.of_nat (length data) + 15 < 2 ^ 31 ->
  encryptAES (decryptAES data) = data /\ decryptAES (encryptAES data) = data.
Proof.
  intros Hb H.
  assert (Ld : Z.of_nat (length (decryptAES data)) + 15 < 2 ^ 31)
    by now rewrite decryptAES_length.
  assert (Le : Z.of_nat (length (encryptAES data)) + 15 < 2 ^ 31)
    by now rewrite encryptAES_length.
  rewrite (proj2 (aes_is_ecb_with_tail_aux (decryptAES data) Ld)).
  rewrite (proj1 (aes_is_ecb_with_tail_aux (encryptAES data) Le)).
  rewrite decryptAES_length, encryptAES_length.
  rewrite (proj1 (aes_is_ecb_with_tail_aux data H)), (proj2 (aes_is_ecb_with_tail_aux data H)).
  split.
  - apply ecb_round_trip; [exact decryptBlock_length | | exact Hb].
    intros b Gb. apply (block_round_trip b Gb).
  - apply ecb_round_trip; [exact encryptBlock_length | | exact Hb].
    intros b Gb. apply (block_round_trip b Gb).
Qed.

(** X10. For a buffer of bytes that is shorter than 2^31 - 15, encryptAES and
    decryptAES undo each other: encryptAES (decryptAES buf) = buf and
    decryptAES (encryptAES buf) = buf. *)
Theorem aes_round_trip (data : list Z) :
  Forall is_byte data -> Z.of_nat (length data) + 15 < 2 ^ 31 ->
  encryptAES (decryptAES data) = data /\ decryptAES (encryptAES data) = data.
Proof. exact (aes_round_trip_aux data). Qed.

Lemma aes_round_trip_witness :
  encryptAES (decryptAES (map Z.of_nat (seq 1 20))) = map Z.of_nat (seq 1 20)
  /\ decryptAES (encryptAES (map Z.of_nat (seq 1 20))) = map Z.of_nat (seq 1 20).
Proof.
  apply (aes_round_trip (map Z.of_nat (seq 1 20))).
  - apply bytes_ok. vm_compute. reflexivity.
  - vm_compute. reflexivity.
Defined.

End AesEcb.

(** * File reads *)

Section Reads.

Import Rpf Scenario Pipeline.

Lemma Ok_inj {A : Type} (a b : A) : Ok a = Ok b -> a = b.
Proof. now intros [= ->]. Qed.

Lemma readBytes_length (file : list Z) (len pos : Z) :
  length (readBytes file len pos) = Z.to_nat len.
Proof.
  unfold readBytes, subarray. rewrite length_app, repeat_length, length_take. lia.
Qed.

Lemma lookup_repeat {A : Type} (x : A) (n i : nat) :
  (i < n)%nat -> repeat x n !! i = Some x.
Proof.
  revert i. induction n as [| n IH]; intros i H; [lia |].
  destruct i as [| i]; cbn [repeat]; rewrite lookup_cons; [reflexivity | apply IH; lia].
Qed.

Lemma readBytes_lookup (file : list Z) (len pos : Z) (i : nat) :
  (i < Z.to_nat len)%nat ->
  readBytes file len pos !! i = Some (byteAt file (Z.to_nat pos + i)).
Proof.
  intros Hi. unfold readBytes, subarray, byteAt.
  set (got := take (Z.to_nat len) (drop (Z.to_nat pos) file)).
  assert (G : length got = Nat.min (Z.to_nat len) (length file - Z.to_nat pos))
    by (unfold got; now rewrite length_take, length_drop).
  destruct (Nat.lt_ge_cases i (length got)) as [L | L].
  - rewrite lookup_app_l by exact L. unfold got.
    rewrite lookup_take_lt by exact Hi. rewrite lookup_drop.
    destruct (lookup_lt_is_Some_2 file (Z.to_nat pos + i) ltac:(lia)) as [b ->].
    reflexivity.
  - rewrite lookup_app_r by exact L.
    rewrite (lookup_ge_None_2 file (Z.to_nat pos + i)) by lia.
    apply lookup_repeat. lia.
Qed.

(* below 2^31 bytes the length survives "length |= 0" and the read fills the
   whole buffer *)
Lemma readSync_ok (file : list Z) (len pos : Z) :
  0 <= len < 2 ^ 31 -> readSync file len pos = Ok (readBytes file len pos).
Proof.
  intros H. unfold readSync, kMaxLength.
  destruct (Z.ltb_spec len 0) as [? | _]; [lia |].
  destruct (Z.ltb_spec (2 ^ 32) len) as [? | _]; [lia |]. cbn [orb].
  rewrite toInt32_small by lia.
  destruct (Z.eqb_spec len 0) as [-> | N]; [reflexivity |].
  destruct (Z.ltb_spec len 0) as [? | _]; [lia |].
  rewrite Z.sub_diag. cbn [alloc Z.to_nat repeat]. now rewrite app_nil_r.
Qed.

(* a read that succeeds either filled the buffer or, for a buffer of exactly
   2^32 bytes, read nothing at all *)
Lemma readSync_inv (file : list Z) (len pos : Z) (buf : list Z) :
  readSync file len pos = Ok buf ->
  (0 <= len < 2 ^ 31 /\ buf = readBytes file len pos)
  \/ (len = 2 ^ 32 /\ buf = alloc len).
Proof.
  destruct (Z.lt_ge_cases len 0) as [Neg | H0].
  { unfold readSync. destruct (Z.ltb_spec len 0); [discriminate | lia]. }
  destruct (Z.lt_ge_cases len (2 ^ 31)) as [L | G].
  - rewrite readSync_ok by lia. intros [= <-]. left. split; [lia | reflexivity].
  - unfold readSync, kMaxLength.
    destruct (Z.ltb_spec len 0) as [? | _]; [lia |].
    destruct (Z.ltb_spec (2 ^ 32) len) as [? | Hm]; [discriminate |]. cbn [orb].
    destruct (Z.eq_dec len (2 ^ 32)) as [-> | N].
    + change (JS.toInt32 (2 ^ 32)) with 0. cbn [Z.eqb]. intros H. apply Ok_inj in H.
      right. split; [reflexivity | now symmetry].
    + assert (E : JS.toInt32 len = len - 2 ^ 32).
      { unfold JS.toInt32. rewrite Z.mod_small by lia.
        destruct (Z.ltb_spec len (2 ^ 31)); lia. }
      rewrite E. destruct (Z.eqb_spec (len - 2 ^ 32) 0) as [? | _]; [lia |].
      destruct (Z.ltb_spec (len - 2 ^ 32) 0) as [_ | ?]; [discriminate | lia].
Qed.

Lemma readSync_length (file : list Z) (len pos : Z) (buf : list Z) :
  readSync file len pos = Ok buf -> length buf = Z.to_nat len.
Proof.
  intros H. destruct (readSync_inv _ _ _ _ H) as [[_ ->] | [_ ->]].
  - apply readBytes_length.
  - unfold alloc. apply repeat_length.
Qed.

Lemma byteAt_padded (file : list Z) (n i : nat) :
  byteAt (file ++ repeat 0 n) i = byteAt file i.
Proof.
  unfold byteAt. destruct (Nat.lt_ge_cases i (length file)) as [L | G].
  - now rewrite lookup_app_l.
  - rewrite lookup_app_r, (lookup_ge_None_2 file i) by lia.
    destruct (Nat.lt_ge_cases (i - length file) n) as [L | G'].
    + now rewrite lookup_repeat.
    + rewrite lookup_ge_None_2; [reflexivity | now rewrite repeat_length].
Qed.

(* zeros appended to a file change no read *)
Lemma readBytes_padded (file : list Z) (n : nat) (len pos : Z) :
  readBytes (file ++ repeat 0 n) len pos = readBytes file len pos.
Proof.
  apply list_eq. intros i. destruct (Nat.lt_ge_cases i (Z.to_nat len)) as [L | G].
  - now rewrite !readBytes_lookup, byteAt_padded.
  - now rewrite !lookup_ge_None_2 by (rewrite readBytes_length; lia).
Qed.

Lemma readSync_padded (file : list Z) (n : nat) (len pos : Z) :
  readSync (file ++ repeat 0 n) len pos = readSync file len pos.
Proof. unfold readSync. now rewrite readBytes_padded. Qed.

(* a read that lies in the file returns what the file holds there *)
Lemma readBytes_exact (pre mid post : list Z) (len pos : Z) :
  length pre = Z.to_nat pos -> length mid = Z.to_nat len ->
  readBytes (pre ++ mid ++ post) len pos = mid.
Proof.
  intros Hp Hm. unfold readBytes, subarray. rewrite <- Hp, <- Hm.
  rewrite drop_app_length, take_app_length, Nat.sub_diag. apply app_nil_r.
Qed.

(* an entry that is neither encrypted nor compressed is read as it is *)
Lemma getFileData_plain (disk : gmap string (list Z)) (e : RpfEntry) (f : FileFields)
    (rpf : RpfFile) (content : list Z) :
  disk !! filePath rpf = Some content ->
  isEncrypted f = false -> isCompressed f = false ->
  0 <= fileSize f < 2 ^ 31 ->
  getFileData disk e f rpf
  = Ok (readBytes content (fileSize f) (startPos rpf + fileOffset f * 512)).
Proof.
  intros Hc He Hz Hs. unfold getFileData. rewrite Hc, readSync_ok by exact Hs.
  cbn [rbind]. rewrite He. unfold isCompressed in Hz. now rewrite Hz.
Qed.

Lemma header_beyond_eof (nested : string -> Z -> result RpfFile)
    (disk : gmap string (list Z)) (path nm : string) (pos : Z) (content : list Z) :
  disk !! path = Some content -> 0 <= pos -> Z.of_nat (length content) <= pos ->
  scanStructureWith nested disk path nm pos = Err (InvalidVersion 0).
Proof.
  intros Hc H0 Hp. unfold scanStructureWith. rewrite Hc, readSync_ok by lia.
  assert (E : readBytes content 16 pos = repeat 0 16).
  { unfold readBytes, subarray. rewrite drop_ge by lia. reflexivity. }
  rewrite E. reflexivity.
Qed.

End Reads.

(** * Entry records *)

Section Records.

Import Spec Rpf.

Lemma js_and_signbit h2 :
  JS.and h2 0x80000000 = Z.shiftl (Z.shiftr (JS.toInt32 h2) 31) 31.
Proof.
  unfold JS.and. change (JS.toInt32 0x80000000) with (Z.lnot (Z.ones 31)).
  rewrite <- Z.ldiff_land. apply Z.ldiff_ones_r. lia.
Qed.

Lemma classify_binary h2 : 0 <= h2 < 2 ^ 31 -> h2 <> IDENT -> classify h2 = KBinary.
Proof.
  intros H1 H2. unfold classify.
  destruct (Z.eqb_spec h2 IDENT); [contradiction |].
  rewrite js_and_signbit, toInt32_small by lia.
  rewrite Z.shiftr_div_pow2, Z.div_small by lia. reflexivity.
Qed.

Lemma classify_resource h2 : 2 ^ 31 <= h2 < 2 ^ 32 -> classify h2 = KResource.
Proof.
  intros H. unfold classify.
  destruct (Z.eqb_spec h2 IDENT) as [E | _]; [unfold IDENT in E; lia |].
  rewrite js_and_signbit.
  replace (JS.toInt32 h2) with (h2 - 2 ^ 32).
  - rewrite Z.shiftr_div_pow2 by lia.
    replace ((h2 - 2 ^ 32) / 2 ^ 31) with (-1); [reflexivity |].
    apply Z.div_unique with (r := h2 - 2 ^ 31); lia.
  - unfold JS.toInt32. rewrite Z.mod_small by lia.
    destruct (Z.ltb_spec h2 (2 ^ 31)); lia.
Qed.

(* the 32-bit word at offset + 8 is the low half of the second 64-bit word *)
Lemma word2_of_d2 (data : list Z) (k : nat) :
  Forall is_byte data -> (k + 8 <= length data)%nat ->
  le_decode (subarray data k 4) = bits (le_decode (subarray data k 8)) 0 32.
Proof.
  intros Hb Hk. rewrite bits_0.
  replace (subarray data k 4) with (take 4 (subarray data k 8))
    by (unfold subarray; rewrite take_take; reflexivity).
  rewrite le_decode_take by now apply subarray_is_byte.
  rewrite length_take, subarray_length by lia. reflexivity.
Qed.

Lemma d_bound (data : list Z) (k : nat) :
  Forall is_byte data -> (k + 8 <= length data)%nat ->
  0 <= le_decode (subarray data k 8) < 2 ^ 64.
Proof.
  intros Hb Hk. pose proof (le_decode_bound _ (subarray_is_byte data k 8 Hb)) as B.
  rewrite subarray_length in B by lia. exact B.
Qed.

Lemma readBinaryFileEntry_spec (data : list Z) (offset : Z) :
  Forall is_byte data -> 0 <= offset -> offset + 16 <= Z.of_nat (length data) ->
  let d1 := le_decode (subarray data (Z.to_nat offset) 8) in
  let d2 := le_decode (subarray data (Z.to_nat (offset + 8)) 8) in
  readBinaryFileEntry data offset =
    if bits d2 32 64 =? 0
    then Ok (bits d1 0 16,
             RpfBinaryFileEntry
               {| fileOffset := bits d1 40 64; fileSize := bits d1 16 40;
                  fileUncompressedSize := bits d2 0 24;
                  isEncrypted := negb (bits d2 24 32 =? 0) |}
               (bits d2 24 32))
    else Err InvalidBinaryFileEntry.
Proof.
  intros Hb H0 H1 d1 d2. unfold readBinaryFileEntry, getBigUint64.
  rewrite !getUint_ok by (simpl Z.of_nat; lia). cbn [rbind]. fold d1 d2.
  assert (B2 : 0 <= d2 < 2 ^ 64) by (apply d_bound; [assumption | lia]).
  assert (S : forall x lo w hi m, m = Z.ones w -> hi = lo + w -> 0 <= lo -> 0 <= w ->
              Z.land (Z.shiftr x lo) m = bits x lo hi)
    by (intros; subst; now apply land_shiftr_bits).
  rewrite (S d1 0 16 16), (S d1 16 24 40), (S d1 40 24 64), (S d2 0 24 24), (S d2 24 8 32)
    by (reflexivity || lia).
  replace (Z.shiftr d2 32) with (bits d2 32 64).
  - destruct (bits d2 32 64 =? 0); reflexivity.
  - unfold bits. rewrite Z.shiftr_div_pow2 by lia. apply Z.mod_small.
    split; [apply Z.div_pos; lia |]. apply Z.div_lt_upper_bound; lia.
Qed.

Lemma readResourceFileEntry_spec (data : list Z) (offset : Z) :
  0 <= offset -> offset + 16 <= Z.of_nat (length data) ->
  let d1 := le_decode (subarray data (Z.to_nat offset) 8) in
  let d2 := le_decode (subarray data (Z.to_nat (offset + 8)) 8) in
  let sys := bits d2 0 32 in
  let gfx := bits d2 32 64 in
  readResourceFileEntry data offset =
    Ok (bits d1 0 16,
        RpfResourceFileEntry
          (if bits d1 16 40 =? 0xFFFFFF
           then {| fileOffset := bits d1 40 64; fileSize := resourceSize sys gfx;
                   fileUncompressedSize := resourceSize sys gfx; isEncrypted := false |}
           else {| fileOffset := bits d1 40 64; fileSize := bits d1 16 40;
                   fileUncompressedSize := 0; isEncrypted := false |})
          sys gfx).
Proof.
  intros H0 H1 d1 d2 sys gfx. unfold readResourceFileEntry, getBigUint64.
  rewrite !getUint_ok by (simpl Z.of_nat; lia). cbn [rbind]. fold d1 d2.
  assert (S : forall x lo w hi m, m = Z.ones w -> hi = lo + w -> 0 <= lo -> 0 <= w ->
              Z.land (Z.shiftr x lo) m = bits x lo hi)
    by (intros; subst; now apply land_shiftr_bits).
  rewrite (S d1 0 16 16), (S d1 16 24 40), (S d1 40 24 64), (S d2 32 32 64)
    by (reflexivity || lia).
  replace (Z.land d2 0xFFFFFFFF) with sys
    by (unfold sys; rewrite bits_0; symmetry; apply (Z.land_ones d2 32); lia).
  fold gfx. rewrite getResourceSize_spec. reflexivity.
Qed.

(* the size formula stays below 142475281 *)
Lemma resourceSize_bound (systemFlags graphicsFlags : Z) :
  0 <= resourceSize systemFlags graphicsFlags <= 142475280.
Proof.
  unfold resourceSize.
  pose proof (bits_bound systemFlags 0 11 ltac:(lia)).
  pose proof (bits_bound graphicsFlags 0 11 ltac:(lia)).
  pose proof (bits_bound systemFlags 15 22 ltac:(lia)).
  pose proof (bits_bound graphicsFlags 15 22 ltac:(lia)).
  pose proof (bits_bound systemFlags 11 15 ltac:(lia)).
  pose proof (bits_bound graphicsFlags 11 15 ltac:(lia)).
  pose proof (bits_bound systemFlags 25 29 ltac:(lia)).
  pose proof (bits_bound graphicsFlags 25 29 ltac:(lia)).
  assert (P : forall s, 0 <= s < 2 ^ (15 - 11) -> 0 < 2 ^ s <= 2 ^ 15).
  { intros s Hs. split; [apply Z.pow_pos_nonneg; lia |].
    apply Z.pow_le_mono_r; [lia |]. change (2 ^ (15 - 11)) with 16 in Hs. lia. }
  pose proof (P (bits systemFlags 11 15) ltac:(assumption)).
  pose proof (P (bits graphicsFlags 11 15) ltac:(assumption)).
  pose proof (P (bits systemFlags 25 29) ltac:(assumption)).
  pose proof (P (bits graphicsFlags 25 29) ltac:(assumption)).
  change (2 ^ (11 - 0)) with 2048 in *. change (2 ^ (22 - 15)) with 128 in *.
  change (2 ^ 15) with 32768 in *.
  destruct (bits systemFlags 27 28 =? 1); nia.
Qed.

End Records.

Section RecordClaims.

Import Spec Rpf Scenario.

Lemma readEntry_h2 (entriesData namesData : list Z) (i : Z) :
  Forall is_byte entriesData -> 0 <= i ->
  i * 16 + 16 <= Z.of_nat (length entriesData) ->
  getUint32 entriesData (i * 16 + 8)
  = Ok (bits (le_decode (subarray entriesData (Z.to_nat (i * 16 + 8)) 8)) 0 32).
Proof.
  intros Hb H0 H1. unfold getUint32. rewrite getUint_ok by (simpl Z.of_nat; lia).
  rewrite word2_of_d2 by (assumption || lia). reflexivity.
Qed.

(** C8. A record that parseEntries reads as a binary file entry (the word h2 at
    bytes 8..11 is not 0x7FFFFF00 and has its high bit clear) decodes, over the
    little-endian 64-bit words d1 and d2, to name offset d1[0..16), on-disk size
    d1[16..40), payload block offset d1[40..64), uncompressed size d2[0..24) and
    encryption type d2[24..32); it is refused with "Invalid binary file entry"
    exactly when d2[32..64) is not zero. *)
Theorem binary_record_decoding (entriesData namesData : list Z) (i : Z) :
  Forall is_byte entriesData -> 0 <= i ->
  i * 16 + 16 <= Z.of_nat (length entriesData) ->
  let d1 := le_decode (subarray entriesData (Z.to_nat (i * 16)) 8) in
  let d2 := le_decode (subarray entriesData (Z.to_nat (i * 16 + 8)) 8) in
  let h2 := bits d2 0 32 in
  h2 <> 0x7FFFFF00 -> h2 < 2 ^ 31 ->
  readEntry entriesData namesData i =
    if bits d2 32 64 =? 0
    then Ok {| nameOffset := bits d1 0 16;
               name := readName namesData (bits d1 0 16);
               nameLower := toLowerCase (readName namesData (bits d1 0 16));
               path := ""; parent := None; file := OwnThis;
               cls := RpfBinaryFileEntry
                        {| fileOffset := bits d1 40 64; fileSize := bits d1 16 40;
                           fileUncompressedSize := bits d2 0 24;
                           isEncrypted := negb (bits d2 24 32 =? 0) |}
                        (bits d2 24 32) |}
    else Err InvalidBinaryFileEntry.
Proof.
  intros Hb H0 H1 d1 d2 h2 Hne Hhi. unfold readEntry.
  rewrite readEntry_h2 by assumption. fold d2 h2. cbn [rbind].
  rewrite classify_binary;
    [| split; [apply bits_bound; lia | exact Hhi] | exact Hne].
  rewrite readBinaryFileEntry_spec by (assumption || lia). fold d1 d2.
  destruct (bits d2 32 64 =? 0); reflexivity.
Qed.

Lemma binary_record_decoding_witness :
  readEntry (E1_entries 0x7FFFFF00) E1_names 1
  = Ok {| nameOffset := 9; name := "hi"; nameLower := "hi"; path := "";
          parent := None; file := OwnThis;
          cls := RpfBinaryFileEntry
                   {| fileOffset := 1; fileSize := 5; fileUncompressedSize := 0;
                      isEncrypted := false |} 0 |}.
Proof.
  refine (eq_trans
    (binary_record_decoding
       (E1_entries 0x7FFFFF00) E1_names 1
       (bytes_ok (E1_entries 0x7FFFFF00) eq_refl) _ _ _ _) _).
  - lia.
  - vm_compute. discriminate.
  - vm_compute. discriminate.
  - vm_compute. reflexivity.
  - vm_compute. reflexivity.
Defined.

(** C5 (as amended). A record that parseEntries reads as a resource entry (the
    high bit of the word at bytes 8..11 is set) is never decrypted nor inflated:
    getFileData returns the bytes read at the payload offset.  When the size
    field d1[16..40) is 0xFFFFFF the on-disk size is base + vmem + pmem + vgfx +
    pgfx of the two flag words and the uncompressed size equals it; otherwise
    the on-disk size is the field and the uncompressed size stays 0. *)
Theorem resource_entry_sizes (entriesData namesData : list Z) (i : Z) :
  Forall is_byte entriesData -> 0 <= i ->
  i * 16 + 16 <= Z.of_nat (length entriesData) ->
  let d1 := le_decode (subarray entriesData (Z.to_nat (i * 16)) 8) in
  let d2 := le_decode (subarray entriesData (Z.to_nat (i * 16 + 8)) 8) in
  let sys := bits d2 0 32 in
  let gfx := bits d2 32 64 in
  2 ^ 31 <= sys ->
  exists e f,
    readEntry entriesData namesData i = Ok e
    /\ cls e = RpfResourceFileEntry f sys gfx
    /\ fileOffset f = bits d1 40 64
    /\ (bits d1 16 40 = 0xFFFFFF ->
        fileSize f = resourceSize sys gfx /\ fileUncompressedSize f = fileSize f)
    /\ (bits d1 16 40 <> 0xFFFFFF ->
        fileSize f = bits d1 16 40 /\ fileUncompressedSize f = 0)
    /\ (forall (disk : gmap string (list Z)) rpf content,
           disk !! filePath rpf = Some content ->
           getFileData disk e f rpf
           = Ok (readBytes content (fileSize f) (startPos rpf + fileOffset f * 512))).
Proof.
  intros Hb H0 H1 d1 d2 sys gfx Hhi. unfold readEntry.
  rewrite readEntry_h2 by assumption. fold d2 sys. cbn [rbind].
  rewrite classify_resource
    by (split; [exact Hhi | apply (bits_bound d2 0 32); lia]).
  rewrite readResourceFileEntry_spec by lia. fold d1 d2 sys gfx. cbn [rbind fst snd].
  eexists. eexists. split; [reflexivity |]. cbn [cls]. split; [reflexivity |].
  destruct (Z.eqb_spec (bits d1 16 40) 0xFFFFFF) as [E | E]; cbn [fileOffset fileSize fileUncompressedSize].
  - repeat split; try reflexivity; try contradiction.
    intros disk rpf content Hc. unfold getFileData. rewrite Hc.
    cbn [isEncrypted fileOffset fileSize fileUncompressedSize].
    try rewrite getResourceSize_spec.
    pose proof (resourceSize_bound sys gfx) as Hr.
    rewrite readSync_ok by lia. cbn [rbind].
    rewrite Z.eqb_refl. rewrite andb_false_r. reflexivity.
  - repeat split; try reflexivity; try contradiction.
    intros disk rpf content Hc. unfold getFileData. rewrite Hc.
    cbn [isEncrypted fileOffset fileSize fileUncompressedSize].
    pose proof (bits_bound d1 16 40 ltac:(lia)) as Hr. change (2 ^ (40 - 16)) with 16777216 in Hr.
    rewrite readSync_ok by lia. reflexivity.
Qed.

Lemma resource_entry_sizes_witness :
  exists e f,
    readEntry (resourceRecord 0 0xFFFFFF 1 0x80000001 0) [] 0 = Ok e
    /\ cls e = RpfResourceFileEntry f 0x80000001 0
    /\ fileSize f = 1 /\ fileUncompressedSize f = 1.
Proof.
  destruct (resource_entry_sizes (resourceRecord 0 0xFFFFFF 1 0x80000001 0) [] 0
              (bytes_ok (resourceRecord 0 0xFFFFFF 1 0x80000001 0) eq_refl) ltac:(lia) ltac:(vm_compute; discriminate)
              ltac:(vm_compute; discriminate))
    as (e & f & He & Hc & _ & Hs & _).
  exists e, f. split; [exact He |]. split; [exact Hc |].
  destruct (Hs eq_refl) as [Hs1 Hs2]. rewrite Hs2. split; exact Hs1.
Defined.

(* a resource record whose size field is 5 *)
Lemma resource_uncompressed_size_is_zero :
  exists e f,
    readEntry (resourceRecord 0 5 1 0x80000000 0) [] 0 = Ok e
    /\ cls e = RpfResourceFileEntry f 0x80000000 0
    /\ fileSize f = 5 /\ fileUncompressedSize f = 0
    /\ fileUncompressedSize f <> fileSize f.
Proof.
  eexists. eexists. split; [vm_compute; reflexivity |].
  cbn. repeat split; discriminate.
Qed.

End RecordClaims.

Section Scenarios.

Import Rpf RpfManager Scenario.

(** C1 (the code departs from it). Opening the archive of scenario E1 fails:
    parseEntries classifies the directory record by its third word (the entries
    count, 1), reads it as a binary file entry and refuses it.  The registry
    stays empty, so list_directory and read_file answer null. *)
Theorem E1_open_fails (depth : nat) :
  scanStructure depth (diskOf "e1.rpf" E1) "e1.rpf" "e1.rpf" 0
  = Err InvalidBinaryFileEntry
  /\ scanForRpfFiles depth (diskOf "e1.rpf" E1) ["e1.rpf"%string] = ∅
  /\ listDirectory (scanForRpfFiles depth (diskOf "e1.rpf" E1) ["e1.rpf"%string])
                   "e1.rpf" "" = None
  /\ getFileContent (diskOf "e1.rpf" E1)
                    (scanForRpfFiles depth (diskOf "e1.rpf" E1) ["e1.rpf"%string])
                    "e1.rpf" "hi" = None.
Proof.
  assert (E : scanStructure depth (diskOf "e1.rpf" E1) "e1.rpf" "e1.rpf" 0
              = Err InvalidBinaryFileEntry)
    by (destruct depth; vm_compute; reflexivity).
  assert (R : scanForRpfFiles depth (diskOf "e1.rpf" E1) ["e1.rpf"%string] = ∅).
  { unfold scanForRpfFiles, loadRpf. cbn [fold_left].
    change (basename "e1.rpf") with "e1.rpf"%string. now rewrite E. }
  rewrite R. repeat split; try reflexivity. exact E.
Qed.

(** C3 (the code departs from it). With the fourth word of E1's directory
    record rewritten to 0x7FFFFF01 the open fails, as it does for E1 itself,
    with "Invalid binary file entry": the record is never read as a directory,
    so the identifier check of RpfDirectoryEntry.read is not reached. *)
Theorem E2_open_fails_as_binary_entry (depth : nat) :
  scanStructure depth (diskOf "e2.rpf" E2) "e2.rpf" "e2.rpf" 0
  = Err InvalidBinaryFileEntry
  /\ scanStructure depth (diskOf "e2.rpf" E2) "e2.rpf" "e2.rpf" 0
     <> Err (InvalidDirectoryEntry 0x7FFFFF01).
Proof.
  assert (E : scanStructure depth (diskOf "e2.rpf" E2) "e2.rpf" "e2.rpf" 0
              = Err InvalidBinaryFileEntry)
    by (destruct depth; vm_compute; reflexivity).
  rewrite E. split; [reflexivity | discriminate].
Qed.

End Scenarios.

(** * crypto.ts: decryptNG *)

Section NGClaims.

Import GTACrypto.





End NGClaims.

(** * buildHierarchy *)

Section Linking.

Import Rpf Hierarchy.

Lemma static_setParent d e : static (setParent d e) = static e.
Proof. reflexivity. Qed.

Lemma static_pushChild c b e : static (pushChild c b e) = static e.
Proof. destruct e as [no nm nl p pa fi [d | f t | f s g]]; [destruct b |..]; reflexivity. Qed.

Lemma static_alter (f : RpfEntry -> RpfEntry) (i : nat) (es : list RpfEntry) :
  (forall e, static (f e) = static e) -> map static (alter f i es) = map static es.
Proof.
  intros H. apply list_eq. intros j.
  change (map static) with (fmap (M := list) static).
  rewrite !list_lookup_fmap, list_lookup_alter.
  destruct (decide (i = j)) as [-> |]; [| reflexivity].
  destruct (es !! j); cbn; [now rewrite H | reflexivity].
Qed.

Lemma isDirectory_static (es : list RpfEntry) (j : nat) (e : RpfEntry) :
  es !! j = Some e -> isDirectory e = isDirS (map static es) j.
Proof.
  intros H. unfold isDirS. change (map static) with (fmap (M := list) static).
  rewrite list_lookup_fmap, H. cbn. unfold isDirectory. now destruct (cls e).
Qed.

(** ** What one directory does to the table: [adopt] *)

Lemma parentAt_alter (f : RpfEntry -> RpfEntry) (i : nat) (es : list RpfEntry) (j : nat) :
  (forall e, parent (f e) = parent e) -> parentAt (alter f i es) j = parentAt es j.
Proof.
  intros H. unfold parentAt. rewrite list_lookup_alter.
  destruct (decide (i = j)) as [-> |]; [| reflexivity].
  destruct (es !! j); cbn; [apply H | reflexivity].
Qed.

Lemma parent_pushChild c b e : parent (pushChild c b e) = parent e.
Proof. destruct e as [no nm nl p pa fi [d | f t | f s g]]; reflexivity. Qed.

Lemma parentAt_setParent (d i : nat) (es : list RpfEntry) (j : nat) :
  (i < length es)%nat ->
  parentAt (alter (setParent d) i es) j = if decide (j = i) then Some d else parentAt es j.
Proof.
  intros Hi. unfold parentAt. rewrite list_lookup_alter.
  destruct (decide (j = i)) as [-> | N].
  - rewrite decide_True by reflexivity.
    destruct (lookup_lt_is_Some_2 es i Hi) as [e ->]. reflexivity.
  - rewrite decide_False by congruence. reflexivity.
Qed.

Lemma directoryAt_alter (f : RpfEntry -> RpfEntry) (i : nat) (es : list RpfEntry) (j : nat) :
  (forall e, dirFields (f e) = dirFields e) ->
  directoryAt (alter f i es) j = directoryAt es j.
Proof.
  intros H. unfold directoryAt. rewrite list_lookup_alter.
  destruct (decide (i = j)) as [-> |]; [| reflexivity].
  destruct (es !! j); cbn; [apply H | reflexivity].
Qed.

Lemma directoryAt_pushChild (c : nat) (b : bool) (d : nat) (es : list RpfEntry) (j : nat) :
  directoryAt (alter (pushChild c b) d es) j
  = if decide (j = d)
    then (fun x => {| entriesIndex := entriesIndex x; entriesCount := entriesCount x;
                      directories := directories x ++ (if b then [c] else []);
                      files := files x ++ (if b then [] else [c]) |})
         <$> directoryAt es j
    else directoryAt es j.
Proof.
  unfold directoryAt. rewrite list_lookup_alter.
  destruct (decide (j = d)) as [-> | N].
  - rewrite decide_True by reflexivity.
    destruct (es !! d) as [e |]; [| reflexivity].
    destruct e as [no nm nl p pa fi [x | f t | f s g]]; cbn; [| reflexivity..].
    destruct b; cbn; rewrite app_nil_r; reflexivity.
  - rewrite decide_False by congruence. reflexivity.
Qed.

Lemma adopt_spec (dir : nat) (n : nat) :
  forall (i : nat) (es es' : list RpfEntry),
    adopt dir i n es = Ok es' -> adopted dir i n es es'.
Proof.
  induction n as [| n IH]; intros i es es' H; cbn [adopt] in H.
  - injection H as <-. split; try reflexivity.
    + now left.
    + intros j. destruct (Nat.leb_spec i j), (Nat.ltb_spec j (i + 0)); (reflexivity || lia).
    + intros j. cbn [seq List.filter]. destruct (decide (j = dir)); [| reflexivity].
      destruct (directoryAt es j) as [[a b c d] |]; cbn; [| reflexivity].
      now rewrite !app_nil_r.
  - destruct (es !! i) as [child |] eqn:Hc; [| discriminate].
    assert (Hi : (i < length es)%nat) by (apply lookup_lt_is_Some_1; eauto).
    set (es1 := alter (pushChild i (isDirectory child)) dir (alter (setParent dir) i es)) in H.
    assert (L1 : length es1 = length es) by (unfold es1; now rewrite !length_alter).
    assert (S1 : map static es1 = map static es).
    { unfold es1. rewrite !static_alter; [reflexivity | apply static_setParent |].
      intros e. apply static_pushChild. }
    destruct (IH (S i) es1 es' H) as [B L St P C].
    split.
    + right. lia.
    + congruence.
    + congruence.
    + intros j. rewrite P. unfold es1.
      rewrite parentAt_alter by (intros e; apply parent_pushChild).
      rewrite parentAt_setParent by exact Hi.
      destruct (decide (j = i)) as [-> | N].
      * replace (S i <=? i)%nat with false by (symmetry; apply Nat.leb_gt; lia).
        rewrite Nat.leb_refl. replace (i <? i + S n)%nat with true; [reflexivity |].
        symmetry. apply Nat.ltb_lt. lia.
      * replace (j <? S i + n)%nat with (j <? i + S n)%nat by (f_equal; lia).
        replace (S i <=? j)%nat with (i <=? j)%nat; [reflexivity |].
        destruct (Nat.leb_spec i j), (Nat.leb_spec (S i) j); (reflexivity || lia).
    + intros j. rewrite C, S1. unfold es1.
      rewrite directoryAt_pushChild.
      rewrite (directoryAt_alter (setParent dir)) by reflexivity.
      rewrite (isDirectory_static es i child Hc).
      destruct (decide (j = dir)) as [-> | N]; [| reflexivity].
      destruct (directoryAt es dir) as [[a b c d] |]; cbn; [| reflexivity].
      destruct (isDirS (map static es) i); cbn; rewrite <- ?app_assoc; reflexivity.
Qed.

(** ** The whole table: [linkLoop] *)

Lemma lookup_static (es : list RpfEntry) (j : nat) :
  map static es !! j = static <$> es !! j.
Proof. change (map static) with (fmap (M := list) static). apply list_lookup_fmap. Qed.

Lemma rangeOf_directoryAt (es : list RpfEntry) (d : nat) :
  map static es !! d ≫= rangeOf
  = (fun x => (Z.to_nat (entriesIndex x), Z.to_nat (entriesCount x))) <$> directoryAt es d.
Proof.
  rewrite lookup_static. unfold directoryAt.
  destruct (es !! d) as [e |]; [| reflexivity].
  destruct e as [no nm nl p pa fi [x | f t | f s g]]; reflexivity.
Qed.

Lemma adoptRange_spec (dir : nat) (es es' : list RpfEntry) :
  adoptRange dir es = Ok es' ->
  match directoryAt es dir with
  | Some x => adopted dir (Z.to_nat (entriesIndex x)) (Z.to_nat (entriesCount x)) es es'
  | None => es' = es
  end.
Proof.
  unfold adoptRange, directoryAt. destruct (es !! dir) as [e |]; cbn.
  - destruct e as [no nm nl p pa fi [x | f t | f s g]]; cbn.
    + apply adopt_spec.
    + now intros [= <-].
    + now intros [= <-].
  - now intros [= <-].
Qed.

Lemma linkLoop_spec (n : nat) :
  forall (d0 : nat) (es es' : list RpfEntry),
    linkLoop n d0 es = Ok es' -> linked d0 n es es'.
Proof.
  induction n as [| n IH]; intros d0 es es' H; cbn [linkLoop] in H.
  - injection H as <-. split; try reflexivity.
    + intros d s c Hd. lia.
    + intros j. destruct (Nat.leb_spec d0 j), (Nat.ltb_spec j (d0 + 0)); (reflexivity || lia).
  - destruct (adoptRange d0 es) as [es1 |] eqn:H1; cbn [rbind] in H; [| discriminate].
    apply adoptRange_spec in H1. apply IH in H as [L St B P C].
    pose proof (rangeOf_directoryAt es d0) as R.
    destruct (directoryAt es d0) as [x |] eqn:Hx.
    + destruct H1 as [B1 L1 S1 P1 C1]. rewrite S1 in *. split.
      * congruence.
      * congruence.
      * intros d s c Hd Hr. destruct (decide (d = d0)) as [-> | N].
        -- rewrite R in Hr. injection Hr as <- <-. exact B1.
        -- rewrite <- L1. apply (B d); [lia | exact Hr].
      * intros j. rewrite P. cbn [lastClaimant].
        destruct (lastClaimant (map static es) (S d0) n j); [reflexivity |].
        rewrite P1. unfold claims. rewrite R. cbn. destruct (_ && _); reflexivity.
      * intros j. rewrite C, C1.
        destruct (decide (j = d0)) as [-> | N].
        -- replace (S d0 <=? d0)%nat with false by (symmetry; apply Nat.leb_gt; lia).
           rewrite Nat.leb_refl. replace (d0 <? d0 + S n)%nat with true
             by (symmetry; apply Nat.ltb_lt; lia).
           rewrite Hx. reflexivity.
        -- replace (j <? S d0 + n)%nat with (j <? d0 + S n)%nat by (f_equal; lia).
           replace (S d0 <=? j)%nat with (d0 <=? j)%nat; [reflexivity |].
           destruct (Nat.leb_spec d0 j), (Nat.leb_spec (S d0) j); (reflexivity || lia).
    + subst es1. split.
      * exact L.
      * exact St.
      * intros d s c Hd Hr. destruct (decide (d = d0)) as [-> | N].
        -- rewrite R in Hr. discriminate.
        -- apply (B d); [lia | exact Hr].
      * intros j. rewrite P. cbn [lastClaimant].
        destruct (lastClaimant (map static es) (S d0) n j); [reflexivity |].
        unfold claims. rewrite R. reflexivity.
      * intros j. rewrite C.
        destruct (decide (j = d0)) as [-> | N].
        -- replace (S d0 <=? d0)%nat with false by (symmetry; apply Nat.leb_gt; lia).
           rewrite Nat.leb_refl. replace (d0 <? d0 + S n)%nat with true
             by (symmetry; apply Nat.ltb_lt; lia).
           rewrite Hx. reflexivity.
        -- replace (j <? S d0 + n)%nat with (j <? d0 + S n)%nat by (f_equal; lia).
           replace (S d0 <=? j)%nat with (d0 <=? j)%nat; [reflexivity |].
           destruct (Nat.leb_spec d0 j), (Nat.leb_spec (S d0) j); (reflexivity || lia).
Qed.

Lemma lastClaimant_Some (tbl : list Static) (n : nat) :
  forall d0 j d, lastClaimant tbl d0 n j = Some d ->
    (d0 <= d < d0 + n)%nat /\ claims tbl d j = true
    /\ forall d', (d < d' < d0 + n)%nat -> claims tbl d' j = false.
Proof.
  induction n as [| n IH]; intros d0 j d H; cbn [lastClaimant] in H; [discriminate |].
  destruct (lastClaimant tbl (S d0) n j) as [d1 |] eqn:E.
  - injection H as ->. destruct (IH _ _ _ E) as (A & B & C).
    split; [lia |]. split; [exact B |]. intros d' Hd'. apply C. lia.
  - destruct (claims tbl d0 j) eqn:Cl; [| discriminate]. injection H as <-.
    split; [lia |]. split; [exact Cl |]. intros d' Hd'.
    clear IH Cl. revert d0 E Hd'. induction n as [| n IHn]; intros d0 E Hd'; [lia |].
    cbn [lastClaimant] in E.
    destruct (lastClaimant tbl (S (S d0)) n j) eqn:E2; [discriminate |].
    destruct (claims tbl (S d0) j) eqn:Cl; [discriminate |].
    destruct (decide (d' = S d0)) as [-> | N]; [exact Cl |].
    apply (IHn (S d0)); [exact E2 | lia].
Qed.

(** ** updatePaths and scanNestedRpfs keep the links *)

Lemma skeleton_alter (f : RpfEntry -> RpfEntry) (i : nat) (es : list RpfEntry) :
  (forall e, skeleton (f e) = skeleton e) -> map skeleton (alter f i es) = map skeleton es.
Proof.
  intros H. apply list_eq. intros j.
  change (map skeleton) with (fmap (M := list) skeleton).
  rewrite !list_lookup_fmap, list_lookup_alter.
  destruct (decide (i = j)) as [-> |]; [| reflexivity].
  destruct (es !! j); cbn; [now rewrite H | reflexivity].
Qed.

Lemma skeleton_lookup (es es' : list RpfEntry) (j : nat) :
  map skeleton es' = map skeleton es -> skeleton <$> es' !! j = skeleton <$> es !! j.
Proof.
  intros H. change (map skeleton) with (fmap (M := list) skeleton) in H.
  now rewrite <- !list_lookup_fmap, H.
Qed.

Lemma skeleton_length (es es' : list RpfEntry) :
  map skeleton es' = map skeleton es -> length es' = length es.
Proof. intros H. apply (f_equal length) in H. now rewrite !length_map in H. Qed.

Lemma skeleton_static (es es' : list RpfEntry) :
  map skeleton es' = map skeleton es -> map static es' = map static es.
Proof.
  intros H. apply list_eq. intros j. rewrite !lookup_static.
  pose proof (skeleton_lookup es es' j H) as E.
  destruct (es' !! j), (es !! j); unfold skeleton in *; cbn in *; congruence.
Qed.

Lemma skeleton_parentAt (es es' : list RpfEntry) (j : nat) :
  map skeleton es' = map skeleton es -> parentAt es' j = parentAt es j.
Proof.
  intros H. unfold parentAt. pose proof (skeleton_lookup es es' j H) as E.
  destruct (es' !! j), (es !! j); unfold skeleton in *; cbn in *; congruence.
Qed.

Lemma skeleton_directoryAt (es es' : list RpfEntry) (j : nat) :
  map skeleton es' = map skeleton es -> directoryAt es' j = directoryAt es j.
Proof.
  intros H. unfold directoryAt. pose proof (skeleton_lookup es es' j H) as E.
  destruct (es' !! j), (es !! j); unfold skeleton in *; cbn in *; congruence.
Qed.

Lemma foldM_inv {A S : Type} (P : S -> Prop) (f : S -> A -> result S) (l : list A) :
  (forall s a s', P s -> f s a = Ok s' -> P s') ->
  forall s s', P s -> foldM f l s = Ok s' -> P s'.
Proof.
  intros Hf. induction l as [| a l IH]; intros s s' Hs H; cbn [foldM] in H.
  - now injection H as <-.
  - destruct (f s a) as [s1 |] eqn:E; cbn [rbind] in H; [| discriminate].
    eapply IH; [eapply Hf; eassumption | exact H].
Qed.

Lemma fold_left_inv {A S : Type} (P : S -> Prop) (f : S -> A -> S) (l : list A) :
  (forall s a, P s -> P (f s a)) -> forall s, P s -> P (fold_left f l s).
Proof.
  intros Hf. induction l as [| a l IH]; intros s Hs; cbn [fold_left]; [exact Hs |].
  apply IH, Hf, Hs.
Qed.

Lemma updatePaths_skeleton (fuel : nat) :
  forall (dir : nat) (p : string) (es es' : list RpfEntry),
    updatePaths fuel dir p es = Ok es' -> map skeleton es' = map skeleton es.
Proof.
  induction fuel as [| fuel IH]; intros dir p es es' H; cbn [updatePaths] in H;
    [discriminate |].
  destruct (foldM _ (directoriesAt es dir) es) as [es1 |] eqn:E; cbn [rbind] in H;
    [| discriminate].
  injection H as <-.
  assert (S1 : map skeleton es1 = map skeleton es).
  { revert E. apply (foldM_inv (fun s => map skeleton s = map skeleton es)); [| reflexivity].
    intros s a s' Hs Hstep. apply IH in Hstep. rewrite Hstep, <- Hs.
    now apply skeleton_alter. }
  apply (fold_left_inv (fun s => map skeleton s = map skeleton es)); [| exact S1].
  intros s a Hs. rewrite <- Hs. now apply skeleton_alter.
Qed.

Lemma scanNestedStep_skeleton (nested : string -> Z -> result RpfFile)
    (st : list RpfEntry * list RpfFile) (i : nat) :
  map skeleton (fst (scanNestedStep nested st i)) = map skeleton (fst st).
Proof.
  unfold scanNestedStep. destruct (fst st !! i) as [e |]; [| reflexivity].
  destruct (cls e) as [d | f t | f s g]; try reflexivity.
  destruct (nested _ _); [| reflexivity]. cbn [fst]. now apply skeleton_alter.
Qed.

Lemma scanNestedRpfs_skeleton (nested : string -> Z -> result RpfFile)
    (es : list RpfEntry) (rt : option nat) (es' : list RpfEntry) (cs : list RpfFile) :
  scanNestedRpfs nested es rt = Ok (es', cs) -> map skeleton es' = map skeleton es.
Proof.
  unfold scanNestedRpfs. destruct rt as [r |]; [| now intros [= <- <-]].
  destruct (findRpfFiles _ es r) as [fs |]; cbn [rbind]; [| discriminate].
  intros [= H]. apply (f_equal fst) in H. cbn [fst] in H. rewrite <- H.
  apply (fold_left_inv (fun st => map skeleton (fst st) = map skeleton es)); [| reflexivity].
  intros st i Hs. now rewrite scanNestedStep_skeleton.
Qed.

(** ** Entries as parseEntries reads them *)

Lemma readEntry_fresh (entriesData namesData : list Z) (i : Z) (e : RpfEntry) :
  readEntry entriesData namesData i = Ok e ->
  parent e = None
  /\ forall x, dirFields e = Some x ->
       directories x = [] /\ files x = [] /\ entriesCount x = IDENT.
Proof.
  unfold readEntry. destruct (getUint32 entriesData (i * 16 + 8)) as [h2 |] eqn:Eh;
    cbn [rbind]; [| discriminate].
  unfold classify. destruct (Z.eqb_spec h2 IDENT) as [-> | N].
  - unfold readDirectoryEntry. destruct (getUint32 entriesData (i * 16)); cbn [rbind];
      [| discriminate].
    destruct (getUint32 entriesData (i * 16 + 4)); cbn [rbind]; [| discriminate].
    rewrite Eh. cbn [rbind].
    destruct (getUint32 entriesData (i * 16 + 12)) as [h3 |]; cbn [rbind]; [| discriminate].
    destruct (negb (h3 =? IDENT)); cbn [rbind]; [discriminate |].
    intros [= <-]. split; [reflexivity |]. intros x [= <-]. now repeat split.
  - destruct (JS.and h2 2147483648 =? 0).
    + unfold readBinaryFileEntry.
      destruct (getBigUint64 _ _); cbn [rbind]; [| discriminate].
      destruct (getBigUint64 _ _); cbn [rbind]; [| discriminate].
      destruct (negb _); cbn [rbind]; [discriminate |].
      intros H. apply (f_equal (fun r => match r with Ok a => Some a | Err _ => None end)) in H.
      cbv beta iota in H. apply (inj Some) in H. subst e.
      split; [reflexivity |]. intros x Hx. discriminate Hx.
    + unfold readResourceFileEntry.
      destruct (getBigUint64 _ _); cbn [rbind]; [| discriminate].
      destruct (getBigUint64 _ _); cbn [rbind]; [| discriminate].
      intros H. apply (f_equal (fun r => match r with Ok a => Some a | Err _ => None end)) in H.
      cbv beta iota in H. apply (inj Some) in H. subst e.
      split; [reflexivity |]. intros x Hx. discriminate Hx.
Qed.

Lemma readEntries_spec (entriesData namesData : list Z) (n : nat) :
  forall (i0 : Z) (es : list RpfEntry),
    readEntries entriesData namesData n i0 = Ok es ->
    length es = n
    /\ forall (k : nat) (e : RpfEntry), es !! k = Some e ->
         readEntry entriesData namesData (i0 + Z.of_nat k) = Ok e.
Proof.
  induction n as [| n IH]; intros i0 es H; cbn [readEntries] in H.
  - injection H as <-. split; [reflexivity |]. intros k e Hk. discriminate.
  - destruct (readEntry entriesData namesData i0) as [e0 |] eqn:E0; cbn [rbind] in H;
      [| discriminate].
    destruct (readEntries entriesData namesData n (i0 + 1)) as [rest |] eqn:E1;
      cbn [rbind] in H; [| discriminate].
    injection H as <-. destruct (IH _ _ E1) as [L R]. split; [cbn; now rewrite L |].
    intros [| k] e Hk; rewrite lookup_cons in Hk.
    + injection Hk as <-. now rewrite Z.add_0_r.
    + apply R in Hk. rewrite <- Hk. f_equal. lia.
Qed.

End Linking.

(** * scanStructure, stage by stage *)

Section Open.

Import Rpf Hierarchy.

Lemma scanStructureWith_opened (nested : string -> Z -> result RpfFile)
    (disk : gmap string (list Z)) (path nm : string) (pos : Z) (rpf : RpfFile) :
  scanStructureWith nested disk path nm pos = Ok rpf -> opened nested disk path nm pos rpf.
Proof.
  unfold scanStructureWith. destruct (disk !! path) as [content |]; [| discriminate].
  destruct (readSync content 16 pos) as [hb |]; cbn [rbind]; [| discriminate].
  destruct (getUint32 _ 0) as [v |]; cbn [rbind]; [| discriminate].
  destruct (getUint32 _ 4) as [ec |]; cbn [rbind]; [| discriminate].
  destruct (getUint32 _ 8) as [nl |]; cbn [rbind]; [| discriminate].
  destruct (getUint32 _ 12) as [enc |]; cbn [rbind]; [| discriminate].
  destruct (Z.eqb_spec v 0x52504637) as [-> | N]; cbn [negb]; [| discriminate].
  destruct (readSync content (ec * 16) _) as [eb0 |]; cbn [rbind]; [| discriminate].
  destruct (readSync content nl _) as [nb0 |]; cbn [rbind]; [| discriminate].
  destruct (if enc =? RpfEncryption.AES then _ else _) as [eb nb]. cbn [fst snd].
  generalize (Z.of_nat (length content)) (enc =? RpfEncryption.AES)
             (enc =? RpfEncryption.NG). intros size aes ng.
  unfold parseEntries.
  destruct (readEntries eb nb (Z.to_nat ec) 0) as [es0 |] eqn:E0;
    cbn [rbind]; [| discriminate].
  unfold buildHierarchy.
  destruct (linkLoop (length es0) 0 es0) as [es1 |] eqn:E1; cbn [rbind]; [| discriminate].
  destruct (rootOf es1) as [r |] eqn:Er.
  - destruct (updatePaths _ r _ _) as [es2 |] eqn:E2; cbn [rbind]; [| discriminate].
    cbn [fst snd].
    destruct (scanNestedRpfs nested es2 (Some r)) as [[es3 cs] |] eqn:E3; cbn [rbind];
      [| discriminate].
    intros H. injection H as H. subst rpf. split; try reflexivity. cbn.
    exists eb, nb, es0, es1, es2. repeat split; try assumption.
    + now rewrite Er.
    + apply updatePaths_skeleton in E2. rewrite E2. now apply skeleton_alter.
  - cbn [rbind fst snd].
    destruct (scanNestedRpfs nested es1 None) as [[es3 cs] |] eqn:E3; cbn [rbind];
      [| discriminate].
    intros H. injection H as H. subst rpf. split; try reflexivity. cbn.
    exists eb, nb, es0, es1, es1. repeat split; try assumption.
    now rewrite Er.
Qed.

Lemma scanStructure_opened (depth : nat) (disk : gmap string (list Z))
    (path nm : string) (pos : Z) (rpf : RpfFile) :
  scanStructure depth disk path nm pos = Ok rpf ->
  exists nested, opened nested disk path nm pos rpf.
Proof.
  destruct depth; cbn [scanStructure]; intros H; eexists;
    apply scanStructureWith_opened; exact H.
Qed.

(* the parent of an entry of an opened archive is the last directory whose
   range holds it, and an entry that no range holds has none *)
Lemma parent_after_open (depth : nat) (disk : gmap string (list Z))
    (path nm : string) (pos : Z) (rpf : RpfFile) :
  scanStructure depth disk path nm pos = Ok rpf ->
  forall j : nat,
    parentAt (allEntries rpf) j
    = lastClaimant (map static (allEntries rpf)) 0 (length (allEntries rpf)) j.
Proof.
  intros H j. apply scanStructure_opened in H as [nested [_ _ _ _ St]].
  destruct St as (eb & nb & es0 & es1 & es2 & E0 & E1 & Er & S2 & E3).
  apply scanNestedRpfs_skeleton in E3. rewrite S2 in E3.
  apply readEntries_spec in E0 as [L0 R0].
  apply linkLoop_spec in E1 as [L1 S1 _ P1 _].
  rewrite (skeleton_static _ _ E3), S1, (skeleton_length _ _ E3), L1.
  rewrite (skeleton_parentAt _ _ j E3), P1.
  destruct (lastClaimant (map static es0) 0 (length es0) j); [reflexivity |].
  unfold parentAt. destruct (es0 !! j) as [e |] eqn:He; [| reflexivity].
  exact (proj1 (readEntry_fresh _ _ _ _ (R0 j e He))).
Qed.

(* the header of an archive that opened, and the table that was allocated
   for its entries *)
Lemma opened_header (nested : string -> Z -> result RpfFile)
    (disk : gmap string (list Z)) (path nm : string) (pos : Z) (rpf : RpfFile) :
  scanStructureWith nested disk path nm pos = Ok rpf ->
  exists content headerBuffer,
    disk !! path = Some content
    /\ readSync content 16 pos = Ok headerBuffer
    /\ getUint32 headerBuffer 0 = Ok 0x52504637
    /\ getUint32 headerBuffer 4 = Ok (entryCount rpf)
    /\ getUint32 headerBuffer 8 = Ok (namesLength rpf)
    /\ getUint32 headerBuffer 12 = Ok (encryption rpf)
    /\ entryCount rpf * 16 <= kMaxLength.
Proof.
  unfold scanStructureWith. destruct (disk !! path) as [content |]; [| discriminate].
  destruct (readSync content 16 pos) as [hb |] eqn:Rh; cbn [rbind]; [| discriminate].
  destruct (getUint32 _ 0) as [v |] eqn:E0; cbn [rbind]; [| discriminate].
  destruct (getUint32 _ 4) as [ec |] eqn:E4; cbn [rbind]; [| discriminate].
  destruct (getUint32 _ 8) as [nl |] eqn:E8; cbn [rbind]; [| discriminate].
  destruct (getUint32 _ 12) as [enc |] eqn:E12; cbn [rbind]; [| discriminate].
  destruct (Z.eqb_spec v 0x52504637) as [-> | N]; cbn [negb]; [| discriminate].
  destruct (readSync content (ec * 16) _) as [eb0 |] eqn:Re; cbn [rbind]; [| discriminate].
  destruct (readSync content nl _) as [nb0 |]; cbn [rbind]; [| discriminate].
  destruct (if enc =? RpfEncryption.AES then _ else _) as [eb nb]. cbn [fst snd].
  destruct (parseEntries path ec eb nb) as [parsed |]; cbn [rbind]; [| discriminate].
  destruct (scanNestedRpfs nested (fst parsed) (snd parsed)) as [scanned |];
    cbn [rbind]; [| discriminate].
  intros H. injection H as H. subst rpf. exists content, hb.
  cbn [entryCount namesLength encryption].
  assert (B : ec * 16 <= kMaxLength).
  { unfold readSync in Re. destruct (Z.ltb_spec kMaxLength (ec * 16));
      [now rewrite orb_true_r in Re | lia]. }
  now repeat split.
Qed.

End Open.

(** * Nested archives and the registry *)

Section NestedLemmas.

Import Rpf Hierarchy Nested RpfManager.

(* every candidate of the scanner is a file of some directory, named *.rpf *)
Lemma findRpfFiles_names (fuel : nat) (es : list RpfEntry) :
  forall r fs, findRpfFiles fuel es r = Ok fs -> forall i, i ∈ fs -> isRpfName es i = true.
Proof.
  induction fuel as [| fuel IH]; intros r fs H; cbn [findRpfFiles] in H; [discriminate |].
  revert H.
  apply (foldM_inv (fun acc => forall i, i ∈ acc -> isRpfName es i = true)).
  - intros acc sub acc' Hacc Hstep.
    destruct (findRpfFiles fuel es sub) as [l |] eqn:E; cbn [rbind] in Hstep; [| discriminate].
    injection Hstep as <-. intros i Hi. apply elem_of_app in Hi as [Hi | Hi];
      [now apply Hacc | now apply (IH sub l E)].
  - intros i Hi. now apply list_elem_of_filter in Hi as [Hi _].
Qed.

Lemma tryOpen_static (nested : string -> Z -> result RpfFile) (es es' : list RpfEntry)
    (i : nat) :
  map static es' = map static es -> tryOpen nested es' i = tryOpen nested es i.
Proof.
  intros H. unfold tryOpen.
  assert (E : static <$> es' !! i = static <$> es !! i) by (now rewrite <- !lookup_static, H).
  destruct (es' !! i) as [[no nm nl p pa fi c] |], (es !! i) as [[no' nm' nl' p' pa' fi' c'] |];
    cbn in E; try discriminate; [| reflexivity].
  injection E as -> -> -> E. cbn [cls name].
  destruct c as [d | f t | f s g], c' as [d' | f' t' | f' s' g']; cbn in E;
    try discriminate; try reflexivity.
  now injection E as -> ->.
Qed.

Lemma scanNestedStep_children (nested : string -> Z -> result RpfFile)
    (st : list RpfEntry * list RpfFile) (i : nat) :
  snd (scanNestedStep nested st i)
  = snd st ++ match tryOpen nested (fst st) i with Some c => [c] | None => [] end.
Proof.
  unfold scanNestedStep, tryOpen. destruct (fst st !! i) as [e |]; [| now rewrite app_nil_r].
  destruct (cls e) as [d | f t | f s g]; try now rewrite app_nil_r.
  destruct (nested _ _); [reflexivity | now rewrite app_nil_r].
Qed.

Lemma omap_step {A B : Type} (f : A -> option B) (a : A) (l : list A) :
  omap f (a :: l) = match f a with Some b => b :: omap f l | None => omap f l end.
Proof. reflexivity. Qed.

Lemma scanNested_fold (nested : string -> Z -> result RpfFile) (es : list RpfEntry)
    (fs : list nat) :
  forall st, map static (fst st) = map static es ->
    snd (fold_left (scanNestedStep nested) fs st) = snd st ++ omap (tryOpen nested es) fs.
Proof.
  induction fs as [| i fs IH]; intros st Hst; cbn [fold_left].
  - apply eq_sym, app_nil_r.
  - rewrite IH.
    + rewrite scanNestedStep_children, (tryOpen_static _ _ _ i Hst), omap_step.
      destruct (tryOpen nested es i); rewrite <- app_assoc; reflexivity.
    + rewrite <- Hst. apply skeleton_static, scanNestedStep_skeleton.
Qed.

(* the children are the candidates that are binary entries and whose archive
   opened, in the order of the candidates *)
Lemma scanNestedRpfs_children (nested : string -> Z -> result RpfFile)
    (es es' : list RpfEntry) (rt : option nat) (cs : list RpfFile) :
  scanNestedRpfs nested es rt = Ok (es', cs) ->
  match rt with
  | None => cs = []
  | Some r => exists fs, findRpfFiles (stackFuel es) es r = Ok fs
                         /\ cs = omap (tryOpen nested es) fs
  end.
Proof.
  unfold scanNestedRpfs. destruct rt as [r |]; [| now intros [= _ <-]].
  destruct (findRpfFiles _ es r) as [fs |]; cbn [rbind]; [| discriminate].
  intros [= H]. exists fs. split; [reflexivity |].
  apply (f_equal snd) in H. cbn [snd] in H. rewrite <- H.
  now rewrite (scanNested_fold nested es fs (es, [])).
Qed.



End NestedLemmas.

Section NestedClaims.

Import Rpf Hierarchy Nested RpfManager Scenario NestScenario.

Lemma scanStructure_nestedAt (depth : nat) (disk : gmap string (list Z))
    (path nm : string) (pos : Z) :
  scanStructure depth disk path nm pos
  = scanStructureWith (nestedAt depth disk path) disk path nm pos.
Proof. destruct depth; reflexivity. Qed.




Lemma tryOpen_spec (nested : string -> Z -> result RpfFile) (es : list RpfEntry)
    (i : nat) (child : RpfFile) :
  tryOpen nested es i = Some child
  <-> exists e f t, es !! i = Some e /\ cls e = RpfBinaryFileEntry f t
                    /\ nested (name e) (fileOffset f * 512) = Ok child.
Proof.
  unfold tryOpen. split.
  - destruct (es !! i) as [e |]; [| discriminate].
    destruct (cls e) as [d | f t | f s g] eqn:Ec; try discriminate.
    destruct (nested (name e) (fileOffset f * 512)) as [c |] eqn:En; [| discriminate].
    intros [= ->]. exists e, f, t. now repeat split.
  - intros (e & f & t & -> & -> & ->). reflexivity.
Qed.

(* what the scanner leaves in the archive object *)
Lemma scanNested_children (depth : nat) (disk : gmap string (list Z)) (rpf rpf' : RpfFile) :
  scanNested depth disk rpf = Ok rpf' ->
  root rpf' = root rpf /\ filePath rpf' = filePath rpf
  /\ map skeleton (allEntries rpf') = map skeleton (allEntries rpf)
  /\ match root rpf with
     | None => children rpf' = children rpf
     | Some r =>
         exists fs,
           findRpfFiles (stackFuel (allEntries rpf)) (allEntries rpf) r = Ok fs
           /\ children rpf'
              = children rpf
                ++ omap (tryOpen (scanStructure depth disk (filePath rpf)) (allEntries rpf)) fs
     end.
Proof.
  unfold scanNested. destruct (root rpf) as [r |] eqn:Er.
  - destruct (findRpfFiles _ (allEntries rpf) r) as [fs |] eqn:Ef; cbn [rbind];
      [| discriminate].
    intros H. injection H as <-. cbn [root filePath children allEntries].
    split; [reflexivity |]. split; [reflexivity |]. split.
    + apply (fold_left_inv
               (fun st => map skeleton (fst st) = map skeleton (allEntries rpf)));
        [| reflexivity].
      intros st i Hs. now rewrite scanNestedStep_skeleton.
    + exists fs. split; [reflexivity |].
      now rewrite (scanNested_fold _ (allEntries rpf) fs (allEntries rpf, children rpf)).
  - intros H. injection H as <-. now rewrite ?Er.
Qed.




End NestedClaims.

(** * An archive that opens has no directory *)

Section OpenedTree.

Import Rpf Hierarchy Scenario Nested RpfManager.

(* what open leaves in a directory entry *)
Lemma directory_after_open (depth : nat) (disk : gmap string (list Z))
    (path nm : string) (pos : Z) (rpf : RpfFile) :
  scanStructure depth disk path nm pos = Ok rpf ->
  length (allEntries rpf) = Z.to_nat (entryCount rpf)
  /\ forall (d : nat) (x : DirectoryFields),
       directoryAt (allEntries rpf) d = Some x ->
       entriesCount x = IDENT
       /\ (Z.to_nat (entriesIndex x) + Z.to_nat (entriesCount x)
           <= length (allEntries rpf))%nat
       /\ directories x
          = List.filter (isDirS (map static (allEntries rpf)))
              (seq (Z.to_nat (entriesIndex x)) (Z.to_nat (entriesCount x)))
       /\ files x
          = List.filter (fun k => negb (isDirS (map static (allEntries rpf)) k))
              (seq (Z.to_nat (entriesIndex x)) (Z.to_nat (entriesCount x))).
Proof.
  intros H. apply scanStructure_opened in H as [nested [_ _ _ _ St]].
  destruct St as (eb & nb & es0 & es1 & es2 & E0 & E1 & Er & S2 & E3).
  apply scanNestedRpfs_skeleton in E3. rewrite S2 in E3. clear S2 es2 Er.
  apply readEntries_spec in E0 as [L0 R0].
  apply linkLoop_spec in E1 as [L1 S1 B1 P1 C1].
  rewrite (skeleton_length _ _ E3), L1.
  split; [exact L0 |]. intros d x Hx.
  rewrite (skeleton_static _ _ E3), S1.
  rewrite (skeleton_directoryAt _ _ d E3), C1 in Hx.
  assert (Hd : (d < length es0)%nat).
  { destruct (Nat.lt_ge_cases d (length es0)) as [? | G]; [assumption |].
    unfold directoryAt in Hx. rewrite (lookup_ge_None_2 es0 d G) in Hx.
    destruct (_ && _); discriminate. }
  replace ((0 <=? d)%nat && (d <? 0 + length es0)%nat) with true in Hx
    by (symmetry; apply andb_true_iff; split; [apply Nat.leb_le | apply Nat.ltb_lt]; lia).
  destruct (directoryAt es0 d) as [x0 |] eqn:Hx0; [| discriminate].
  injection Hx as <-. cbn [withChildren entriesIndex entriesCount directories files].
  assert (Fr : directories x0 = [] /\ files x0 = [] /\ entriesCount x0 = IDENT).
  { unfold directoryAt in Hx0. destruct (es0 !! d) as [e |] eqn:He; [| discriminate].
    destruct (readEntry_fresh _ _ _ _ (R0 d e He)) as [_ F]. now apply F. }
  destruct Fr as (Fd & Ff & Fc). rewrite Fd, Ff. cbn [app].
  split; [exact Fc |]. split; [| split; reflexivity].
  pose proof (rangeOf_directoryAt es0 d) as R. rewrite Hx0 in R. cbn in R.
  destruct (B1 d _ _ ltac:(lia) R) as [Z0 | Bd]; [| exact Bd].
  rewrite Fc in Z0. unfold IDENT in Z0. lia.
Qed.

Lemma findLoop_none (es : list RpfEntry) (parts : list string) :
  parts <> [] -> findLoop es None parts = None.
Proof. destruct parts; [congruence | reflexivity]. Qed.

Lemma splitPath_nonempty (s : string) : splitPath s <> [].
Proof.
  induction s as [| c s IH]; cbn [splitPath]; [discriminate |].
  destruct (isSeparator c); [discriminate |]. now destruct (splitPath s).
Qed.

Lemma findEntry_without_root (rpf : RpfFile) (p : string) :
  root rpf = None -> findEntry rpf p = None.
Proof.
  intros H. unfold findEntry. rewrite H. apply findLoop_none, splitPath_nonempty.
Qed.

(* an archive with fewer than 0x7FFFFF00 entries has no directory *)
Lemma small_archive_flat (depth : nat) (disk : gmap string (list Z))
    (path nm : string) (pos : Z) (rpf : RpfFile) :
  scanStructure depth disk path nm pos = Ok rpf ->
  entryCount rpf < IDENT ->
  (forall d, directoryAt (allEntries rpf) d = None)
  /\ root rpf = None /\ children rpf = [].
Proof.
  intros H Hc. destruct (directory_after_open _ _ _ _ _ _ H) as [L D].
  assert (N : forall d, directoryAt (allEntries rpf) d = None).
  { intros d. destruct (directoryAt (allEntries rpf) d) as [x |] eqn:Hx; [| reflexivity].
    destruct (D d x Hx) as (Ec & Bd & _). rewrite Ec, L in Bd. unfold IDENT in *. lia. }
  split; [exact N |].
  rewrite scanStructure_nestedAt in H.
  apply scanStructureWith_opened in H as [_ _ _ _ St].
  destruct St as (eb & nb & es0 & es1 & es2 & _ & _ & Er & S2 & E3).
  pose proof (scanNestedRpfs_skeleton _ _ _ _ _ E3) as Sk.
  assert (Rn : root rpf = None).
  { rewrite Er. unfold rootOf. specialize (N 0%nat).
    rewrite (skeleton_directoryAt _ _ 0%nat Sk), (skeleton_directoryAt _ _ 0%nat S2) in N.
    unfold directoryAt in N. destruct (es1 !! 0%nat) as [e |]; [| reflexivity].
    cbn in N. unfold isDirectory. unfold dirFields in N. now destruct (cls e). }
  split; [exact Rn |]. rewrite Rn in E3. cbn in E3. now injection E3 as _ <-.
Qed.

(* The table of an archive that opened fits a buffer, which has fewer bytes
   than the range of a directory has entries: the archive has no directory. *)
Lemma opened_is_flat (depth : nat) (disk : gmap string (list Z))
    (path nm : string) (pos : Z) (rpf : RpfFile) :
  scanStructure depth disk path nm pos = Ok rpf ->
  entryCount rpf < IDENT
  /\ (forall d, directoryAt (allEntries rpf) d = None)
  /\ root rpf = None /\ children rpf = [].
Proof.
  intros H. pose proof H as H'. rewrite scanStructure_nestedAt in H'.
  apply opened_header in H' as (content & hb & _ & _ & _ & _ & _ & _ & B).
  assert (Hc : entryCount rpf < IDENT) by (unfold kMaxLength, IDENT in *; lia).
  split; [exact Hc |]. now apply (small_archive_flat _ _ _ _ _ _ H).
Qed.

(** X2. An archive that opens with fewer than 0x7FFFFF00 entries has no
    directory entry at all: directory records are told by the word that is
    also stored as their entries count.  Such an archive has no root and no
    nested archive, none of its entries has a parent, and findEntry finds
    nothing in it, whatever the path. *)
Theorem small_archive_is_flat (depth : nat) (disk : gmap string (list Z))
    (path nm : string) (pos : Z) (rpf : RpfFile) :
  scanStructure depth disk path nm pos = Ok rpf ->
  entryCount rpf < 0x7FFFFF00 ->
  (forall d, directoryAt (allEntries rpf) d = None)
  /\ (forall j, parentAt (allEntries rpf) j = None)
  /\ root rpf = None /\ children rpf = []
  /\ forall p, findEntry rpf p = None.
Proof.
  intros H Hc. destruct (small_archive_flat _ _ _ _ _ _ H Hc) as (N & Rn & Cn).
  split; [exact N |]. split; [| split; [exact Rn | split; [exact Cn |]]].
  - intros j. rewrite (parent_after_open _ _ _ _ _ _ H).
    destruct (lastClaimant _ 0 _ j) as [d |] eqn:El; [| reflexivity].
    apply lastClaimant_Some in El as (_ & Cl & _). unfold claims in Cl.
    specialize (N d). pose proof (rangeOf_directoryAt (allEntries rpf) d) as R.
    rewrite N in R. cbn in R. rewrite R in Cl. discriminate.
  - intros p. now apply findEntry_without_root.
Qed.

Lemma small_archive_is_flat_witness :
  exists rpf,
    scanStructure 2 (diskOf "f.rpf" flatArchive) "f.rpf" "f.rpf" 0 = Ok rpf
    /\ entryCount rpf < 0x7FFFFF00
    /\ (forall d, directoryAt (allEntries rpf) d = None)
    /\ (forall j, parentAt (allEntries rpf) j = None)
    /\ root rpf = None /\ children rpf = []
    /\ forall p, findEntry rpf p = None.
Proof.
  destruct (scanStructure 2 (diskOf "f.rpf" flatArchive) "f.rpf" "f.rpf" 0)
    as [rpf | err] eqn:E; [| vm_compute in E; discriminate].
  exists rpf.
  assert (Hc : entryCount rpf < 0x7FFFFF00)
    by (vm_compute in E; injection E as <-; reflexivity).
  split; [reflexivity |]. split; [exact Hc |].
  exact (small_archive_is_flat 2 (diskOf "f.rpf" flatArchive) "f.rpf" "f.rpf" 0 rpf E Hc).
Defined.

End OpenedTree.

(** * Directory ranges of an opened archive *)

Section RangeClaims.

Import Rpf Hierarchy Scenario.



End RangeClaims.

(** * buildHierarchy on a table *)

Section BuildTree.

Import Rpf Hierarchy TreeScenario.

Lemma adopt_error (dir : nat) (n : nat) :
  forall (i : nat) (es : list RpfEntry) (err : error),
    adopt dir i n es = Err err -> err = TypeError.
Proof.
  induction n as [| n IH]; intros i es err H; cbn [adopt] in H; [discriminate |].
  destruct (es !! i) as [child |]; [now apply IH in H | now injection H as <-].
Qed.

(* the links are set or a child is missing: buildHierarchy knows no other
   failure before it sets the paths *)
Lemma linkLoop_error (n : nat) :
  forall (d0 : nat) (es : list RpfEntry) (err : error),
    linkLoop n d0 es = Err err -> err = TypeError.
Proof.
  induction n as [| n IH]; intros d0 es err H; cbn [linkLoop] in H; [discriminate |].
  destruct (adoptRange d0 es) as [es1 |] eqn:E; cbn [rbind] in H.
  - now apply IH in H.
  - injection H as <-. unfold adoptRange in E.
    destruct (es !! d0) as [e0 |]; [| discriminate].
    destruct (cls e0); try discriminate. now apply adopt_error in E.
Qed.

Lemma rootOf_static (es es' : list RpfEntry) :
  map static es' = map static es -> rootOf es' = rootOf es.
Proof.
  intros H. unfold rootOf.
  assert (E : static <$> es' !! 0%nat = static <$> es !! 0%nat)
    by (now rewrite <- !lookup_static, H).
  destruct (es' !! 0%nat) as [a |], (es !! 0%nat) as [b |]; cbn in E; try discriminate;
    [| reflexivity].
  assert (E' : static a = static b) by congruence.
  apply (f_equal s_class) in E'. cbn in E'. unfold isDirectory.
  destruct (cls a), (cls b); cbn in E'; (reflexivity || discriminate).
Qed.

(* what buildHierarchy has done to a table of fresh entries when it returns *)
Lemma buildHierarchy_spec (filePath : string) (es es' : list RpfEntry) (rt : option nat) :
  (forall j e, es !! j = Some e ->
     parent e = None
     /\ forall x, dirFields e = Some x -> directories x = [] /\ files x = []) ->
  buildHierarchy filePath es = Ok (es', rt) ->
  let tbl := map static es in
  map static es' = tbl
  /\ rt = rootOf es
  /\ (forall d s c, tbl !! d ≫= rangeOf = Some (s, c) -> c = 0%nat \/ (s + c <= length es)%nat)
  /\ (forall j, parentAt es' j = lastClaimant tbl 0 (length tbl) j)
  /\ (forall d x, directoryAt es' d = Some x ->
        let range := seq (Z.to_nat (entriesIndex x)) (Z.to_nat (entriesCount x)) in
        directories x = List.filter (isDirS tbl) range
        /\ files x = List.filter (fun k => negb (isDirS tbl k)) range).
Proof.
  intros F H tbl. unfold buildHierarchy in H.
  destruct (linkLoop (length es) 0 es) as [es1 |] eqn:E1; cbn [rbind] in H; [| discriminate].
  apply linkLoop_spec in E1 as [L1 S1 B1 P1 C1].
  assert (Sk : map skeleton es' = map skeleton es1 /\ rt = rootOf es1).
  { destruct (rootOf es1) as [r |].
    - destruct (updatePaths _ r _ _) as [es2 |] eqn:E2; cbn [rbind] in H; [| discriminate].
      injection H as <- <-. split; [| reflexivity].
      apply updatePaths_skeleton in E2. rewrite E2. now apply skeleton_alter.
    - injection H as <- <-. now split. }
  destruct Sk as [Sk ->].
  split; [now rewrite (skeleton_static _ _ Sk) |].
  split; [now apply rootOf_static |].
  split; [| split].
  - intros d s c Hd. apply (B1 d s c); [| exact Hd].
    destruct (Nat.lt_ge_cases d (length es)) as [? | G]; [lia |].
    unfold tbl in Hd. rewrite (lookup_ge_None_2 (map static es) d) in Hd
      by (now rewrite length_map). discriminate.
  - intros j. rewrite (skeleton_parentAt _ _ j Sk), P1. unfold tbl. rewrite length_map.
    destruct (lastClaimant (map static es) 0 (length es) j); [reflexivity |].
    unfold parentAt. destruct (es !! j) as [e |] eqn:He; [| reflexivity].
    exact (proj1 (F j e He)).
  - intros d x Hx. rewrite (skeleton_directoryAt _ _ d Sk), C1 in Hx.
    assert (Hd : (d < length es)%nat).
    { destruct (Nat.lt_ge_cases d (length es)) as [? | G]; [assumption |].
      unfold directoryAt in Hx. rewrite (lookup_ge_None_2 es d G) in Hx.
      destruct (_ && _); discriminate. }
    replace ((0 <=? d)%nat && (d <? 0 + length es)%nat) with true in Hx
      by (symmetry; apply andb_true_iff; split; [apply Nat.leb_le | apply Nat.ltb_lt]; lia).
    destruct (directoryAt es d) as [x0 |] eqn:Hx0; [| discriminate].
    injection Hx as <-. cbn [withChildren entriesIndex entriesCount directories files].
    unfold directoryAt in Hx0. destruct (es !! d) as [e |] eqn:He; [| discriminate].
    destruct (proj2 (F d e He) x0 Hx0) as [-> ->]. now split.
Qed.

(** X1. buildHierarchy on a table of entries as parseEntries pushes them (no
    parent, no child yet).  When it returns, the entries are the same but for
    their links and paths, the root is entry 0 if that is a directory, every
    range that is not empty lies in the table, the parent of an entry is the
    last directory, in table order, whose range holds it (none if no range
    does), and the directories and files of a directory are the directory
    entries and the file entries of its range, in table order.  It throws a
    TypeError when the range of some directory, not empty, leaves the table. *)
Theorem hierarchy_after_build (filePath : string) (es : list RpfEntry) :
  (forall j e, es !! j = Some e ->
     parent e = None
     /\ forall x, dirFields e = Some x -> directories x = [] /\ files x = []) ->
  let tbl := map static es in
  (forall es' rt, buildHierarchy filePath es = Ok (es', rt) ->
     map static es' = tbl
     /\ rt = rootOf es
     /\ (forall d s c, tbl !! d ≫= rangeOf = Some (s, c) ->
           c = 0%nat \/ (s + c <= length es)%nat)
     /\ (forall j, parentAt es' j = lastClaimant tbl 0 (length tbl) j)
     /\ (forall d x, directoryAt es' d = Some x ->
           let range := seq (Z.to_nat (entriesIndex x)) (Z.to_nat (entriesCount x)) in
           directories x = List.filter (isDirS tbl) range
           /\ files x = List.filter (fun k => negb (isDirS tbl k)) range))
  /\ ((exists d s c, tbl !! d ≫= rangeOf = Some (s, c)
                     /\ c <> 0%nat /\ (length es < s + c)%nat) ->
      buildHierarchy filePath es = Err TypeError).
Proof.
  intros F tbl. split; [intros es' rt H; now apply (buildHierarchy_spec filePath) |].
  intros (d & s & c & Hd & Hc & Hl). unfold buildHierarchy.
  destruct (linkLoop (length es) 0 es) as [es1 | err] eqn:E1; cbn [rbind].
  - apply linkLoop_spec in E1 as [_ _ B1 _ _].
    assert (Hlt : (d < length es)%nat).
    { destruct (Nat.lt_ge_cases d (length es)) as [? | G]; [assumption |].
      unfold tbl in Hd. rewrite (lookup_ge_None_2 (map static es) d) in Hd
        by (now rewrite length_map). discriminate. }
    destruct (B1 d s c ltac:(lia) Hd); lia.
  - now rewrite (linkLoop_error _ _ _ _ E1).
Qed.

Lemma handTable_fresh (tbl : list RpfEntry) :
  forallb (fun e => match parent e, cls e with
                    | None, RpfDirectoryEntry {| directories := []; files := [] |} => true
                    | None, RpfBinaryFileEntry _ _ => true
                    | None, RpfResourceFileEntry _ _ _ => true
                    | _, _ => false
                    end) tbl = true ->
  forall j e, tbl !! j = Some e ->
    parent e = None
    /\ forall x, dirFields e = Some x -> directories x = [] /\ files x = [].
Proof.
  intros H j e He. rewrite forallb_forall in H.
  specialize (H e (proj1 (list_elem_of_In _ _) (list_elem_of_lookup_2 _ _ _ He))).
  unfold dirFields. destruct (parent e); [discriminate |].
  split; [reflexivity |].
  destruct (cls e) as [[i c [| ? ?] [| ? ?]] | |]; try discriminate;
    intros x [= <-]; now split.
Qed.

(* On the table handTable the root gets the directory "sub" and the files
   "a.txt" and "B.rpf", "sub" gets the file "c.rpf".  On overlapTable the
   entries 2 and 3 lie in two ranges: both directories list them, and their
   parent is the later directory.  A directory whose range leaves the table
   makes buildHierarchy throw. *)
Lemma hierarchy_after_build_witness :
  (exists es',
      buildHierarchy "h.rpf" handTable = Ok (es', Some 0%nat)
      /\ map parent es' = [None; Some 0; Some 0; Some 0; Some 1]%nat
      /\ map dirFields es' !! 0%nat
         = Some (Some {| entriesIndex := 1; entriesCount := 3;
                         directories := [1%nat]; files := [2; 3]%nat |})
      /\ let tbl := map static handTable in
         map static es' = tbl
         /\ Some 0%nat = rootOf handTable
         /\ (forall d s c, tbl !! d ≫= rangeOf = Some (s, c) ->
               c = 0%nat \/ (s + c <= length handTable)%nat)
         /\ (forall j, parentAt es' j = lastClaimant tbl 0 (length tbl) j)
         /\ (forall d x, directoryAt es' d = Some x ->
               let range := seq (Z.to_nat (entriesIndex x)) (Z.to_nat (entriesCount x)) in
               directories x = List.filter (isDirS tbl) range
               /\ files x = List.filter (fun k => negb (isDirS tbl k)) range))
  /\ (exists es',
      buildHierarchy "o.rpf" overlapTable = Ok (es', Some 0%nat)
      /\ map parent es' = [None; Some 0; Some 1; Some 1]%nat
      /\ map (fun e => files <$> dirFields e) es'
         = [Some [2; 3]; Some [2; 3]; None; None]%nat)
  /\ buildHierarchy "t.rpf" [freshDirectory "" 1 3; freshFile "a.txt"] = Err TypeError.
Proof.
  split; [| split].
  - destruct (buildHierarchy "h.rpf" handTable) as [[es' rt] | err] eqn:E;
      [| vm_compute in E; discriminate].
    assert (Hrt : rt = Some 0%nat) by (vm_compute in E; now injection E as _ <-).
    subst rt. exists es'. split; [reflexivity |].
    split; [vm_compute in E; now injection E as <- |].
    split; [vm_compute in E; now injection E as <- |].
    exact (proj1 (hierarchy_after_build "h.rpf" handTable (handTable_fresh handTable eq_refl))
                 es' (Some 0%nat) E).
  - eexists. split; [vm_compute; reflexivity |]. split; reflexivity.
  - apply (proj2 (hierarchy_after_build "t.rpf" [freshDirectory "" 1 3; freshFile "a.txt"]
                    (handTable_fresh [freshDirectory "" 1 3; freshFile "a.txt"] eq_refl))).
    exists 0%nat, 1%nat, 3%nat. split; [reflexivity |]. cbn. lia.
Defined.

End BuildTree.

(** * The registry over archives without directories *)

Section SmallArchives.

Import Rpf Hierarchy Scenario Nested RpfManager Header.

Lemma addNestedRpfs_no_children (rpf : RpfFile) (base : string) (m : gmap string RpfFile) :
  children rpf = [] -> addNestedRpfs rpf base m = m.
Proof. destruct rpf. cbn. now intros ->. Qed.

Lemma small_top_level (depth : nat) (disk : gmap string (list Z)) (p nm : string)
    (rpf : RpfFile) :
  smallDisk disk -> scanStructure depth disk p nm 0 = Ok rpf ->
  root rpf = None /\ children rpf = [].
Proof.
  intros Sm H. pose proof H as H'. rewrite scanStructure_nestedAt in H'.
  apply opened_header in H' as (content & hb & Hc & Hh & _ & He & _).
  assert (Hw : (headerBuffer <-- readSync content 16 0 ;; getUint32 headerBuffer 4)
               = Ok (entryCount rpf)) by (now rewrite Hh).
  destruct (small_archive_flat _ _ _ _ _ _ H (Sm _ _ _ Hc Hw)) as (_ & R & C). now split.
Qed.

Lemma small_registry (depth : nat) (disk : gmap string (list Z)) (paths : list string) :
  smallDisk disk ->
  forall k rpf,
    scanForRpfFiles depth disk paths !! k = Some rpf
    <-> In k paths /\ scanStructure depth disk k (basename k) 0 = Ok rpf.
Proof.
  intros Sm. unfold scanForRpfFiles.
  induction paths as [| p paths IH] using rev_ind; intros k rpf.
  - cbn. rewrite lookup_empty. split; [discriminate | now intros []].
  - rewrite fold_left_app. cbn [fold_left]. unfold loadRpf at 1.
    rewrite in_app_iff. cbn [In].
    destruct (scanStructure depth disk p (basename p) 0) as [r |] eqn:Hp.
    + destruct (small_top_level _ _ _ _ _ Sm Hp) as [_ Cn].
      rewrite addNestedRpfs_no_children by exact Cn.
      rewrite lookup_insert. destruct (decide (p = k)) as [-> | N].
      * rewrite Hp. split; [intros [= <-]; split; [right; now left | reflexivity] |].
        now intros [_ [= <-]].
      * rewrite IH. split; [intros [? ?]; split; [now left | assumption] |].
        intros [[? | [? | []]] ?]; [now split | contradiction].
    + rewrite IH. split; [intros [? ?]; split; [now left | assumption] |].
      intros [[? | [<- | []]] Hk]; [now split |]. rewrite Hp in Hk. discriminate.
Qed.

(** X3. When every file of the disk announces fewer than 0x7FFFFF00 entries in
    its header, the registry that scanForRpfFiles builds holds exactly the
    scanned paths that open, each with the archive opened at offset 0 and no
    nested key; and on this registry listDirectory returns null for every
    archive and directory path and getFileContent returns null for every
    archive and file path. *)
Theorem small_archives_serve_nothing (depth : nat) (disk : gmap string (list Z))
    (paths : list string) :
  (forall p content ec,
      disk !! p = Some content ->
      (headerBuffer <-- readSync content 16 0 ;; getUint32 headerBuffer 4) = Ok ec ->
      ec < 0x7FFFFF00) ->
  let rpfFiles := scanForRpfFiles depth disk paths in
  (forall k rpf,
      rpfFiles !! k = Some rpf
      <-> In k paths /\ scanStructure depth disk k (basename k) 0 = Ok rpf)
  /\ (forall rpfPath directoryPath, listDirectory rpfFiles rpfPath directoryPath = None)
  /\ (forall rpfPath filePath, getFileContent disk rpfFiles rpfPath filePath = None).
Proof.
  intros Sm rpfFiles. pose proof (small_registry depth disk paths Sm) as Reg.
  fold rpfFiles in Reg. split; [exact Reg |].
  assert (Rn : forall k rpf, rpfFiles !! k = Some rpf -> root rpf = None).
  { intros k rpf Hk. apply Reg in Hk as [_ Hk].
    now destruct (small_top_level _ _ _ _ _ Sm Hk). }
  split.
  - intros k dir. unfold listDirectory.
    destruct (rpfFiles !! k) as [rpf |] eqn:Hk; [| reflexivity].
    now rewrite (Rn k rpf Hk).
  - intros k f. unfold getFileContent.
    destruct (rpfFiles !! k) as [rpf |] eqn:Hk; [| reflexivity].
    now rewrite (findEntry_without_root rpf f (Rn k rpf Hk)).
Qed.

Lemma flat_disk_small : smallDisk (diskOf "f.rpf" flatArchive).
Proof.
  intros p content ec Hp. unfold diskOf in Hp. rewrite lookup_singleton in Hp.
  destruct (decide ("f.rpf" = p)); [| discriminate]. injection Hp as <-.
  intros He.
  assert (E : (headerBuffer <-- readSync flatArchive 16 0 ;; getUint32 headerBuffer 4) = Ok 1)
    by (vm_compute; reflexivity).
  rewrite E in He. injection He as <-. lia.
Qed.

Lemma small_archives_serve_nothing_witness :
  let disk := diskOf "f.rpf" flatArchive in
  let rpfFiles := scanForRpfFiles 2 disk ["f.rpf"] in
  (forall k rpf,
      rpfFiles !! k = Some rpf
      <-> In k ["f.rpf"] /\ scanStructure 2 disk k (basename k) 0 = Ok rpf)
  /\ (forall rpfPath directoryPath, listDirectory rpfFiles rpfPath directoryPath = None)
  /\ (forall rpfPath filePath, getFileContent disk rpfFiles rpfPath filePath = None).
Proof.
  exact (small_archives_serve_nothing 2 (diskOf "f.rpf" flatArchive) ["f.rpf"]
           flat_disk_small).
Defined.

End SmallArchives.

(** * The header *)

Section HeaderChecks.

Import Rpf Hierarchy Scenario Nested RpfManager Pipeline Header.

Lemma getUint32_readBytes (content : list Z) (pos : Z) (k : nat) :
  (k + 4 <= 16)%nat ->
  getUint32 (readBytes content 16 pos) (Z.of_nat k) = Ok (wordAt content (Z.to_nat pos + k)).
Proof.
  intros Hk. unfold getUint32. rewrite getUint_ok by (rewrite ?readBytes_length; lia).
  f_equal. unfold wordAt. f_equal. rewrite Nat2Z.id. apply list_eq. intros i.
  unfold subarray. destruct (Nat.lt_ge_cases i 4) as [L | G].
  - rewrite lookup_take_lt, lookup_drop by lia.
    rewrite readBytes_lookup by (change (Z.to_nat 16) with 16%nat; lia).
    change (map ?f ?l) with (f <$> l). rewrite list_lookup_fmap.
    rewrite lookup_seq_lt by lia. cbn. f_equal. f_equal. lia.
  - rewrite lookup_take_ge by lia. symmetry. apply lookup_ge_None_2.
    now rewrite length_map, length_seq.
Qed.

(** X4. Opening fails with ENOENT when the backing file is missing.  Otherwise
    the four header words are the little-endian words at start_offset, +4, +8
    and +12 of the file, with zeros past its end: when the first is not
    0x52504637 the open fails with InvalidVersion of that word, whatever the
    rest of the file holds, and an archive that opens has these words for
    version, entry count, names length and encryption, and is flagged AES or NG
    exactly when the encryption word is 0x0FFFFFF9 or 0x0FEFFFFF. *)
Theorem scanStructure_header (depth : nat) (disk : gmap string (list Z))
    (path nm : string) (pos : Z) :
  match disk !! path with
  | None => scanStructure depth disk path nm pos = Err ENOENT
  | Some content =>
      let word := fun k => wordAt content (Z.to_nat pos + k) in
      (word 0%nat <> 0x52504637 ->
       scanStructure depth disk path nm pos = Err (InvalidVersion (word 0%nat)))
      /\ forall rpf,
           scanStructure depth disk path nm pos = Ok rpf ->
           word 0%nat = 0x52504637
           /\ version rpf = word 0%nat /\ entryCount rpf = word 4%nat
           /\ namesLength rpf = word 8%nat /\ encryption rpf = word 12%nat
           /\ isAESEncrypted rpf = (word 12%nat =? 0x0FFFFFF9)
           /\ isNGEncrypted rpf = (word 12%nat =? 0x0FEFFFFF)
           /\ rpfSize rpf = Z.of_nat (length content)
  end.
Proof.
  rewrite scanStructure_nestedAt. unfold scanStructureWith.
  destruct (disk !! path) as [content |]; [| reflexivity].
  rewrite readSync_ok by lia. cbn [rbind].
  set (word := fun k : nat => wordAt content (Z.to_nat pos + k)).
  pose proof (getUint32_readBytes content pos 0 ltac:(lia)) as W0.
  pose proof (getUint32_readBytes content pos 4 ltac:(lia)) as W4.
  pose proof (getUint32_readBytes content pos 8 ltac:(lia)) as W8.
  pose proof (getUint32_readBytes content pos 12 ltac:(lia)) as W12.
  change (Z.of_nat 0) with 0 in W0. change (Z.of_nat 4) with 4 in W4.
  change (Z.of_nat 8) with 8 in W8. change (Z.of_nat 12) with 12 in W12.
  assert (Hw : forall k, wordAt content (Z.to_nat pos + k) = word k) by reflexivity.
  rewrite Hw in W0, W4, W8, W12. rewrite !Hw. clearbody word.
  rewrite W0, W4, W8, W12. clear W0 W4 W8 W12 Hw. cbn [rbind].
  destruct (Z.eqb_spec (word 0%nat) 0x52504637) as [E | N]; cbn [negb].
  - split; [intros N; contradiction |]. intros rpf.
    destruct (readSync content (word 4%nat * 16) _) as [eb0 |]; cbn [rbind]; [| discriminate].
    destruct (readSync content (word 8%nat) _) as [nb0 |]; cbn [rbind]; [| discriminate].
    destruct (if word 12%nat =? RpfEncryption.AES then _ else _) as [eb nb]. cbn [fst snd].
    destruct (parseEntries path (word 4%nat) eb nb) as [parsed |]; cbn [rbind];
      [| discriminate].
    destruct (scanNestedRpfs _ (fst parsed) (snd parsed)) as [scanned |];
      cbn [rbind]; [| discriminate].
    intros H. injection H as H. subst rpf.
    cbn [version entryCount namesLength encryption isAESEncrypted isNGEncrypted rpfSize].
    now repeat split.
  - split; [reflexivity |]. discriminate.
Qed.

End HeaderChecks.

(** * The data pipeline *)

Section PipelineClaims.

Import Rpf Scenario Pipeline.

(* the bytes that a read of fewer than 2^31 bytes returns *)
Lemma readBytes_stored (file : list Z) (len pos : Z) :
  readBytes file len pos = stored file pos len.
Proof.
  apply list_eq. intros i. unfold stored.
  change (map ?f ?l) with (f <$> l). rewrite list_lookup_fmap.
  destruct (Nat.lt_ge_cases i (Z.to_nat len)) as [L | G].
  - rewrite readBytes_lookup by exact L. now rewrite lookup_seq_lt.
  - rewrite lookup_ge_None_2 by (rewrite readBytes_length; lia).
    now rewrite lookup_seq_ge.
Qed.

Lemma stored_length (file : list Z) (pos size : Z) :
  length (stored file pos size) = Z.to_nat size.
Proof. unfold stored. now rewrite length_map, length_seq. Qed.

Lemma decrypted_length (rpf : RpfFile) (e : RpfEntry) (f : FileFields) (bytes : list Z) :
  length (decrypted rpf e f bytes) = length bytes.
Proof.
  unfold decrypted. destruct (negb (isEncrypted f)); [reflexivity |].
  destruct (isAESEncrypted rpf); [apply decryptAES_length |].
  destruct (isNGEncrypted rpf); [| reflexivity].
  unfold GTACrypto.decryptNG. apply xorLoop_length.
Qed.

(* zlib.inflateSync wants the two bytes of a zlib header in front *)
Lemma inflateSync_header (data out : list Z) :
  Zlib.inflateSync data = Ok out ->
  exists cmf flg body,
    data = cmf :: flg :: body /\ (256 * cmf + flg) mod 31 = 0 /\ cmf mod 16 = 8.
Proof.
  unfold Zlib.inflateSync. destruct data as [| cmf [| flg body]]; try discriminate.
  destruct (Z.eqb_spec ((256 * cmf + flg) mod 31) 0) as [E1 | ?]; cbn [negb];
    [| discriminate].
  destruct (Z.eqb_spec (cmf mod 16) 8) as [E2 | ?]; cbn [negb]; [| discriminate].
  intros _. now exists cmf, flg, body.
Qed.

(** C4 (as amended). For an entry of fewer than 2^31 stored bytes, getFileData
    takes the on_disk_size bytes that the file holds from the payload offset on
    (zeros where the file has ended) and decrypts them as the entry and the
    archive are flagged, which keeps their number.  An entry whose uncompressed
    size is 0 or equals the on-disk size gets exactly these bytes; for any other
    entry the result is what zlib.inflateSync makes of them: a failure when they
    do not begin with a zlib header, and otherwise the inflated data, whose
    length is not compared with the uncompressed size. *)
Theorem getFileData_lengths (disk : gmap string (list Z)) (e : RpfEntry)
    (f : FileFields) (rpf : RpfFile) (content : list Z) :
  disk !! filePath rpf = Some content ->
  0 <= fileSize f < 2 ^ 31 ->
  let bytes :=
    decrypted rpf e f (stored content (startPos rpf + fileOffset f * 512) (fileSize f)) in
  length bytes = Z.to_nat (fileSize f)
  /\ getFileData disk e f rpf
     = (if isCompressed f then Zlib.inflateSync bytes else Ok bytes)
  /\ (forall out, Zlib.inflateSync bytes = Ok out ->
        exists cmf flg body,
          bytes = cmf :: flg :: body /\ (256 * cmf + flg) mod 31 = 0 /\ cmf mod 16 = 8).
Proof.
  intros Hc Hs bytes. split; [| split].
  - unfold bytes. now rewrite decrypted_length, stored_length.
  - unfold getFileData, isCompressed. rewrite Hc, readSync_ok by exact Hs. cbn [rbind].
    rewrite readBytes_stored. unfold bytes, decrypted.
    now destruct (isEncrypted f), (isAESEncrypted rpf), (isNGEncrypted rpf).
  - intros out. apply inflateSync_header.
Qed.

(* The entry of the archive file oneFileArchive 22 12 helloZlib announces 22
   stored and 12 uncompressed bytes; its payload inflates to the 11 bytes of
   "hello world", which getFileData returns. *)
Lemma getFileData_lengths_witness :
  let disk := diskOf "z.rpf" (oneFileArchive 22 12 helloZlib) in
  let f := {| fileOffset := 1; fileSize := 22; fileUncompressedSize := 12;
              isEncrypted := false |} in
  let e := {| nameOffset := 0; name := ""; nameLower := ""; path := ""; parent := None;
              file := OwnThis; cls := RpfBinaryFileEntry f 0 |} in
  let rpf := mkRpfFile "z.rpf" "z.rpf" 534 0 0x52504637 0 1 0 false false [e] None [] in
  getFileData disk e f rpf = Ok (bytes_of_string "hello world")
  /\ let bytes :=
       decrypted rpf e f
         (stored (oneFileArchive 22 12 helloZlib) (startPos rpf + fileOffset f * 512)
                 (fileSize f)) in
     length bytes = Z.to_nat (fileSize f)
     /\ getFileData disk e f rpf
        = (if isCompressed f then Zlib.inflateSync bytes else Ok bytes)
     /\ (forall out, Zlib.inflateSync bytes = Ok out ->
           exists cmf flg body,
             bytes = cmf :: flg :: body /\ (256 * cmf + flg) mod 31 = 0 /\ cmf mod 16 = 8).
Proof.
  intros disk f e rpf. split; [vm_compute; reflexivity |].
  apply (getFileData_lengths disk e f rpf (oneFileArchive 22 12 helloZlib)).
  - reflexivity.
  - cbn. lia.
Defined.

(* A payload that inflates to 11 bytes under an entry that announces 12 is
   returned as it inflates; a raw deflate payload is refused. *)
Lemma inflated_length_is_unchecked :
  (exists rpf e f,
      scanStructure 0 (diskOf "z.rpf" (oneFileArchive 22 12 helloZlib)) "z.rpf" "z.rpf" 0
      = Ok rpf
      /\ allEntries rpf !! 0%nat = Some e /\ fileFields e = Some f
      /\ fileSize f = 22 /\ fileUncompressedSize f = 12
      /\ getFileData (diskOf "z.rpf" (oneFileArchive 22 12 helloZlib)) e f rpf
         = Ok (bytes_of_string "hello world")
      /\ length (bytes_of_string "hello world") = 11%nat)
  /\ (exists rpf e f,
      scanStructure 0 (diskOf "r.rpf" (oneFileArchive 13 11 helloRawDeflate)) "r.rpf" "r.rpf" 0
      = Ok rpf
      /\ allEntries rpf !! 0%nat = Some e /\ fileFields e = Some f
      /\ fileSize f = 13 /\ fileUncompressedSize f = 11
      /\ getFileData (diskOf "r.rpf" (oneFileArchive 13 11 helloRawDeflate)) e f rpf
         = Err ZlibError).
Proof.
  split.
  - eexists. eexists. eexists. split; [vm_compute; reflexivity |].
    split; [reflexivity |]. split; [reflexivity |].
    split; [reflexivity |]. split; [reflexivity |].
    split; [vm_compute; reflexivity | reflexivity].
  - eexists. eexists. eexists. split; [vm_compute; reflexivity |].
    split; [reflexivity |]. split; [reflexivity |].
    split; [reflexivity |]. split; [reflexivity |].
    vm_compute; reflexivity.
Qed.

End PipelineClaims.

(** * Reads past the end of the file *)

Section ReadClaims.

Import Rpf Hierarchy Scenario Nested RpfManager Pipeline Header Images.

(* a table that fits a buffer has no directory, so parseEntries finds no root *)
Lemma parseEntries_flat (path : string) (ec : Z) (entriesData namesData : list Z)
    (es : list RpfEntry) (rt : option nat) :
  ec < IDENT ->
  parseEntries path ec entriesData namesData = Ok (es, rt) -> rt = None.
Proof.
  intros Hc H. unfold parseEntries in H.
  destruct (readEntries entriesData namesData (Z.to_nat ec) 0) as [es0 |] eqn:E0;
    cbn [rbind] in H; [| discriminate].
  apply readEntries_spec in E0 as [L0 R0].
  assert (F : forall j e, es0 !! j = Some e ->
                parent e = None
                /\ forall x, dirFields e = Some x -> directories x = [] /\ files x = []).
  { intros j e He. destruct (readEntry_fresh _ _ _ _ (R0 j e He)) as [Hp Hd].
    split; [exact Hp |]. intros x Hx. destruct (Hd x Hx) as (? & ? & _). now split. }
  destruct (buildHierarchy_spec _ _ _ _ F H) as (_ & -> & B & _).
  unfold rootOf. destruct (es0 !! 0%nat) as [e |] eqn:He; [| reflexivity].
  unfold isDirectory. destruct (cls e) as [x | |] eqn:Ec; try reflexivity.
  exfalso. destruct (readEntry_fresh _ _ _ _ (R0 0%nat e He)) as [_ Hd].
  destruct (Hd x ltac:(unfold dirFields; now rewrite Ec)) as (_ & _ & Hx).
  pose proof (rangeOf_directoryAt es0 0) as R. unfold directoryAt in R.
  rewrite He in R. cbn in R. unfold dirFields in R. rewrite Ec in R. cbn in R.
  destruct (B 0%nat _ _ R) as [Z0 | Bd]; rewrite Hx in *; unfold IDENT in *; lia.
Qed.

(* zeros appended to a file are not seen by open, unless the tables are
   decrypted with the size of the file *)
Lemma scanStructure_padded (depth : nat) (path nm : string) (pos : Z)
    (content : list Z) (n : nat) :
  wordAt content (Z.to_nat pos + 12) <> RpfEncryption.NG ->
  scanStructure depth (diskOf path (content ++ repeat 0 n)) path nm pos
  = mapOk (withSize (Z.of_nat (length (content ++ repeat 0 n))))
          (scanStructure depth (diskOf path content) path nm pos).
Proof.
  intros Hng. rewrite !scanStructure_nestedAt.
  generalize (nestedAt depth (diskOf path (content ++ repeat 0 n)) path)
             (nestedAt depth (diskOf path content) path). intros nested' nested.
  unfold scanStructureWith, diskOf.
  rewrite !lookup_singleton, !decide_True by reflexivity.
  rewrite !readSync_padded.
  rewrite readSync_ok by lia. cbn [rbind].
  pose proof (getUint32_readBytes content pos 0 ltac:(lia)) as W0.
  pose proof (getUint32_readBytes content pos 4 ltac:(lia)) as W4.
  pose proof (getUint32_readBytes content pos 8 ltac:(lia)) as W8.
  pose proof (getUint32_readBytes content pos 12 ltac:(lia)) as W12.
  change (Z.of_nat 0) with 0 in W0. change (Z.of_nat 4) with 4 in W4.
  change (Z.of_nat 8) with 8 in W8. change (Z.of_nat 12) with 12 in W12.
  rewrite W0, W4, W8, W12. cbn [rbind]. clear W0 W4 W8 W12.
  set (ec := wordAt content (Z.to_nat pos + 4)).
  set (nl := wordAt content (Z.to_nat pos + 8)).
  set (enc := wordAt content (Z.to_nat pos + 12)) in *.
  destruct (negb (wordAt content (Z.to_nat pos + 0) =? 1380992567)); [reflexivity |].
  rewrite readSync_padded.
  destruct (readSync content (ec * 16) (pos + 16)) as [eb |] eqn:Re; cbn [rbind];
    [| reflexivity].
  rewrite readSync_padded.
  destruct (readSync content nl (pos + 16 + ec * 16)) as [nb |]; cbn [rbind];
    [| reflexivity].
  assert (Hec : ec < IDENT).
  { unfold readSync in Re. destruct (Z.ltb_spec kMaxLength (ec * 16));
      [now rewrite orb_true_r in Re | unfold kMaxLength, IDENT in *; lia]. }
  destruct (Z.eqb_spec enc RpfEncryption.NG) as [? | _]; [contradiction |].
  destruct (enc =? RpfEncryption.AES); cbn [fst snd].
  - destruct (parseEntries path ec _ _) as [[es rt] |] eqn:Ep; cbn [rbind fst snd];
      [| reflexivity].
    rewrite (parseEntries_flat _ _ _ _ _ _ Hec Ep). reflexivity.
  - destruct (parseEntries path ec _ _) as [[es rt] |] eqn:Ep; cbn [rbind fst snd];
      [| reflexivity].
    rewrite (parseEntries_flat _ _ _ _ _ _ Hec Ep). reflexivity.
Qed.

Lemma getFileData_padded (path : string) (content : list Z) (n : nat)
    (e : RpfEntry) (f : FileFields) (rpf : RpfFile) :
  filePath rpf = path ->
  getFileData (diskOf path (content ++ repeat 0 n)) e f rpf
  = getFileData (diskOf path content) e f rpf.
Proof.
  intros <-. unfold getFileData, diskOf.
  rewrite !lookup_singleton, !decide_True by reflexivity.
  now rewrite readSync_padded.
Qed.

(** C9 (as amended). No read fails for running past the end of the backing
    file, and no such read is told: a file and the same file with zeros
    appended are read alike.  Every read of fewer than 2^31 bytes returns the
    bytes that the file holds from the position on, with zeros for those that
    it does not hold.  Open returns the same archive, or fails alike, on both
    files when the tables are not decrypted with the size of the file (the NG
    encryption word), the size recorded in the archive object apart; a
    header that lies beyond the end of the file is refused as version 0.
    getFileData returns the same on both files, which for an entry that is
    neither encrypted nor compressed are the on_disk_size bytes stored from the
    payload offset on, zeros where the file has ended. *)
Theorem reads_past_eof_are_zero_filled (content : list Z) (n : nat) :
  let padded := content ++ repeat 0 n in
  (forall len pos, readSync padded len pos = readSync content len pos)
  /\ (forall len pos, 0 <= len < 2 ^ 31 ->
        readSync content len pos = Ok (stored content pos len))
  /\ (forall depth path nm pos,
        wordAt content (Z.to_nat pos + 12) <> RpfEncryption.NG ->
        scanStructure depth (diskOf path padded) path nm pos
        = mapOk (withSize (Z.of_nat (length padded)))
                (scanStructure depth (diskOf path content) path nm pos))
  /\ (forall depth path nm pos,
        Z.of_nat (length content) <= pos ->
        scanStructure depth (diskOf path content) path nm pos = Err (InvalidVersion 0))
  /\ (forall path e f rpf,
        filePath rpf = path ->
        getFileData (diskOf path padded) e f rpf = getFileData (diskOf path content) e f rpf)
  /\ (forall path e f rpf,
        filePath rpf = path ->
        isEncrypted f = false -> isCompressed f = false -> 0 <= fileSize f < 2 ^ 31 ->
        getFileData (diskOf path content) e f rpf
        = Ok (stored content (startPos rpf + fileOffset f * 512) (fileSize f))).
Proof.
  intros padded. split; [| split; [| split; [| split; [| split]]]].
  - intros len pos. apply readSync_padded.
  - intros len pos H. now rewrite readSync_ok, readBytes_stored.
  - intros depth path nm pos H. now apply scanStructure_padded.
  - intros depth path nm pos H. rewrite scanStructure_nestedAt.
    apply (header_beyond_eof _ _ _ _ _ content); [| lia | exact H].
    unfold diskOf. rewrite lookup_singleton. now rewrite decide_True.
  - intros path e f rpf H. now apply getFileData_padded.
  - intros path e f rpf H He Hz Hs. rewrite <- readBytes_stored.
    apply getFileData_plain; try assumption.
    rewrite H. unfold diskOf. rewrite lookup_singleton. now rewrite decide_True.
Qed.

(* A file that ends after its header, which announces one entry and four name
   bytes: the open succeeds as it does on the file with twenty zeros appended,
   where the tables are present. *)
Lemma reads_past_eof_are_zero_filled_witness :
  (exists rpf,
      scanStructure 0 (diskOf "h.rpf" (header 1 4 0)) "h.rpf" "h.rpf" 0 = Ok rpf
      /\ length (allEntries rpf) = 1%nat /\ rpfSize rpf = 16)
  /\ scanStructure 0 (diskOf "h.rpf" (header 1 4 0 ++ repeat 0 20)) "h.rpf" "h.rpf" 0
     = mapOk (withSize (Z.of_nat (length (header 1 4 0 ++ repeat 0 20))))
             (scanStructure 0 (diskOf "h.rpf" (header 1 4 0)) "h.rpf" "h.rpf" 0).
Proof.
  split.
  - eexists. split; [vm_compute; reflexivity |]. split; reflexivity.
  - apply (proj1 (proj2 (proj2 (reads_past_eof_are_zero_filled (header 1 4 0) 20)))).
    vm_compute. discriminate.
Defined.

(* The header alone (one entry, four name bytes announced): the entries and the
   names are read past the end of the file, and the open succeeds.  The
   payload of the cut archive is read as five zero bytes. *)
Lemma truncated_reads_succeed :
  let disk := diskOf "t.rpf" truncatedArchive in
  (exists rpf, scanStructure 0 (diskOf "h.rpf" (header 1 4 0)) "h.rpf" "h.rpf" 0 = Ok rpf
               /\ length (allEntries rpf) = 1%nat)
  /\ exists rpf e f,
       scanStructure 0 disk "t.rpf" "t.rpf" 0 = Ok rpf
       /\ allEntries rpf !! 0%nat = Some e /\ fileFields e = Some f
       /\ fileSize f = 5 /\ fileOffset f = 1
       /\ Z.of_nat (length truncatedArchive) < 512
       /\ getFileData disk e f rpf = Ok [0; 0; 0; 0; 0].
Proof.
  split.
  - eexists. split; [vm_compute; reflexivity | reflexivity].
  - eexists. eexists. eexists. split; [vm_compute; reflexivity |].
    split; [reflexivity |]. split; [reflexivity |].
    split; [reflexivity |]. split; [reflexivity |].
    split; [vm_compute; reflexivity | vm_compute; reflexivity].
Qed.

End ReadClaims.

(** * Which records a table may hold *)

Section RecordDispatch.

Import Spec Rpf Scenario.

(* the 32-bit word at offset + 4 is the high half of the 64-bit word at offset *)
Lemma word_hi (data : list Z) (k : nat) :
  Forall is_byte data -> (k + 8 <= length data)%nat ->
  le_decode (subarray data (k + 4) 4) = bits (le_decode (subarray data k 8)) 32 64.
Proof.
  intros Hb Hk.
  replace (subarray data (k + 4) 4) with (drop 4 (subarray data k 8)).
  - rewrite le_decode_drop by now apply subarray_is_byte.
    rewrite length_take, subarray_length by lia.
    pose proof (d_bound data k Hb Hk) as B. unfold bits.
    change (2 ^ (8 * Z.of_nat (4 `min` 8))) with (2 ^ 32).
    symmetry. apply Z.mod_small. split; [apply Z.div_pos; lia |].
    apply Z.div_lt_upper_bound; lia.
  - unfold subarray. apply list_eq. intros i.
    rewrite lookup_drop. destruct (Nat.lt_ge_cases i 4) as [L | G].
    + rewrite !lookup_take_lt by lia. rewrite !lookup_drop. f_equal. lia.
    + rewrite (lookup_take_ge _ 4 i) by lia.
      apply lookup_ge_None_2. rewrite length_take, length_drop. lia.
Qed.

Lemma readDirectoryEntry_spec (data : list Z) (offset : Z) :
  Forall is_byte data -> 0 <= offset -> offset + 16 <= Z.of_nat (length data) ->
  let d1 := le_decode (subarray data (Z.to_nat offset) 8) in
  let d2 := le_decode (subarray data (Z.to_nat (offset + 8)) 8) in
  readDirectoryEntry data offset =
    if bits d2 32 64 =? IDENT
    then Ok (bits d1 0 32,
             RpfDirectoryEntry {| entriesIndex := bits d1 32 64;
                                  entriesCount := bits d2 0 32;
                                  directories := []; files := [] |})
    else Err (InvalidDirectoryEntry (bits d2 32 64)).
Proof.
  intros Hb H0 H1 d1 d2. unfold readDirectoryEntry, getUint32.
  rewrite !getUint_ok by (simpl Z.of_nat; lia). cbn [rbind].
  rewrite (word2_of_d2 data (Z.to_nat offset)) by (assumption || lia).
  rewrite (word2_of_d2 data (Z.to_nat (offset + 8))) by (assumption || lia).
  replace (Z.to_nat (offset + 4)) with (Z.to_nat offset + 4)%nat by lia.
  replace (Z.to_nat (offset + 12)) with (Z.to_nat (offset + 8) + 4)%nat by lia.
  rewrite !word_hi by (assumption || lia). fold d1 d2.
  now destruct (bits d2 32 64 =? IDENT).
Qed.

(** X5. What parseEntries makes of a record, over its little-endian 64-bit
    words d1 and d2: the word h2 = d2[0..32) alone chooses the class.  With
    h2 = 0x7FFFFF00 the record is a directory, whose entries count is h2 itself
    and which is refused unless d2[32..64) is 0x7FFFFF00 too; with the high bit
    of h2 clear it is a binary file, refused unless d2[32..64) is 0; otherwise
    it is a resource, which is never refused. *)
Theorem record_dispatch (entriesData namesData : list Z) (i : Z) :
  Forall is_byte entriesData -> 0 <= i ->
  i * 16 + 16 <= Z.of_nat (length entriesData) ->
  let d1 := le_decode (subarray entriesData (Z.to_nat (i * 16)) 8) in
  let d2 := le_decode (subarray entriesData (Z.to_nat (i * 16 + 8)) 8) in
  let h2 := bits d2 0 32 in
  let h3 := bits d2 32 64 in
  if h2 =? 0x7FFFFF00 then
    readEntry entriesData namesData i =
      if h3 =? 0x7FFFFF00
      then Ok {| nameOffset := bits d1 0 32;
                 name := readName namesData (bits d1 0 32);
                 nameLower := toLowerCase (readName namesData (bits d1 0 32));
                 path := ""; parent := None; file := OwnThis;
                 cls := RpfDirectoryEntry
                          {| entriesIndex := bits d1 32 64; entriesCount := 0x7FFFFF00;
                             directories := []; files := [] |} |}
      else Err (InvalidDirectoryEntry h3)
  else if h2 <? 2 ^ 31 then
    match readEntry entriesData namesData i with
    | Ok e => h3 = 0 /\ exists f t, cls e = RpfBinaryFileEntry f t
    | Err err => h3 <> 0 /\ err = InvalidBinaryFileEntry
    end
  else
    exists e f, readEntry entriesData namesData i = Ok e
                /\ cls e = RpfResourceFileEntry f h2 h3.
Proof.
  intros Hb H0 H1 d1 d2 h2 h3. unfold readEntry.
  rewrite readEntry_h2 by assumption. fold d2 h2. cbn [rbind].
  assert (B2 : 0 <= h2 < 2 ^ 32) by (apply bits_bound; lia).
  destruct (Z.eqb_spec h2 0x7FFFFF00) as [E | N].
  - unfold classify. rewrite E. change (2147483392 =? IDENT) with true. cbv iota.
    rewrite readDirectoryEntry_spec by (assumption || lia). fold d1 d2 h2 h3.
    rewrite E. change IDENT with 2147483392.
    now destruct (h3 =? 2147483392).
  - destruct (Z.ltb_spec h2 (2 ^ 31)) as [L | G].
    + rewrite classify_binary by (lia || exact N).
      rewrite readBinaryFileEntry_spec by (assumption || lia). fold d1 d2 h3.
      destruct (Z.eqb_spec h3 0) as [Z3 | Z3]; cbn [rbind cls]; eauto.
    + rewrite classify_resource by lia.
      rewrite readResourceFileEntry_spec by lia. fold d1 d2 h2 h3. cbn [rbind].
      eexists _, _. split; reflexivity.
Qed.

Lemma record_dispatch_witness :
  readEntry (directoryRecord 0 1 0x7FFFFF00 0x7FFFFF00) [0] 0
  = Ok {| nameOffset := 0; name := ""; nameLower := ""; path := ""; parent := None;
          file := OwnThis;
          cls := RpfDirectoryEntry
                   {| entriesIndex := 1; entriesCount := 0x7FFFFF00;
                      directories := []; files := [] |} |}.
Proof.
  exact (record_dispatch (directoryRecord 0 1 0x7FFFFF00 0x7FFFFF00) [0] 0
           (bytes_ok (directoryRecord 0 1 0x7FFFFF00 0x7FFFFF00) eq_refl)
           ltac:(lia) ltac:(cbn; lia)).
Defined.

End RecordDispatch.

(** * Sizes, spellings of a path, offsets of nested archives *)

Section Spellings.

Import Spec Rpf Hierarchy Scenario Nested RpfManager Paths NestScenario.

(** X6. The size that getResourceSize reconstructs from the two flag words,
    with the 32-bit operators of the source, is never negative and at most
    16 + 2 * (0x7FF + 0x7F) * 2^15 = 142475280, whatever the flag words. *)
Theorem getResourceSize_range (systemFlags graphicsFlags : Z) :
  0 <= getResourceSize systemFlags graphicsFlags <= 142475280.
Proof. rewrite getResourceSize_spec. apply resourceSize_bound. Qed.

Lemma lower_char_idem (c : ascii) : lower_char (lower_char c) = lower_char c.
Proof. destruct c as [[] [] [] [] [] [] [] []]; reflexivity. Qed.

Lemma toLowerCase_idem (s : string) : toLowerCase (toLowerCase s) = toLowerCase s.
Proof. induction s as [| c s IH]; cbn; [| rewrite lower_char_idem, IH]; reflexivity. Qed.

Lemma isSeparator_lower (c : ascii) : isSeparator (lower_char c) = isSeparator c.
Proof. destruct c as [[] [] [] [] [] [] [] []]; reflexivity. Qed.

Lemma splitPath_lower (p : string) :
  splitPath (toLowerCase p) = map toLowerCase (splitPath p).
Proof.
  induction p as [| c p IH]; cbn [splitPath toLowerCase map]; [reflexivity |].
  rewrite isSeparator_lower, IH.
  destruct (isSeparator c); [reflexivity |]. now destruct (splitPath p).
Qed.

Lemma splitPath_forwardSlashes (p : string) : splitPath (forwardSlashes p) = splitPath p.
Proof.
  induction p as [| c p IH]; cbn [splitPath forwardSlashes]; [reflexivity |].
  rewrite IH. destruct c as [[] [] [] [] [] [] [] []]; reflexivity.
Qed.

Lemma findLoop_lower (es : list RpfEntry) (parts : list string) :
  forall current, findLoop es current (map toLowerCase parts) = findLoop es current parts.
Proof.
  induction parts as [| part parts IH]; intros current; cbn [findLoop map]; [reflexivity |].
  assert (E : findStep es current (toLowerCase part) = findStep es current part)
    by (unfold findStep; now rewrite toLowerCase_idem).
  rewrite E. destruct (findStep es current part); [reflexivity | apply IH].
Qed.

Lemma findEntry_normal (rpf : RpfFile) (p : string) :
  findEntry rpf p
  = findLoop (allEntries rpf) (root rpf) (splitPath (toLowerCase (forwardSlashes p))).
Proof.
  unfold findEntry. now rewrite splitPath_lower, findLoop_lower, splitPath_forwardSlashes.
Qed.

(** X7. findEntry does not tell the letter case of a path nor its two
    separators apart: two paths that become equal when backslashes are
    written as slashes and letters are lowercased find the same entry in every
    archive. *)
Theorem findEntry_spelling (rpf : RpfFile) (p q : string) :
  toLowerCase (forwardSlashes p) = toLowerCase (forwardSlashes q) ->
  findEntry rpf p = findEntry rpf q.
Proof. intros H. now rewrite (findEntry_normal rpf p), (findEntry_normal rpf q), H. Qed.

(* two spellings of the path of the file "Z.RPF" in the directory "sub" of the
   archive object handParent *)
Lemma findEntry_spelling_witness :
  findEntry (handParent 0) "SUB\z.rpf" = findEntry (handParent 0) "sub/Z.RPF"
  /\ findEntry (handParent 0) "sub/Z.RPF" = Some 4%nat.
Proof.
  split; [| reflexivity].
  apply (findEntry_spelling (handParent 0) "SUB\z.rpf" "sub/Z.RPF"). reflexivity.
Defined.

(** X8. Every archive that the scanner adds to the children of an archive
    object comes from a binary file entry of the object whose lowercased name
    ends in ".rpf": it is the archive named like the entry that opens in the
    same backing file at byte payload_block_offset * 512, counted from the start
    of the file, whatever the start offset of the object is. *)
Theorem nested_offset_is_absolute (depth : nat) (disk : gmap string (list Z))
    (rpf rpf' child : RpfFile) :
  scanNested depth disk rpf = Ok rpf' ->
  In child (children rpf') ->
  In child (children rpf)
  \/ exists i e f t,
       allEntries rpf !! i = Some e /\ cls e = RpfBinaryFileEntry f t
       /\ endsWith (nameLower e) ".rpf" = true
       /\ scanStructure depth disk (filePath rpf) (name e) (fileOffset f * 512) = Ok child
       /\ filePath child = filePath rpf /\ fileName child = name e
       /\ startPos child = fileOffset f * 512.
Proof.
  intros H Hc. apply scanNested_children in H as (_ & _ & _ & H).
  destruct (root rpf) as [r |]; [| rewrite H in Hc; now left].
  destruct H as (fs & Ef & Ec). rewrite Ec in Hc.
  apply in_app_iff in Hc as [Hc | Hc]; [now left | right].
  apply list_elem_of_In, list_elem_of_omap in Hc as (i & Hi & Ht).
  pose proof (findRpfFiles_names _ _ _ _ Ef i Hi) as Hn.
  apply tryOpen_spec in Ht as (e & f & t & He & Ecls & En).
  unfold isRpfName in Hn. rewrite He in Hn.
  exists i, e, f, t.
  split; [exact He |]. split; [exact Ecls |]. split; [exact Hn |].
  split; [exact En |].
  apply scanStructure_opened in En as [nested' [Hp' Hn' Hpos' _ _]]. now repeat split.
Qed.

(* The archive object handParent 512 starts at byte 512 of its file.  Its
   entry "Z.RPF" names block 1: the child is the archive at byte 512 of the
   file, and at byte 512 + 512, where block 1 of the object would begin, no
   archive opens. *)
Lemma nested_offset_is_absolute_witness :
  exists rpf' child,
    scanNested 2 nestDisk (handParent 512) = Ok rpf'
    /\ children rpf' = [child]
    /\ startPos (handParent 512) = 512
    /\ startPos child = 512
    /\ scanStructure 2 nestDisk "p.rpf" "Z.RPF" (startPos (handParent 512) + 1 * 512)
       = Err (InvalidVersion 0x07070707)
    /\ (In child (children (handParent 512))
        \/ exists i e f t,
             allEntries (handParent 512) !! i = Some e /\ cls e = RpfBinaryFileEntry f t
             /\ endsWith (nameLower e) ".rpf" = true
             /\ scanStructure 2 nestDisk (filePath (handParent 512)) (name e)
                              (fileOffset f * 512) = Ok child
             /\ filePath child = filePath (handParent 512) /\ fileName child = name e
             /\ startPos child = fileOffset f * 512).
Proof.
  destruct (scanNested 2 nestDisk (handParent 512)) as [rpf' | err] eqn:E;
    [| vm_compute in E; discriminate].
  assert (Hc : exists child, children rpf' = [child] /\ startPos child = 512).
  { pose proof E as E'. vm_compute in E'. apply Ok_inj in E'. rewrite <- E'.
    eexists. split; reflexivity. }
  destruct Hc as (child & Ec & Hs).
  exists rpf', child. split; [reflexivity |]. split; [exact Ec |].
  split; [reflexivity |]. split; [exact Hs |].
  split; [vm_compute; reflexivity |].
  apply (nested_offset_is_absolute 2 nestDisk (handParent 512) rpf' child E).
  rewrite Ec. now left.
Defined.

End Spellings.

(** * The data pipeline on encrypted entries *)

Section PipelineDecrypts.

Import Rpf GTACrypto Pipeline PipelineScenario.

(** X11. An entry that is flagged encrypted and is not compressed is read
    back as it was written: when the archive is AES encrypted and the file
    holds encryptAES of a payload at the entry's place, getFileData returns
    the payload; when the archive is NG encrypted and the file holds encryptNG
    of the payload under the entry's name and uncompressed size, getFileData
    returns the payload; in an archive that is neither, the stored bytes are
    returned as they are. *)
Theorem getFileData_decrypts (disk : gmap string (list Z)) (e : RpfEntry)
    (f : FileFields) (rpf : RpfFile) (content payload : list Z) :
  disk !! filePath rpf = Some content ->
  Forall is_byte payload -> Z.of_nat (length payload) + 15 < 2 ^ 31 ->
  isEncrypted f = true -> isCompressed f = false ->
  let stored := readSync content (fileSize f) (startPos rpf + fileOffset f * 512) in
  (isAESEncrypted rpf = true -> stored = Ok (encryptAES payload) ->
   getFileData disk e f rpf = Ok payload)
  /\ (isAESEncrypted rpf = false -> isNGEncrypted rpf = true ->
      stored = Ok (encryptNG payload (name e) (fileUncompressedSize f)) ->
      getFileData disk e f rpf = Ok payload)
  /\ (isAESEncrypted rpf = false -> isNGEncrypted rpf = false ->
      getFileData disk e f rpf = stored).
Proof.
  intros Hc Hb Hl He Hz stored. unfold getFileData. rewrite Hc.
  unfold isCompressed in Hz. fold stored. clearbody stored.
  split; [| split].
  - intros -> ->. cbn [rbind]. rewrite He, Hz. f_equal. now apply (aes_round_trip_aux payload).
  - intros -> -> ->. cbn [rbind]. rewrite He, Hz. f_equal. unfold encryptNG, decryptNG.
    apply xorLoop_involutive; [apply digest_is_byte | exact Hb].
  - intros -> ->. destruct stored as [buf | err]; cbn [rbind]; [| reflexivity].
    now rewrite He, Hz.
Qed.

Lemma getFileData_decrypts_witness :
  getFileData aesDisk secretEntry secretFields aesArchive = Ok secretPayload.
Proof.
  refine (proj1 (getFileData_decrypts aesDisk secretEntry secretFields aesArchive
                   (repeat 0 512 ++ encryptAES secretPayload) secretPayload
                   _ _ _ _ _) _ _).
  - reflexivity.
  - apply bytes_ok. vm_compute. reflexivity.
  - vm_compute. reflexivity.
  - reflexivity.
  - reflexivity.
  - reflexivity.
  - vm_compute. reflexivity.
Defined.

End PipelineDecrypts.

(** * rpf-manager.ts: getDirectoryTree and getFileInfo *)

Section Views.

Import Rpf RpfManager ManagerViews Pipeline.






(** X13. getFileInfo and getFileContent agree: where getFileInfo returns null
    so does getFileContent, and where getFileContent returns data, getFileInfo
    describes a file whose size is the number of bytes returned, unless the
    entry is compressed (the field that getFileInfo calls compressedSize, which
    holds the uncompressed size of the entry, is positive and differs from the
    size). *)
Theorem getFileInfo_agrees_with_read (disk : gmap string (list Z))
    (rpfFiles : gmap string RpfFile) (rpfPath entryPath : string) :
  (getFileInfo rpfFiles rpfPath entryPath = None ->
   getFileContent disk rpfFiles rpfPath entryPath = None)
  /\ forall data,
       getFileContent disk rpfFiles rpfPath entryPath = Some data ->
       exists info,
         getFileInfo rpfFiles rpfPath entryPath = Some info
         /\ info_type info = "file"
         /\ (info_compressedSize info <= 0 \/ info_compressedSize info = info_size info ->
             length data = Z.to_nat (info_size info)).
Proof.
  unfold getFileInfo, getFileContent.
  destruct (rpfFiles !! rpfPath) as [rpf |]; [| split; [reflexivity | discriminate]].
  destruct (findEntry rpf entryPath ≫= _) as [e |]; [| split; [reflexivity | discriminate]].
  split; [discriminate |]. intros data.
  destruct (fileFields e) as [f |]; [| discriminate].
  destruct (getFileData disk e f rpf) as [d |] eqn:Hg; [| discriminate].
  intros [= <-]. eexists. split; [reflexivity |]. split; [reflexivity |].
  cbn [info_compressedSize info_size]. intros Hs.
  unfold getFileData in Hg. destruct (disk !! filePath rpf) as [content |]; [| discriminate].
  destruct (readSync content (fileSize f) _) as [buf |] eqn:Hr; cbn [rbind] in Hg;
    [| discriminate].
  apply readSync_length in Hr.
  assert (Hz : (0 <? fileUncompressedSize f)
               && negb (fileUncompressedSize f =? fileSize f) = false).
  { destruct Hs as [Hs | Hs].
    - destruct (Z.ltb_spec 0 (fileUncompressedSize f)); [lia | reflexivity].
    - rewrite Hs, Z.eqb_refl. apply andb_false_r. }
  rewrite Hz in Hg. injection Hg as <-.
  destruct (isEncrypted f); [| exact Hr].
  destruct (isAESEncrypted rpf).
  - now rewrite decryptAES_length.
  - destruct (isNGEncrypted rpf); [| exact Hr].
    unfold GTACrypto.decryptNG. now rewrite xorLoop_length.
Qed.

End Views.

(** * What the manager serves *)

Section Served.

Import Rpf Hierarchy Scenario Nested RpfManager ManagerViews.

(* the registry holds the scanned paths that open, and nothing below them *)
Lemma registry_top_level (depth : nat) (disk : gmap string (list Z)) (paths : list string) :
  forall k rpf,
    scanForRpfFiles depth disk paths !! k = Some rpf
    <-> In k paths /\ scanStructure depth disk k (basename k) 0 = Ok rpf.
Proof.
  unfold scanForRpfFiles.
  induction paths as [| p paths IH] using rev_ind; intros k rpf.
  - cbn. rewrite lookup_empty. split; [discriminate | now intros []].
  - rewrite fold_left_app. cbn [fold_left]. unfold loadRpf at 1.
    rewrite in_app_iff. cbn [In].
    destruct (scanStructure depth disk p (basename p) 0) as [r |] eqn:Hp.
    + destruct (opened_is_flat _ _ _ _ _ _ Hp) as (_ & _ & _ & Cn).
      rewrite addNestedRpfs_no_children by exact Cn.
      rewrite lookup_insert. destruct (decide (p = k)) as [-> | N].
      * rewrite Hp. split; [intros [= <-]; split; [right; now left | reflexivity] |].
        now intros [_ [= <-]].
      * rewrite IH. split; [intros [? ?]; split; [now left | assumption] |].
        intros [[? | [? | []]] ?]; [now split | contradiction].
    + rewrite IH. split; [intros [? ?]; split; [now left | assumption] |].
      intros [[? | [<- | []]] Hk]; [now split |]. rewrite Hp in Hk. discriminate.
Qed.

(** X20. Whatever the files hold, the registry that scanForRpfFiles builds has
    the scanned paths that open for keys and no nested key, none of its
    archives has a directory entry, a root or a child, and the manager answers
    null to every listDirectory, getFileContent, getDirectoryTree and
    getFileInfo: a directory record announces 0x7FFFFF00 entries (the word that
    tells it from a file record), buildHierarchy wants them all in the table,
    and a table of that size exceeds what Buffer.alloc gives. *)
Theorem archives_serve_nothing (depth : nat) (disk : gmap string (list Z))
    (paths : list string) :
  let rpfFiles := scanForRpfFiles depth disk paths in
  (forall k rpf,
      rpfFiles !! k = Some rpf
      <-> In k paths /\ scanStructure depth disk k (basename k) 0 = Ok rpf)
  /\ (forall k rpf,
        rpfFiles !! k = Some rpf ->
        entryCount rpf * 16 <= 2 ^ 32
        /\ (forall d, directoryAt (allEntries rpf) d = None)
        /\ root rpf = None /\ children rpf = [])
  /\ (forall rpfPath directoryPath, listDirectory rpfFiles rpfPath directoryPath = None)
  /\ (forall rpfPath filePath, getFileContent disk rpfFiles rpfPath filePath = None)
  /\ (forall rpfPath directoryPath maxDepth,
        getDirectoryTree rpfFiles rpfPath directoryPath maxDepth = None)
  /\ (forall rpfPath filePath, getFileInfo rpfFiles rpfPath filePath = None).
Proof.
  intros rpfFiles. pose proof (registry_top_level depth disk paths) as Reg.
  fold rpfFiles in Reg. split; [exact Reg |].
  assert (Fl : forall k rpf, rpfFiles !! k = Some rpf ->
                 entryCount rpf * 16 <= 2 ^ 32
                 /\ (forall d, directoryAt (allEntries rpf) d = None)
                 /\ root rpf = None /\ children rpf = []).
  { intros k rpf Hk. apply Reg in Hk as [_ Hk].
    destruct (opened_is_flat _ _ _ _ _ _ Hk) as (_ & N & R & C).
    rewrite scanStructure_nestedAt in Hk.
    apply opened_header in Hk as (content & hb & _ & _ & _ & _ & _ & _ & B).
    now repeat split. }
  split; [exact Fl |].
  assert (Rn : forall k rpf, rpfFiles !! k = Some rpf -> root rpf = None)
    by (intros k rpf Hk; now destruct (Fl k rpf Hk) as (_ & _ & R & _)).
  split; [| split; [| split]].
  - intros k dir. unfold listDirectory.
    destruct (rpfFiles !! k) as [rpf |] eqn:Hk; [| reflexivity].
    now rewrite (Rn k rpf Hk).
  - intros k f. unfold getFileContent.
    destruct (rpfFiles !! k) as [rpf |] eqn:Hk; [| reflexivity].
    now rewrite (findEntry_without_root rpf f (Rn k rpf Hk)).
  - intros k dir maxDepth. unfold getDirectoryTree.
    destruct (rpfFiles !! k) as [rpf |] eqn:Hk; [| reflexivity].
    now rewrite (Rn k rpf Hk).
  - intros k f. unfold getFileInfo.
    destruct (rpfFiles !! k) as [rpf |] eqn:Hk; [| reflexivity].
    now rewrite (findEntry_without_root rpf f (Rn k rpf Hk)).
Qed.

End Served.

(** * rpf-manager.ts: the walk over the game directory *)

Section Walk.

Import FsWalk.

Lemma is_prefix_app (p s t : string) :
  is_prefix p s = true -> is_prefix p (s ++ t) = true.
Proof.
  revert s. induction p as [| a p IH]; intros [| b s]; try easy.
  change (String b s ++ t)%string with (String b (s ++ t)). cbn [is_prefix].
  destruct (Ascii.eqb a b); [apply IH | easy].
Qed.

Lemma append_assoc (s t u : string) : ((s ++ t) ++ u = s ++ (t ++ u))%string.
Proof.
  induction s as [| c s IH]; [reflexivity |].
  change (String c (s ++ t ++ u) = String c ((s ++ t) ++ u))%string || idtac.
  change ((String c s ++ t) ++ u)%string with (String c ((s ++ t) ++ u)).
  change (String c s ++ (t ++ u))%string with (String c (s ++ (t ++ u))).
  now rewrite IH.
Qed.

Lemma append_nil_r (s : string) : (s ++ "")%string = s.
Proof.
  induction s as [| c s IH]; [reflexivity |].
  change (String c s ++ "")%string with (String c (s ++ "")). now rewrite IH.
Qed.

Lemma string_rev_acc_app (s acc : string) :
  string_rev_acc s acc = (string_rev_acc s "" ++ acc)%string.
Proof.
  revert acc. induction s as [| c s IH]; intros acc; cbn [string_rev_acc]; [reflexivity |].
  rewrite IH, (IH (String c "")). rewrite append_assoc. reflexivity.
Qed.

Lemma string_rev_app (s t : string) :
  string_rev_acc (s ++ t) "" = (string_rev_acc t "" ++ string_rev_acc s "")%string.
Proof.
  induction s as [| c s IH].
  - change (("" ++ t)%string) with t. now rewrite append_nil_r.
  - change (String c s ++ t)%string with (String c (s ++ t)). cbn [string_rev_acc].
    rewrite string_rev_acc_app, IH, (string_rev_acc_app s (String c "")).
    now rewrite append_assoc.
Qed.

Lemma endsWith_app (s t suffix : string) :
  endsWith t suffix = true -> endsWith (s ++ t) suffix = true.
Proof. unfold endsWith. rewrite string_rev_app. apply is_prefix_app. Qed.

Lemma toLowerCase_app (s t : string) :
  toLowerCase (s ++ t) = (toLowerCase s ++ toLowerCase t)%string.
Proof.
  induction s as [| c s IH]; [reflexivity |].
  change (String c s ++ t)%string with (String c (s ++ t)). cbn [toLowerCase].
  now rewrite IH.
Qed.

Lemma reaches_weaken (dirPath p : string) (x : string * FsNode)
    (listing : list (string * FsNode)) :
  reaches dirPath (FsDirectory (Some listing)) p ->
  reaches dirPath (FsDirectory (Some (x :: listing))) p.
Proof.
  inversion 1; subst.
  - apply reaches_file; [now right | assumption].
  - eapply reaches_below; [right; eassumption | assumption | assumption].
Qed.

Lemma findRpfFiles_sound :
  forall (node : FsNode) (dirPath p : string),
    In p (findRpfFiles dirPath node) -> reaches dirPath node p.
Proof.
  fix IH 1. intros [| [listing |] |] dirPath p; cbn [findRpfFiles]; try contradiction.
  induction listing as [| [name child] listing IHl]; [contradiction |].
  pose proof (IH child (join dirPath name) p) as IHc.
  destruct child as [| sub |].
  - destruct (endsWith (toLowerCase name) ".rpf") eqn:E.
    + intros [<- | H]; [apply reaches_file; [now left | exact E] |].
      apply reaches_weaken, IHl, H.
    + intros H. apply reaches_weaken, IHl, H.
  - destruct (visited name) eqn:V.
    + intros H. apply in_app_or in H as [H | H].
      * eapply reaches_below; [now left | exact V |]. apply IHc, H.
      * apply reaches_weaken, IHl, H.
    + intros H. apply reaches_weaken, IHl, H.
  - intros H. apply reaches_weaken, IHl, H.
Qed.

Lemma findRpfFiles_complete (node : FsNode) (dirPath p : string) :
  reaches dirPath node p -> In p (findRpfFiles dirPath node).
Proof.
  induction 1 as [dirPath name listing Hin Hn | dirPath name listing sub p Hin Hv Hr IH];
    cbn [findRpfFiles].
  - induction listing as [| [name' child] listing IHl]; [contradiction |].
    destruct Hin as [[= -> ->] | Hin].
    + rewrite Hn. now left.
    + specialize (IHl Hin). destruct child as [| sub |]; try exact IHl.
      * destruct (endsWith (toLowerCase name') ".rpf"); [now right | exact IHl].
      * destruct (visited name'); [apply in_or_app; now right | exact IHl].
  - induction listing as [| [name' child] listing IHl]; [contradiction |].
    destruct Hin as [[= -> ->] | Hin].
    + rewrite Hv. apply in_or_app. now left.
    + specialize (IHl Hin). destruct child as [| sub' |]; try exact IHl.
      * destruct (endsWith (toLowerCase name') ".rpf"); [now right | exact IHl].
      * destruct (visited name'); [apply in_or_app; now right | exact IHl].
Qed.

(** X14. The walk over the game directory returns exactly the regular files
    whose lowercased name ends in ".rpf" and that lie in the start directory or
    below it through directories whose name neither starts with "." nor is
    "node_modules"; a directory that cannot be listed contributes nothing, and
    neither does what is neither a file nor a directory.  Every path returned
    ends in ".rpf" once lowercased. *)
Theorem findRpfFiles_walk (node : FsNode) (dirPath p : string) :
  (In p (findRpfFiles dirPath node) <-> reaches dirPath node p)
  /\ (In p (findRpfFiles dirPath node) -> endsWith (toLowerCase p) ".rpf" = true).
Proof.
  split; [split; [apply findRpfFiles_sound | apply findRpfFiles_complete] |].
  intros H. apply findRpfFiles_sound in H.
  induction H as [dirPath name listing Hin Hn | dirPath name listing sub p Hin Hv Hr IH];
    [| exact IH].
  unfold join. rewrite !toLowerCase_app. now apply endsWith_app, endsWith_app.
Qed.

End Walk.

(** * Listing the root, finding entries, the NG key *)

Section Lookups.

Import Rpf Hierarchy GTACrypto Scenario Nested RpfManager LookupScenario TreeScenario.

(** X15. For an archive object of the registry whose entries and root are
    what buildHierarchy made of a table of fresh entries, listDirectory at the
    root path ("" or "/") returns the names of the directory entries of the
    root's range [entries_index, entries_index + entries_count), in table
    order, and the names of the file entries of that range, in table order. *)
Theorem listDirectory_root (es es' : list RpfEntry) (r : nat) (rpf : RpfFile)
    (rpfFiles : gmap string RpfFile) (rpfPath directoryPath : string) :
  (forall j e, es !! j = Some e ->
     parent e = None
     /\ forall x, dirFields e = Some x -> directories x = [] /\ files x = []) ->
  buildHierarchy (filePath rpf) es = Ok (es', Some r) ->
  allEntries rpf = es' -> root rpf = Some r ->
  rpfFiles !! rpfPath = Some rpf ->
  directoryPath = "" \/ directoryPath = "/" ->
  exists x,
    directoryAt es' r = Some x
    /\ let tbl := map static es in
       let range := seq (Z.to_nat (entriesIndex x)) (Z.to_nat (entriesCount x)) in
       listDirectory rpfFiles rpfPath directoryPath
       = Some (map (nameAt es') (List.filter (isDirS tbl) range),
               map (nameAt es') (List.filter (fun k => negb (isDirS tbl k)) range)).
Proof.
  intros F H Ha Hr Hk Hp.
  destruct (buildHierarchy_spec _ _ _ _ F H) as (St & Rt & _ & _ & D).
  assert (Hx : exists x, directoryAt es' r = Some x).
  { symmetry in Rt. rewrite <- (rootOf_static es es' St) in Rt. unfold rootOf in Rt.
    unfold directoryAt. destruct (es' !! 0%nat) as [e |] eqn:He; [| discriminate].
    unfold isDirectory in Rt. destruct (cls e) as [x | |] eqn:Ec; try discriminate.
    injection Rt as <-. rewrite He. cbn. unfold dirFields. rewrite Ec. eauto. }
  destruct Hx as [x Hx]. exists x. split; [exact Hx |].
  destruct (D r x Hx) as (Hd & Hf). cbn zeta.
  unfold listDirectory. rewrite Hk, Hr, Ha.
  assert (R : isRootPath directoryPath = true) by (destruct Hp as [-> | ->]; reflexivity).
  rewrite R. cbn [mbind option_bind]. rewrite Hx, Hd, Hf. reflexivity.
Qed.

(* the archive object that buildHierarchy makes of handTable lists the
   directory "sub" and the files "a.txt" and "B.rpf" at its root *)
Lemma listDirectory_root_witness :
  exists es' x,
    buildHierarchy "h.rpf" handTable = Ok (es', Some 0%nat)
    /\ let rpf := mkRpfFile "h.rpf" "h.rpf" 0 0 0x52504637 0 5 0 false false
                            es' (Some 0%nat) [] in
       listDirectory {[ "h.rpf"%string := rpf ]} "h.rpf" "/"
       = Some (["sub"%string], ["a.txt"%string; "B.rpf"%string])
       /\ directoryAt es' 0 = Some x
       /\ let tbl := map static handTable in
          let range := seq (Z.to_nat (entriesIndex x)) (Z.to_nat (entriesCount x)) in
          listDirectory {[ "h.rpf"%string := rpf ]} "h.rpf" "/"
          = Some (map (nameAt es') (List.filter (isDirS tbl) range),
                  map (nameAt es') (List.filter (fun k => negb (isDirS tbl k)) range)).
Proof.
  destruct (buildHierarchy "h.rpf" handTable) as [[es' rt] | err] eqn:E;
    [| vm_compute in E; discriminate].
  assert (Hrt : rt = Some 0%nat) by (vm_compute in E; now injection E as _ <-).
  subst rt.
  destruct (listDirectory_root handTable es' 0
              (mkRpfFile "h.rpf" "h.rpf" 0 0 0x52504637 0 5 0 false false es' (Some 0%nat) [])
              {[ "h.rpf"%string := mkRpfFile "h.rpf" "h.rpf" 0 0 0x52504637 0 5 0 false false
                                             es' (Some 0%nat) [] ]}
              "h.rpf" "/" (handTable_fresh handTable eq_refl) E eq_refl eq_refl
              ltac:(rewrite lookup_singleton; now rewrite decide_True)
              ltac:(now right)) as (x & Hx & L).
  exists es', x. split; [reflexivity |]. cbn zeta. split; [| split; [exact Hx | exact L]].
  vm_compute in E. injection E as <-. reflexivity.
Defined.

Lemma findByName_Some (es : list RpfEntry) (lowerPart : string) (candidates : list nat)
    (i : nat) :
  findByName es lowerPart candidates = Some i ->
  In i candidates /\ exists e, es !! i = Some e /\ nameLower e = lowerPart.
Proof.
  unfold findByName. intros H. apply find_some in H as [Hin Hm]. split; [exact Hin |].
  destruct (es !! i) as [e |]; [| discriminate]. exists e. split; [reflexivity |].
  now apply String.eqb_eq.
Qed.

Lemma findByName_None (es : list RpfEntry) (lowerPart : string) (candidates : list nat) :
  findByName es lowerPart candidates = None ->
  forall j e, In j candidates -> es !! j = Some e -> nameLower e <> lowerPart.
Proof.
  unfold findByName. intros H j e Hj He E.
  pose proof (find_none _ _ H j Hj) as N. cbn in N. rewrite He in N.
  apply String.eqb_neq in N. contradiction.
Qed.

Lemma findStep_inl (es : list RpfEntry) (current : option nat) (part : string)
    (r : option nat) :
  findStep es current part = inl r -> r = None.
Proof.
  unfold findStep. destruct current as [c |]; [| congruence].
  destruct (directoryAt es c) as [x |]; [| congruence].
  destruct (findByName es _ (directories x)); discriminate.
Qed.

Lemma findLoop_last (es : list RpfEntry) (parts : list string) :
  parts <> [] ->
  forall current i,
    findLoop es current parts = Some i ->
    exists c, findStep es (Some c) (List.last parts "") = inr (Some i).
Proof.
  induction parts as [| part parts IH]; [congruence |]. intros _ current i H.
  cbn [findLoop] in H. destruct (findStep es current part) as [r | next] eqn:Hs.
  - apply findStep_inl in Hs. congruence.
  - destruct parts as [| part' parts].
    + cbn [findLoop List.last] in *. subst next.
      destruct current as [c |]; [now exists c | discriminate].
    + change (List.last (part :: part' :: parts) "") with (List.last (part' :: parts) "").
      apply (IH ltac:(discriminate) next i H).
Qed.

(** X16. What findEntry returns is an entry whose lowercased name is the
    lowercased last component of the path, and which is listed in a directory
    of the archive: among its directories, or among its files when no
    directory listed there has that lowercased name (a directory hides a file
    of the same name). *)
Theorem findEntry_finds (rpf : RpfFile) (entryPath : string) (i : nat) :
  findEntry rpf entryPath = Some i ->
  exists e c x,
    allEntries rpf !! i = Some e
    /\ nameLower e = toLowerCase (List.last (splitPath entryPath) "")
    /\ directoryAt (allEntries rpf) c = Some x
    /\ (In i (directories x)
        \/ (In i (files x)
            /\ forall j ej, In j (directories x) -> allEntries rpf !! j = Some ej ->
                            nameLower ej <> nameLower e)).
Proof.
  unfold findEntry. intros H.
  apply (findLoop_last _ _ (splitPath_nonempty entryPath)) in H as [c Hs].
  unfold findStep in Hs. destruct (directoryAt (allEntries rpf) c) as [x |] eqn:Hx;
    [| discriminate].
  destruct (findByName _ _ (directories x)) as [sub |] eqn:Hd.
  - injection Hs as ->. apply findByName_Some in Hd as (Hin & e & He & Hn).
    exists e, c, x. split; [exact He |]. split; [exact Hn |]. split; [exact Hx |]. now left.
  - injection Hs as Hf. apply findByName_Some in Hf as (Hin & e & He & Hn).
    exists e, c, x. split; [exact He |]. split; [exact Hn |]. split; [exact Hx |]. right.
    split; [exact Hin |]. intros j ej Hj Hej. rewrite Hn.
    exact (findByName_None _ _ _ Hd j ej Hj Hej).
Qed.

Lemma findEntry_finds_witness :
  exists e c x,
    allEntries handArchive !! 3%nat = Some e
    /\ nameLower e = toLowerCase (List.last (splitPath "x.RPF") "")
    /\ directoryAt (allEntries handArchive) c = Some x
    /\ (In 3%nat (directories x)
        \/ (In 3%nat (files x)
            /\ forall j ej, In j (directories x) ->
                            allEntries handArchive !! j = Some ej ->
                            nameLower ej <> nameLower e)).
Proof. exact (findEntry_finds handArchive "x.RPF" 3 eq_refl). Defined.

(** X17. The NG key depends on the name only through its lowercased form and
    on the size only through its low 32 bits: two names that differ in letter
    case and two sizes that are congruent modulo 2^32 give the same key, hence
    the same decryption. *)
Theorem ng_key_inputs (name1 name2 : string) (size1 size2 : Z) (data : list Z) :
  toLowerCase name1 = toLowerCase name2 -> size1 mod 2 ^ 32 = size2 mod 2 ^ 32 ->
  generateNGKey name1 size1 = generateNGKey name2 size2
  /\ decryptNG data name1 size1 = decryptNG data name2 size2.
Proof.
  intros Hn Hs.
  assert (K : generateNGKey name1 size1 = generateNGKey name2 size2).
  { rewrite !generateNGKey_spec, Hn. do 2 f_equal.
    assert (A : forall n r a, le_bytes n (r + 256 ^ Z.of_nat n * a) = le_bytes n r).
    { induction n as [| n IH]; intros r a; cbn [le_bytes]; [reflexivity |].
      rewrite Nat2Z.inj_succ, Z.pow_succ_r by lia.
      replace (r + 256 * 256 ^ Z.of_nat n * a) with (r + (256 ^ Z.of_nat n * a) * 256) by lia.
      rewrite Z.mod_add, Z.div_add by lia. now rewrite IH. }
    assert (B : forall s, le_bytes 4 s = le_bytes 4 (s mod 2 ^ 32)).
    { intros s. rewrite (Z.div_mod s (2 ^ 32)) at 1 by lia.
      rewrite Z.add_comm. apply (A 4%nat). }
    now rewrite (B size1), (B size2), Hs. }
  split; [exact K |]. unfold decryptNG. now rewrite K.
Qed.

Lemma ng_key_inputs_witness :
  generateNGKey "Common.RPF" (2 ^ 32 + 7) = generateNGKey "common.rpf" 7
  /\ decryptNG [1; 2; 3] "Common.RPF" (2 ^ 32 + 7) = decryptNG [1; 2; 3] "common.rpf" 7.
Proof. exact (ng_key_inputs "Common.RPF" "common.rpf" (2 ^ 32 + 7) 7 [1; 2; 3] eq_refl eq_refl). Defined.

End Lookups.

(** * The paths of the files of the root *)

Section RootPaths.

Import Rpf Hierarchy Scenario Nested RpfManager TreeScenario.

Lemma map_alter_keeps {B : Type} (g : RpfEntry -> B) (f : RpfEntry -> RpfEntry)
    (i : nat) (es : list RpfEntry) :
  (forall e, g (f e) = g e) -> map g (alter f i es) = map g es.
Proof.
  intros H. apply list_eq. intros j.
  change (map g) with (fmap (M := list) g).
  rewrite !list_lookup_fmap, list_lookup_alter.
  destruct (decide (i = j)) as [-> |]; [| reflexivity].
  destruct (es !! j); cbn; [now rewrite H | reflexivity].
Qed.

Lemma scanNestedRpfs_paths (nested : string -> Z -> result RpfFile)
    (es : list RpfEntry) (rt : option nat) (es' : list RpfEntry) (cs : list RpfFile) :
  scanNestedRpfs nested es rt = Ok (es', cs) -> map path es' = map path es.
Proof.
  unfold scanNestedRpfs. destruct rt as [r |]; [| now intros [= <- <-]].
  destruct (findRpfFiles _ es r) as [fs |]; cbn [rbind]; [| discriminate].
  intros [= H]. apply (f_equal fst) in H. cbn [fst] in H. rewrite <- H.
  apply (fold_left_inv (fun st => map path (fst st) = map path es)); [| reflexivity].
  intros st i Hs. rewrite <- Hs. unfold scanNestedStep.
  destruct (fst st !! i) as [e |]; [| reflexivity].
  destruct (cls e) as [d | f t | f s g]; try reflexivity.
  destruct (nested _ _); [| reflexivity]. cbn [fst]. now apply map_alter_keeps.
Qed.

(* the last loop of updatePaths: every entry of the list gets the path of its
   name under currentPath *)
Lemma file_paths_set (currentPath : string) (l : list nat) (es es' : list RpfEntry) :
  fold_left (fun es0 f => alter (setPath (joinPath currentPath (nameAt es0 f))) f es0) l es
  = es' ->
  map skeleton es' = map skeleton es
  /\ forall f e, In f l -> es' !! f = Some e -> path e = joinPath currentPath (name e).
Proof.
  revert es'. induction l as [| g l IH] using rev_ind; intros es' <-.
  - split; [reflexivity | contradiction].
  - rewrite fold_left_app. cbn [fold_left].
    set (esl := fold_left _ l es) in *. destruct (IH esl eq_refl) as [Sk IH'].
    clear IH. rename IH' into IH.
    split; [rewrite <- Sk; now apply skeleton_alter |].
    intros f e Hf. rewrite list_lookup_alter.
    destruct (decide (g = f)) as [-> | N].
    + unfold nameAt. destruct (esl !! f) as [e0 |]; [| discriminate].
      cbn. now intros [= <-].
    + intros He. apply (IH f e); [| exact He].
      apply in_app_or in Hf as [Hf | [Hf | []]]; [exact Hf | contradiction].
Qed.

(** X18. In the table that buildHierarchy returns with a root, every file
    that the root lists has its own name for path: updatePaths sets the paths
    of the files of the root last, with an empty current path.  The scan for
    nested archives leaves the paths of an archive object as they are. *)
Theorem root_file_paths (filePath : string) (es es' : list RpfEntry) (r : nat)
    (x : DirectoryFields) :
  buildHierarchy filePath es = Ok (es', Some r) ->
  directoryAt es' r = Some x ->
  (forall f e, In f (files x) -> es' !! f = Some e -> path e = name e)
  /\ (forall depth disk rpf rpf',
        allEntries rpf = es' -> scanNested depth disk rpf = Ok rpf' ->
        map path (allEntries rpf') = map path es').
Proof.
  intros H Hx. split.
  - intros f e Hf He. unfold buildHierarchy in H.
    destruct (linkLoop (length es) 0 es) as [es1 |]; cbn [rbind] in H; [| discriminate].
    destruct (rootOf es1) as [r' |]; [| discriminate].
    destruct (updatePaths (stackFuel es1) r' "" _) as [es2 |] eqn:Eu; cbn [rbind] in H;
      [| discriminate].
    injection H as <- <-.
    unfold stackFuel in Eu. cbn [updatePaths] in Eu.
    destruct (foldM _ _ _) as [esm |]; cbn [rbind] in Eu; [| discriminate].
    injection Eu as Eu.
    destruct (file_paths_set "" (filesAt esm r') esm es2 Eu) as [Sm Pm].
    assert (Fx : filesAt esm r' = files x).
    { unfold filesAt. now rewrite <- (skeleton_directoryAt _ _ r' Sm), Hx. }
    rewrite Fx in Pm. exact (Pm f e Hf He).
  - intros depth disk rpf rpf' Ha Hs. unfold scanNested in Hs.
    destruct (root rpf) as [r' |]; [| injection Hs as <-; now rewrite Ha].
    destruct (findRpfFiles _ (allEntries rpf) r') as [fs |]; cbn [rbind] in Hs;
      [| discriminate].
    injection Hs as <-. cbn [allEntries]. rewrite <- Ha.
    apply (fold_left_inv (fun st => map path (fst st) = map path (allEntries rpf)));
      [| reflexivity].
    intros st i Hst. rewrite <- Hst. unfold scanNestedStep.
    destruct (fst st !! i) as [e0 |]; [| reflexivity].
    destruct (cls e0) as [d | f0 t | f0 s g]; try reflexivity.
    destruct (scanStructure _ _ _ _ _); [| reflexivity]. cbn [fst].
    now apply map_alter_keeps.
Qed.

(* the paths that buildHierarchy sets on handTable: the files of the root have
   their names, the file of "sub" has the name of the directory before its own *)
Lemma root_file_paths_witness :
  exists es' x,
    buildHierarchy "h.rpf" handTable = Ok (es', Some 0%nat)
    /\ directoryAt es' 0 = Some x
    /\ files x = [2; 3]%nat
    /\ map path es' = ["h.rpf"; "sub"; "a.txt"; "B.rpf"; "sub\c.rpf"]%string
    /\ (forall f e, In f (files x) -> es' !! f = Some e -> path e = name e)
    /\ (forall depth disk rpf rpf',
          allEntries rpf = es' -> scanNested depth disk rpf = Ok rpf' ->
          map path (allEntries rpf') = map path es').
Proof.
  destruct (buildHierarchy "h.rpf" handTable) as [[es' rt] | err] eqn:E;
    [| vm_compute in E; discriminate].
  assert (Hrt : rt = Some 0%nat) by (vm_compute in E; now injection E as _ <-).
  subst rt.
  assert (Hx : exists x, directoryAt es' 0 = Some x /\ files x = [2; 3]%nat
                         /\ map path es'
                            = ["h.rpf"; "sub"; "a.txt"; "B.rpf"; "sub\c.rpf"]%string).
  { pose proof E as E'. vm_compute in E'. apply Ok_inj in E'.
    assert (Es : es' = fst (es', Some 0%nat)) by reflexivity.
    rewrite <- E' in Es. cbn [fst] in Es. rewrite Es.
    eexists. split; [reflexivity |]. split; reflexivity. }
  destruct Hx as (x & Hx & Hf & Hp).
  exists es', x. split; [reflexivity |]. split; [exact Hx |]. split; [exact Hf |].
  split; [exact Hp |].
  exact (root_file_paths "h.rpf" handTable es' 0 x E Hx).
Defined.

End RootPaths.

(** * Archives with encrypted tables *)

Section EncryptedTables.

Import Rpf GTACrypto Scenario Nested Images.

Lemma le_decode_le_bytes (n : nat) (x : Z) :
  le_decode (le_bytes n x) = x mod 256 ^ Z.of_nat n.
Proof.
  revert x. induction n as [| n IH]; intros x; cbn [le_bytes le_decode].
  - now rewrite Z.mod_1_r.
  - rewrite IH, Nat2Z.inj_succ, Z.pow_succ_r by lia.
    rewrite Z.rem_mul_r by (try apply Z.pow_nonzero; lia). lia.
Qed.

Lemma le_bytes_length (n : nat) (x : Z) : length (le_bytes n x) = n.
Proof. revert x. induction n as [| n IH]; intros x; cbn; [| rewrite IH]; reflexivity. Qed.

Lemma header_words (ec nl enc : Z) :
  0 <= ec < 2 ^ 32 -> 0 <= nl < 2 ^ 32 -> 0 <= enc < 2 ^ 32 ->
  getUint32 (header ec nl enc) 0 = Ok 0x52504637
  /\ getUint32 (header ec nl enc) 4 = Ok ec
  /\ getUint32 (header ec nl enc) 8 = Ok nl
  /\ getUint32 (header ec nl enc) 12 = Ok enc.
Proof.
  intros He Hn Hc. unfold header, getUint32.
  assert (L : forall x, length (le_bytes 4 x) = 4%nat) by (intros; apply le_bytes_length).
  rewrite !getUint_ok by (rewrite ?length_app, ?L; cbn; lia).
  unfold subarray. cbn [Z.to_nat Pos.to_nat Pos.iter_op Nat.add].
  change (Z.to_nat 0) with 0%nat. change (Z.to_nat 4) with (length (le_bytes 4 0x52504637)).
  rewrite drop_0, take_app_length', drop_app_length by (rewrite ?L; reflexivity).
  rewrite take_app_length' by (rewrite ?L; reflexivity).
  replace (Z.to_nat 8) with (length (le_bytes 4 0x52504637) + length (le_bytes 4 ec))%nat
    by (rewrite !L; reflexivity).
  rewrite drop_app_add, drop_app_length, take_app_length' by (rewrite ?L; reflexivity).
  replace (Z.to_nat 12)
    with (length (le_bytes 4 0x52504637) + (length (le_bytes 4 ec) + length (le_bytes 4 nl)))%nat
    by (rewrite !L; reflexivity).
  rewrite drop_app_add, drop_app_add, drop_app_length.
  rewrite take_ge by (rewrite L; lia).
  rewrite !le_decode_le_bytes. change (256 ^ Z.of_nat 4) with (2 ^ 32).
  rewrite !Z.mod_small by lia. repeat split.
Qed.

(* what scanStructure makes of an image: [decrypt] is what it applies to the
   two tables *)
Lemma scan_image (nested : string -> Z -> result RpfFile) (path nm : string)
    (ec enc : Z) (entries names : list Z) :
  0 <= ec * 16 < 2 ^ 31 -> 0 <= Z.of_nat (length names) < 2 ^ 31 -> 0 <= enc < 2 ^ 32 ->
  Z.of_nat (length entries) = ec * 16 ->
  let size := Z.of_nat (length (image ec enc entries names)) in
  let decrypt := fun table =>
    if enc =? RpfEncryption.AES then decryptAES table
    else if enc =? RpfEncryption.NG then decryptNG table nm size
    else table in
  scanStructureWith nested (diskOf path (image ec enc entries names)) path nm 0
  = (parsed <-- parseEntries path ec (decrypt entries) (decrypt names) ;;
     scanned <-- scanNestedRpfs nested (fst parsed) (snd parsed) ;;
     Ok {| filePath := path; fileName := nm; rpfSize := size; startPos := 0;
           version := 0x52504637; encryption := enc; entryCount := ec;
           namesLength := Z.of_nat (length names);
           isAESEncrypted := enc =? RpfEncryption.AES;
           isNGEncrypted := enc =? RpfEncryption.NG;
           allEntries := fst scanned; root := snd parsed; children := snd scanned |}).
Proof.
  intros He Hn Hc Hl size decrypt. unfold scanStructureWith, diskOf.
  rewrite lookup_singleton, decide_True by reflexivity.
  assert (R0 : readBytes (image ec enc entries names) 16 0
               = header ec (Z.of_nat (length names)) enc).
  { unfold image. apply (readBytes_exact []); reflexivity. }
  assert (R1 : readBytes (image ec enc entries names) (ec * 16) (0 + 16) = entries).
  { unfold image. apply readBytes_exact; [reflexivity | lia]. }
  assert (R2 : readBytes (image ec enc entries names) (Z.of_nat (length names))
                         (0 + 16 + ec * 16) = names).
  { unfold image. rewrite app_assoc. rewrite <- (app_nil_r names) at 2.
    apply readBytes_exact; [| lia].
    rewrite length_app. change (length (header _ _ _)) with 16%nat. lia. }
  rewrite readSync_ok by lia. rewrite R0. cbn [rbind].
  destruct (header_words ec (Z.of_nat (length names)) enc ltac:(lia) ltac:(lia) Hc)
    as (W0 & W1 & W2 & W3).
  rewrite W0, W1, W2, W3. cbn [rbind]. change (negb (1380992567 =? 1380992567)) with false.
  cbv iota. rewrite !readSync_ok by lia. rewrite R1, R2. cbn [rbind]. fold size.
  unfold decrypt. destruct (enc =? RpfEncryption.AES); [reflexivity |].
  destruct (enc =? RpfEncryption.NG); reflexivity.
Qed.

Lemma image_length (ec enc : Z) (entries names : list Z) :
  length (image ec enc entries names) = (16 + length entries + length names)%nat.
Proof. unfold image. rewrite !length_app. change (length (header _ _ _)) with 16%nat. lia. Qed.

(** X19. An archive whose header carries the AES encryption word and whose two
    tables are stored as encryptAES of the plain tables opens to the same
    entries, the same root and the same children as the archive with the plain
    tables and encryption word 0, and fails with the same error when that one
    fails; so does the archive with the NG word whose tables are stored as
    encryptNG under the archive's file name and the size of its file. *)
Theorem encrypted_tables_parse_alike (path nm : string) (ec : Z)
    (entries names : list Z) :
  Forall is_byte entries -> Forall is_byte names ->
  Z.of_nat (length entries) = ec * 16 ->
  Z.of_nat (length entries) + 15 < 2 ^ 31 -> Z.of_nat (length names) + 15 < 2 ^ 31 ->
  let size := Z.of_nat (16 + length entries + length names) in
  let plain := image ec RpfEncryption.NONE entries names in
  let aes := image ec RpfEncryption.AES (encryptAES entries) (encryptAES names) in
  let ng := image ec RpfEncryption.NG (encryptNG entries nm size) (encryptNG names nm size) in
  alike (scanStructure 0 (diskOf path plain) path nm 0)
        (scanStructure 0 (diskOf path aes) path nm 0)
  /\ alike (scanStructure 0 (diskOf path plain) path nm 0)
           (scanStructure 0 (diskOf path ng) path nm 0).
Proof.
  intros Hbe Hbn Hl He Hn size plain aes ng. cbn [scanStructure].
  assert (Hec : 0 <= ec * 16 < 2 ^ 31) by lia.
  unfold plain, aes, ng.
  rewrite (scan_image _ path nm ec RpfEncryption.NONE entries names)
    by (try assumption; unfold RpfEncryption.NONE; lia).
  rewrite (scan_image _ path nm ec RpfEncryption.AES (encryptAES entries) (encryptAES names))
    by (rewrite ?encryptAES_length; try assumption; unfold RpfEncryption.AES; lia).
  rewrite (scan_image _ path nm ec RpfEncryption.NG (encryptNG entries nm size)
             (encryptNG names nm size))
    by (unfold encryptNG, decryptNG; rewrite ?xorLoop_length; try assumption;
        unfold RpfEncryption.NG; lia).
  clear plain aes ng.
  cbn zeta. rewrite !image_length.
  assert (Lng : forall t, length (encryptNG t nm size) = length t)
    by (intros t; unfold encryptNG, decryptNG; apply xorLoop_length).
  rewrite !Lng, !encryptAES_length. fold size.
  change (RpfEncryption.NONE =? RpfEncryption.AES) with false.
  change (RpfEncryption.NONE =? RpfEncryption.NG) with false.
  change (RpfEncryption.AES =? RpfEncryption.AES) with true.
  change (RpfEncryption.NG =? RpfEncryption.AES) with false.
  change (RpfEncryption.NG =? RpfEncryption.NG) with true.
  cbv iota.
  rewrite (proj2 (aes_round_trip_aux entries Hbe He)).
  rewrite (proj2 (aes_round_trip_aux names Hbn Hn)).
  assert (Ng : forall t, Forall is_byte t -> decryptNG (encryptNG t nm size) nm size = t).
  { intros t Ht. unfold encryptNG, decryptNG.
    apply xorLoop_involutive; [apply digest_is_byte | exact Ht]. }
  rewrite !Ng by assumption.
  destruct (parseEntries path ec entries names) as [parsed |]; cbn [rbind];
    [| split; reflexivity].
  destruct (scanNestedRpfs _ (fst parsed) (snd parsed)) as [scanned |]; cbn [rbind];
    [| split; reflexivity].
  cbn. repeat split.
Qed.

Lemma encrypted_tables_parse_alike_witness :
  let entries := binaryRecord 0 0 1 0 0 in
  let names := bytes_of_string "a.rpf" ++ [0] in
  let size := 38 in
  alike (scanStructure 0 (diskOf "e.rpf" (image 1 RpfEncryption.NONE entries names)) "e.rpf"
                       "e.rpf" 0)
        (scanStructure 0
           (diskOf "e.rpf" (image 1 RpfEncryption.AES (encryptAES entries) (encryptAES names)))
           "e.rpf" "e.rpf" 0)
  /\ alike (scanStructure 0 (diskOf "e.rpf" (image 1 RpfEncryption.NONE entries names)) "e.rpf"
                          "e.rpf" 0)
           (scanStructure 0
              (diskOf "e.rpf" (image 1 RpfEncryption.NG (encryptNG entries "e.rpf" size)
                                     (encryptNG names "e.rpf" size)))
              "e.rpf" "e.rpf" 0).
Proof.
  refine (encrypted_tables_parse_alike "e.rpf" "e.rpf" 1 (binaryRecord 0 0 1 0 0)
            (bytes_of_string "a.rpf" ++ [0]) _ _ _ _ _).
  - apply bytes_ok. vm_compute. reflexivity.
  - apply bytes_ok. vm_compute. reflexivity.
  - vm_compute. reflexivity.
  - vm_compute. reflexivity.
  - vm_compute. reflexivity.
Defined.

End EncryptedTables.
